(** * Data Validator: the type-aware comparison engine of [valid.py]

    A shallow embedding of [make_unique], [detect_type], [compare] and the
    validation loop of [valid.py], together with the parts of the Python
    runtime they run on: exceptions, binary64 floats, [str] methods,
    [float()], the [.2f] format and [difflib.SequenceMatcher].

    Conventions.
    - A Python [float] is a [spec_float] of the Standard Library, with the
      binary64 parameters (53 bits of precision, [emax = 1024]).
    - A Python [str] is a [string]; its characters are the code points
      U+0000 to U+00FF, with Python's white space and lower-case mapping on
      that range.
    - A raised exception is the [Raise] outcome of the [res] monad; a bare
      [except:] is [try_except].
    - [dateutil.parser.parse] and [repr] of a float are not part of the
      repository: the development takes them as section variables. *)

From Stdlib Require Import ZArith Bool List String Ascii Lia DecimalString.
From Stdlib Require Import DecimalN DecimalPos.
From Stdlib Require Import Floats.SpecFloat.
From stdpp Require Import gmap strings list sorting.

#[local] Set Warnings "-clear-no-such-hyp".
Local Open Scope Z_scope.

(** ** Exceptions *)

Inductive exc : Set :=
| ValueError | TypeError | OverflowError | IndexError | KeyError | ParserError.

(** The outcome of running a piece of Python: a value, a raised exception,
    or a loop that was still running when the model's step budget ran out. *)
Inductive res (A : Type) : Type :=
| Ok (a : A)
| Raise (e : exc)
| Diverge.
Arguments Ok {A} a.
Arguments Raise {A} e.
Arguments Diverge {A}.

#[global] Instance res_ret : MRet res := fun A a => Ok a.
#[global] Instance res_bind : MBind res := fun A B f m =>
  match m with Ok a => f a | Raise e => Raise e | Diverge => Diverge end.

(** [try: body / except: handler] with a bare [except]: every exception is
    caught, and nothing else. *)
Definition try_except {A} (body handler : res A) : res A :=
  match body with Raise _ => handler | r => r end.

Definition of_option {A} (e : exc) (o : option A) : res A :=
  match o with Some a => Ok a | None => Raise e end.

Definition is_ok {A} (m : res A) : bool :=
  match m with Ok _ => true | _ => false end.

(** ** Floats: IEEE 754 binary64 *)

Module Float.

Abbreviation prec := 53 (only parsing).
Abbreviation emax := 1024 (only parsing).

Definition sub : spec_float -> spec_float -> spec_float := SFsub prec emax.
Definition mul : spec_float -> spec_float -> spec_float := SFmul prec emax.
Definition div : spec_float -> spec_float -> spec_float := SFdiv prec emax.
Definition abs : spec_float -> spec_float := SFabs.
(** [x <= y] and [x >= y] on floats: false as soon as one side is a NaN. *)
Definition le (x y : spec_float) : bool := SFleb x y.
Definition ge (x y : spec_float) : bool := SFleb y x.
Definition is_nan (x : spec_float) : bool :=
  match x with S754_nan => true | _ => false end.

Definition is_finite (x : spec_float) : bool :=
  match x with S754_zero _ | S754_finite _ _ _ => true | _ => false end.

Definition zero : spec_float := S754_zero false.
Definition one : spec_float := S754_finite false 4503599627370496 (-52).
Definition two : spec_float := S754_finite false 4503599627370496 (-51).

(** The float nearest to an integer (ties to even); infinite past the range. *)
Definition of_Z (z : Z) : spec_float := binary_normalize prec emax z 0 false.

(** The float nearest to [(-1)^s * m * 10^e], as a correctly rounded decimal
    to binary conversion yields it. *)
Definition of_decimal (s : bool) (m : N) (e : Z) : spec_float :=
  match m with
  | N0 => S754_zero s
  | Npos p =>
      if 0 <=? e then
        binary_normalize prec emax
          (cond_Zopp s (Zpos p * 10 ^ e)) 0 false
      else
        SFdiv prec emax (S754_finite s p 0)
                        (S754_finite false (Z.to_pos (10 ^ (- e))) 0)
  end.

End Float.

(** [n / d <= tol] in exact arithmetic, with the exact value of the float
    [tol]: the test a tolerance stands for when nothing is rounded. *)
Definition within_tolerance (n : Z) (d : positive) (tol : spec_float)
  : Prop :=
  match tol with
  | S754_zero _ => n ≤ 0
  | S754_infinity s => s = false
  | S754_nan => False
  | S754_finite s m e =>
      n * 2 ^ Z.max 0 (- e) ≤ Zpos d * cond_Zopp s (Zpos m) * 2 ^ Z.max 0 e
  end.

#[global] Instance within_tolerance_dec (n : Z) (d : positive)
    (tol : spec_float) : Decision (within_tolerance n d tol).
Proof. destruct tol; simpl; apply _. Defined.

(** A float in normal form: a finite one has a mantissa of 53 digits. *)
Definition normal (x : spec_float) : Prop :=
  match x with
  | S754_finite _ m _ => Zpos (digits2_pos m) = 53
  | _ => True
  end.

(** ** Characters and [str] methods *)

Definition ord (c : ascii) : Z := Z.of_N (N_of_ascii c).
Definition chr (n : Z) : ascii := ascii_of_N (Z.to_N n).

(** [c.isspace()] on U+0000..U+00FF. *)
Definition isspace (c : ascii) : bool :=
  let n := ord c in
  ((9 <=? n) && (n <=? 13)) || ((28 <=? n) && (n <=? 32))
  || (n =? 133) || (n =? 160).

(** [c.lower()] on U+0000..U+00FF: A-Z, and the Latin-1 capitals U+00C0 to
    U+00DE except the multiplication sign U+00D7. *)
Definition lower_char (c : ascii) : ascii :=
  let n := ord c in
  if ((65 <=? n) && (n <=? 90))
     || ((192 <=? n) && (n <=? 222) && negb (n =? 215))
  then chr (n + 32) else c.

Definition isdigit (c : ascii) : bool :=
  let n := ord c in (48 <=? n) && (n <=? 57).

Definition digit_value (c : ascii) : N := Z.to_N (ord c - 48).

Abbreviation chars := list_ascii_of_string (only parsing).
Abbreviation text := string_of_list_ascii (only parsing).

Fixpoint lstrip_chars (s : list ascii) : list ascii :=
  match s with
  | c :: s' => if isspace c then lstrip_chars s' else s
  | [] => []
  end.

Definition strip_chars (s : list ascii) : list ascii :=
  rev (lstrip_chars (rev (lstrip_chars s))).

(** [s.strip()] *)
Definition strip (s : string) : string := text (strip_chars (chars s)).

(** [s.lower()] *)
Definition lower (s : string) : string := text (map lower_char (chars s)).

(** ** [float(s)] for a [str] *)

Module FloatParse.

(** White space as [float()] sees it: the ASCII white space of [Py_ISSPACE],
    and the non-ASCII spaces, which are first rewritten to a blank. *)
Definition float_space (c : ascii) : bool :=
  let n := ord c in
  ((9 <=? n) && (n <=? 13)) || (n =? 32) || (n =? 133) || (n =? 160).

(** Underscores may only stand between two digits; they are then dropped.
    [prev] is the character before [s]. *)
Fixpoint drop_underscores (prev : option ascii) (s : list ascii)
  : option (list ascii) :=
  match s with
  | [] => if decide (prev = Some "_"%char) then None else Some []
  | c :: s' =>
      if decide (c = "_"%char) then
        if from_option isdigit false prev
        then drop_underscores (Some c) s' else None
      else
        if bool_decide (prev = Some "_"%char) && negb (isdigit c) then None
        else cons c <$> drop_underscores (Some c) s'
  end.

Fixpoint lstrip_space (s : list ascii) : list ascii :=
  match s with
  | c :: s' => if float_space c then lstrip_space s' else s
  | [] => []
  end.

(** A run of digits at the head of [s]: its value when read after the digits
    [acc], how many digits there are, and what follows. *)
Fixpoint digits (acc : N) (n : nat) (s : list ascii) : N * nat * list ascii :=
  match s with
  | c :: s' =>
      if isdigit c then digits (10 * acc + digit_value c)%N (S n) s'
      else (acc, n, s)
  | [] => (acc, n, [])
  end.

Definition sign (s : list ascii) : bool * list ascii :=
  match s with
  | "-"%char :: s' => (true, s')
  | "+"%char :: s' => (false, s')
  | _ => (false, s)
  end.

(** An exponent part [e[+-]ddd]; when it is malformed nothing is consumed. *)
Definition exponent (s : list ascii) : Z * list ascii :=
  match s with
  | c :: s' =>
      if decide (lower_char c = "e"%char) then
        let '(neg, s1) := sign s' in
        let '(v, n, rest) := digits 0 0 s1 in
        match n with
        | O => (0, s)
        | S _ => (cond_Zopp neg (Z.of_N v), rest)
        end
      else (0, s)
  | [] => (0, [])
  end.

(** [inf], [infinity] and [nan], in any case. *)
Definition inf_or_nan (neg : bool) (s : list ascii) : option spec_float :=
  let l := text (map lower_char s) in
  if decide (l = "inf" \/ l = "infinity") then Some (S754_infinity neg)
  else if decide (l = "nan") then Some S754_nan
  else None.

(** A decimal numeral: digits, an optional point and digits, at least one
    digit in all, an optional exponent, and nothing after it. *)
Definition decimal (neg : bool) (s : list ascii) : option spec_float :=
  let '(ip, ni, s1) := digits 0 0 s in
  let '(m, nf, s2) :=
    match s1 with
    | "."%char :: s1' => digits ip 0 s1'
    | _ => (ip, O, s1)
    end in
  match (ni + nf)%nat with
  | O => None
  | S _ =>
      match exponent s2 with
      | (e, []) => Some (Float.of_decimal neg m (e - Z.of_nat nf))
      | _ => None
      end
  end.

Definition parse (s : string) : option spec_float :=
  s0 ← (if decide ("_"%char ∈ chars s)
        then drop_underscores None (chars s) else Some (chars s));
  let body := rev (lstrip_space (rev (lstrip_space s0))) in
  let '(neg, num) := sign body in
  match decimal neg num with
  | Some x => Some x
  | None => inf_or_nan neg num
  end.

End FloatParse.

(** ** Rendering numbers as text *)

(** [str(z)] for an [int]: CPython refuses to render more than 4300 digits,
    that is, an [int] of absolute value [10^4300] or more. *)
Definition int_max_str_digits : Z := 4300.

Definition str_of_int (z : Z) : res string :=
  if 10 ^ int_max_str_digits <=? Z.abs z then Raise ValueError
  else
    let u := NilZero.string_of_uint (N.to_uint (Z.abs_N z)) in
    Ok (if z <? 0 then String "-" u else u).

Definition pad2 (z : Z) : string :=
  let u := NilZero.string_of_uint (N.to_uint (Z.to_N z)) in
  if z <? 10 then String "0" u else u.

(** [round(q)] to the nearest integer, ties to the even one, for [q = n / d]. *)
Definition round_half_even (n d : Z) : Z :=
  let q := n / d in
  let r := n mod d in
  match 2 * r ?= d with
  | Lt => q
  | Gt => q + 1
  | Eq => if Z.even q then q else q + 1
  end.

(** [format(x, '.2f')]: the decimal with two fractional digits nearest to the
    exact value of [x]. *)
Definition format_2f (x : spec_float) : string :=
  let fixed (s : bool) (h : Z) :=
    ((if s then "-" else "") +:+ NilZero.string_of_uint (N.to_uint (Z.to_N (h / 100)))
       +:+ "." +:+ pad2 (h mod 100))%string in
  match x with
  | S754_nan => "nan"
  | S754_infinity s => if s then "-inf" else "inf"
  | S754_zero s => fixed s 0
  | S754_finite s m e =>
      fixed s (if 0 <=? e then Zpos m * 2 ^ e * 100
               else round_half_even (Zpos m * 100) (2 ^ (- e)))
  end.

(** ** [difflib.SequenceMatcher(None, a, b)] *)

Module SequenceMatcher.
Section Matcher.
Context {A : Type} `{Countable A}.

(** A match [(i, j, k)]: [a[i:i+k] == b[j:j+k]]. *)
Definition block : Type := nat * nat * nat.
Definition size (m : block) : nat := m.2.

(** [__chain_b], first loop: [b2j[elt]] lists the indices of [elt] in [b],
    in increasing order. [i] is the index of the head of [b]. *)
Fixpoint chain (i : nat) (b : list A) (b2j : gmap A (list nat))
  : gmap A (list nat) :=
  match b with
  | [] => b2j
  | elt :: b' =>
      chain (S i) b' (<[elt := default [] (b2j !! elt) ++ [i]]> b2j)
  end.

(** [isjunk] is [None]: no element is junk. *)
Definition isbjunk (x : A) : bool := false.

(** [__chain_b], the purge of popular elements ([autojunk] is on): in a
    sequence of 200 elements or more, an element that fills more than 1% of
    it (plus one) loses its entry. *)
Definition purge_popular (n : nat) (b2j : gmap A (list nat))
  : gmap A (list nat) :=
  if bool_decide (200 ≤ n)%nat then
    let ntest := (n / 100 + 1)%nat in
    filter (λ kv, ¬ (ntest < length kv.2)%nat) b2j
  else b2j.

Definition chain_b (b : list A) : gmap A (list nat) :=
  purge_popular (length b) (chain 0 b ∅).

Section FindLongestMatch.
Variables (a b : list A) (b2j : gmap A (list nat)).
Variables (alo ahi blo bhi : nat).

(** [j2len.get(j - 1, 0)] *)
Definition j2lenget_pred (j2len : gmap nat nat) (j : nat) : nat :=
  match j with
  | O => 0%nat
  | S j' => default 0%nat (j2len !! j')
  end.

(** The inner loop [for j in b2j.get(a[i], nothing)]. *)
Fixpoint scan_js (i : nat) (j2len : gmap nat nat) (js : list nat)
    (newj2len : gmap nat nat) (best : block) : gmap nat nat * block :=
  match js with
  | [] => (newj2len, best)
  | j :: js' =>
      if bool_decide (j < blo)%nat then scan_js i j2len js' newj2len best
      else if bool_decide (bhi ≤ j)%nat then (newj2len, best)
      else
        let k := (j2lenget_pred j2len j + 1)%nat in
        scan_js i j2len js' (<[j := k]> newj2len)
          (if bool_decide (size best < k)%nat
           then (i + 1 - k, j + 1 - k, k)%nat else best)
  end.

(** The outer loop [for i in range(alo, ahi)], with [n] indices to go. *)
Fixpoint scan_is (i n : nat) (j2len : gmap nat nat) (best : block) : block :=
  match n with
  | O => best
  | S n' =>
      let js := default [] (x ← a !! i; b2j !! x) in
      let '(newj2len, best') := scan_js i j2len js ∅ best in
      scan_is (S i) n' newj2len best'
  end.

(** [while besti > alo and bestj > blo and want(b[bestj-1]) and
    a[besti-1] == b[bestj-1]]: grow the match to the left. *)
Fixpoint extend_left (want : A → bool) (besti bestj bestsize : nat) : block :=
  match besti, bestj with
  | S i', S j' =>
      if bool_decide (alo < besti ∧ blo < bestj)%nat
         && from_option want false (b !! j')
         && bool_decide (a !! i' = b !! j')
      then extend_left want i' j' (S bestsize)
      else (besti, bestj, bestsize)
  | _, _ => (besti, bestj, bestsize)
  end.

(** [while besti+bestsize < ahi and bestj+bestsize < bhi and
    want(b[bestj+bestsize]) and a[besti+bestsize] == b[bestj+bestsize]]:
    grow the match to the right; [n] bounds the elements left in [a]. *)
Fixpoint extend_right (want : A → bool) (n besti bestj bestsize : nat)
  : block :=
  match n with
  | O => (besti, bestj, bestsize)
  | S n' =>
      if bool_decide (besti + bestsize < ahi ∧ bestj + bestsize < bhi)%nat
         && from_option want false (b !! (bestj + bestsize)%nat)
         && bool_decide (a !! (besti + bestsize)%nat
                         = b !! (bestj + bestsize)%nat)
      then extend_right want n' besti bestj (S bestsize)
      else (besti, bestj, bestsize)
  end.

Definition find_longest_match : block :=
  let '(besti, bestj, bestsize) := scan_is alo (ahi - alo) ∅ (alo, blo, 0%nat) in
  let nonjunk x := negb (isbjunk x) in
  let '(besti, bestj, bestsize) := extend_left nonjunk besti bestj bestsize in
  let '(besti, bestj, bestsize) :=
    extend_right nonjunk (ahi - (besti + bestsize)) besti bestj bestsize in
  let '(besti, bestj, bestsize) := extend_left isbjunk besti bestj bestsize in
  extend_right isbjunk (ahi - (besti + bestsize)) besti bestj bestsize.

End FindLongestMatch.

(** The work list of [get_matching_blocks]: the head of [queue] is the item
    [queue.pop()] takes. [None] when [fuel] items were processed and the
    queue is not empty yet. *)
Fixpoint blocks_loop (a b : list A) (b2j : gmap A (list nat)) (fuel : nat)
    (queue : list (nat * nat * nat * nat)) (matching_blocks : list block)
  : option (list block) :=
  match queue with
  | [] => Some matching_blocks
  | (alo, ahi, blo, bhi) :: queue =>
      match fuel with
      | O => None
      | S fuel =>
          let '(i, j, k) := find_longest_match a b b2j alo ahi blo bhi in
          match k with
          | O => blocks_loop a b b2j fuel queue matching_blocks
          | S _ =>
              let queue :=
                if bool_decide (alo < i ∧ blo < j)%nat
                then (alo, i, blo, j) :: queue else queue in
              let queue :=
                if bool_decide (i + k < ahi ∧ j + k < bhi)%nat
                then ((i + k)%nat, ahi, (j + k)%nat, bhi) :: queue else queue in
              blocks_loop a b b2j fuel queue (matching_blocks ++ [(i, j, k)])
          end
      end
  end.

(** The order of [matching_blocks.sort()] on triples. *)
Definition block_le (x y : block) : Prop :=
  let '(i1, j1, k1) := x in
  let '(i2, j2, k2) := y in
  (i1 < i2 ∨ (i1 = i2 ∧ (j1 < j2 ∨ (j1 = j2 ∧ k1 ≤ k2))))%nat.

#[local] Instance block_le_dec : RelDecision block_le.
Proof. intros [[i1 j1] k1] [[i2 j2] k2]. simpl. apply _. Defined.

(** The loop that merges adjacent blocks; [(i1, j1, k1)] is the block being
    grown. *)
Fixpoint collapse (i1 j1 k1 : nat) (blocks : list block) : list block :=
  match blocks with
  | [] => match k1 with O => [] | S _ => [(i1, j1, k1)] end
  | (i2, j2, k2) :: blocks =>
      if bool_decide (i1 + k1 = i2 ∧ j1 + k1 = j2)%nat
      then collapse i1 j1 (k1 + k2) blocks
      else match k1 with
           | O => collapse i2 j2 k2 blocks
           | S _ => (i1, j1, k1) :: collapse i2 j2 k2 blocks
           end
  end.

Definition get_matching_blocks (a b : list A) : option (list block) :=
  let la := length a in
  let lb := length b in
  matching_blocks ← blocks_loop a b (chain_b b) (2 * la + 1) [(0, la, 0, lb)%nat] [];
  let non_adjacent := collapse 0 0 0 (merge_sort block_le matching_blocks) in
  Some (non_adjacent ++ [(la, lb, 0%nat)]).

(** [_calculate_ratio]: [2.0 * matches / length], and [1.0] for length 0. *)
Definition calculate_ratio (matches length : nat) : spec_float :=
  match length with
  | O => Float.one
  | S _ =>
      Float.div (Float.mul Float.two (Float.of_Z (Z.of_nat matches)))
                (Float.of_Z (Z.of_nat length))
  end.

Definition matches (a b : list A) : option nat :=
  blocks ← get_matching_blocks a b;
  Some (sum_list_with size blocks).

Definition ratio (a b : list A) : res spec_float :=
  match matches a b with
  | Some m => Ok (calculate_ratio m (length a + length b))
  | None => Diverge
  end.

End Matcher.

(** *** Notions the proofs about the matcher are stated with *)

Section Spec.
Context {A : Type} `{Countable A}.
Local Open Scope nat_scope.

(** The positions of [x] in [l], counted from [i], in increasing order. *)
Fixpoint positions (x : A) (i : nat) (l : list A) : list nat :=
  match l with
  | [] => []
  | y :: l' =>
      if decide (y = x) then i :: positions x (S i) l'
      else positions x (S i) l'
  end.

(** [a[i:i+k]] and [b[j:j+k]] lie inside the window [alo..ahi], [blo..bhi]
    and are equal. *)
Definition is_match (a b : list A) (alo ahi blo bhi : nat) (m : block)
  : Prop :=
  let '(i, j, k) := m in
  alo ≤ i ∧ i + k ≤ ahi ∧ blo ≤ j ∧ j + k ≤ bhi
  ∧ ∀ t, t < k → a !! (i + t) = b !! (j + t).

(** The entries of [j2len] when row [i] starts: [j2len[j]] is the length of
    a match that ends with [a[i-1]] and [b[j]]. *)
Definition runs_ok (a b : list A) (alo ahi blo bhi : nat) (i : nat)
    (j2len : gmap nat nat) : Prop :=
  ∀ j v, j2len !! j = Some v →
    1 ≤ v ∧ v ≤ i ∧ v ≤ j + 1
    ∧ is_match a b alo ahi blo bhi (i - v, j + 1 - v, v).

Definition window_ok (w : nat * nat * nat * nat) : Prop :=
  let '(alo, ahi, blo, bhi) := w in alo ≤ ahi ∧ blo ≤ bhi.

(** A bound on the queue items a window gives rise to. *)
Definition cost (w : nat * nat * nat * nat) : nat :=
  let '(alo, ahi, _, _) := w in 2 * (ahi - alo) + 1.

(** [m] elements matched inside a window: no more than either side holds,
    and when [m] fills both sides, the two sides are equal. *)
Definition covers (a b : list A) (w : nat * nat * nat * nat) (m : nat)
  : Prop :=
  let '(alo, ahi, blo, bhi) := w in
  m ≤ ahi - alo ∧ m ≤ bhi - blo
  ∧ (m = ahi - alo → m = bhi - blo →
     ∀ t, t < m → a !! (alo + t) = b !! (blo + t)).

(** A sequence [s] against itself: [s[i]] and [s[j]] are the same element,
    and [b2j] has an entry for it. *)
Definition hit (s : list A) (i j : nat) : bool :=
  match s !! i with
  | Some x => bool_decide (s !! j = Some x)
              && bool_decide (is_Some (chain_b s !! x))
  | None => false
  end.

(** The length of the longest sequence of hits that ends at [(i, j)]. *)
Fixpoint run (s : list A) (i j : nat) : nat :=
  if hit s i j
  then S (match i, j with S i', S j' => run s i' j' | _, _ => 0 end)
  else 0.

(** What [j2len] holds when row [i] starts. *)
Definition prev_run (s : list A) (i j : nat) : nat :=
  match i with S i' => run s i' j | O => 0 end.

End Spec.
End SequenceMatcher.

(** ** Column labels: [make_unique] *)

(** The loop [for col in columns]: [seen] holds, for each label met so far,
    how many times it was met again; [new_cols] is the list built so far.
    The suffix of a repeated label is [str] of its new count. *)
Fixpoint make_unique_loop (columns : list string) (seen : gmap string Z)
    (new_cols : list string) : res (list string) :=
  match columns with
  | [] => mret new_cols
  | col :: columns =>
      match seen !! col with
      | None =>
          make_unique_loop columns (<[col := 0]> seen) (new_cols ++ [col])
      | Some n =>
          let count := n + 1 in
          let seen := <[col := count]> seen in
          suffix ← str_of_int count;
          make_unique_loop columns seen (new_cols ++ [col +:+ "__" +:+ suffix])
      end
  end.

Definition make_unique (columns : list string) : res (list string) :=
  make_unique_loop columns ∅ [].

(** How many of the labels [cols] are equal to [col]. *)
Definition occurrences (col : string) (cols : list string) : nat :=
  length (filter (λ c, c = col) cols).

(** What [seen] holds once the labels [done] went through the loop. *)
Definition seen_ok (done : list string) (seen : gmap string Z) : Prop :=
  ∀ c, seen !! c = match occurrences c done with
                   | O => None
                   | S k => Some (Z.of_nat k)
                   end.

(** The label that stands for [col] when [k] labels before it are equal to
    it. *)
Definition label_of (col : string) (k : nat) (l : string) : Prop :=
  match k with
  | O => l = col
  | S _ => ∃ s, str_of_int (Z.of_nat k) = Ok s ∧ l = col +:+ "__" +:+ s
  end.

(** ** Cell values *)

(** A naive [datetime.datetime]. *)
Record datetime : Set := {
  year : Z; month : Z; day : Z;
  hour : Z; minute : Z; second : Z; microsecond : Z
}.

(** [d.date()], as the triple that [==] compares. *)
Definition date (d : datetime) : Z * Z * Z := (year d, month d, day d).

(** [z] in decimal, padded with zeros to [w] digits. *)
Definition zero_pad (w : nat) (z : Z) : string :=
  let u := NilZero.string_of_uint (N.to_uint (Z.to_N z)) in
  text (replicate (w - String.length u) "0"%char) +:+ u.

(** [str(d)]: [YYYY-MM-DD HH:MM:SS], with [.ffffff] when there are
    microseconds. *)
Definition str_of_datetime (d : datetime) : string :=
  zero_pad 4 (year d) +:+ "-" +:+ zero_pad 2 (month d) +:+ "-"
    +:+ zero_pad 2 (day d) +:+ " " +:+ zero_pad 2 (hour d) +:+ ":"
    +:+ zero_pad 2 (minute d) +:+ ":" +:+ zero_pad 2 (second d)
    +:+ (if microsecond d =? 0 then "" else "." +:+ zero_pad 6 (microsecond d)).

(** What a cell of the data frame holds: [None], [NaT], a [bool], an [int],
    a [float] (NaN included), a [str] or a [datetime]. *)
Inductive cell : Type :=
| VNone
| VNaT
| VBool (b : bool)
| VInt (z : Z)
| VFloat (x : spec_float)
| VStr (s : string)
| VDatetime (d : datetime).

(** [pd.isna(v)] *)
Definition isna (v : cell) : bool :=
  match v with
  | VNone | VNaT => true
  | VFloat x => Float.is_nan x
  | _ => false
  end.

(** [float(v)] *)
Definition py_float (v : cell) : res spec_float :=
  match v with
  | VNone | VNaT | VDatetime _ => Raise TypeError
  | VBool b => Ok (if b then Float.one else Float.zero)
  | VInt z =>
      match Float.of_Z z with
      | S754_infinity _ => Raise OverflowError
      | x => Ok x
      end
  | VFloat x => Ok x
  | VStr s => of_option ValueError (FloatParse.parse s)
  end.

(** A data frame row is a series indexed by column label; the frame is the
    list of its rows. *)
Abbreviation series := (gmap string cell).
Abbreviation dataframe := (list (gmap string cell)).

(** [df.iloc[row]]: a negative position counts from the end. *)
Definition iloc (df : dataframe) (row : Z) : res series :=
  let n := Z.of_nat (length df) in
  if (0 <=? row) && (row <? n) then of_option IndexError (df !! Z.to_nat row)
  else if (- n <=? row) && (row <? 0)
       then of_option IndexError (df !! Z.to_nat (row + n))
       else Raise IndexError.

(** [series[label]] *)
Definition getitem (s : series) (label : string) : res cell :=
  of_option KeyError (s !! label).

(** One entry of [mismatches]. *)
Record mismatch : Type := {
  row : Z;
  left_column : string;
  right_column : string;
  left_value : cell;
  right_value : cell;
  reason : string
}.

(** ** The comparison engine *)

Section Engine.

(** [dateutil.parser.parse]: [None] when it raises. *)
Variable date_parse : string → option datetime.
(** [repr] of a float. *)
Variable float_repr : spec_float → string.

(** [str(v)] *)
Definition py_str (v : cell) : res string :=
  match v with
  | VNone => Ok "None"
  | VNaT => Ok "NaT"
  | VBool b => Ok (if b then "True" else "False")
  | VInt z => str_of_int z
  | VFloat x => Ok (float_repr x)
  | VStr s => Ok s
  | VDatetime d => Ok (str_of_datetime d)
  end.

(** [date_parse(str(v))] *)
Definition parse_date (v : cell) : res datetime :=
  s ← py_str v; of_option ParserError (date_parse s).

Definition detect_type (v : cell) : res (option string) :=
  if isna v then mret None
  else
    try_except (_ ← py_float v; mret (Some "number"))
      (try_except (_ ← parse_date v; mret (Some "date"))
         (mret (Some "string"))).

(** The last part of [compare], from [a, b = str(a).strip(), str(b).strip()]
    on. *)
Definition compare_strings (a b : cell) (fuzzy : spec_float)
  : res (bool * string) :=
  sa ← py_str a;
  sb ← py_str b;
  let a := strip sa in
  let b := strip sb in
  if decide (a = b) then mret (true, "string match")
  else
    ratio ← SequenceMatcher.ratio (chars (lower a)) (chars (lower b));
    mret (Float.ge ratio fuzzy, "string mismatch (" +:+ format_2f ratio +:+ ")").

(** The body of the numeric [try]. *)
Definition compare_numbers (a b : cell) (tol : spec_float)
  : res (bool * string) :=
  x ← py_float a;
  y ← py_float b;
  if Float.le (Float.abs (Float.sub x y)) tol then mret (true, "num ok")
  else mret (false, "num mismatch").

(** The body of the date [try]. *)
Definition compare_dates (a b : cell) : res (bool * string) :=
  da ← parse_date a;
  db ← parse_date b;
  if decide (date da = date db) then mret (true, "date ok")
  else mret (false, "date mismatch").

Definition compare (a b : cell) (tol fuzzy : spec_float)
  : res (bool * string) :=
  if isna a && isna b then mret (true, "empty")
  else if isna a then mret (false, "left empty")
  else if isna b then mret (false, "right empty")
  else
    ta ← detect_type a;
    tb ← detect_type b;
    if bool_decide (ta = Some "number" ∨ tb = Some "number") then
      try_except (compare_numbers a b tol) (mret (false, "num parse fail"))
    else if bool_decide (ta = Some "date" ∨ tb = Some "date") then
      try_except (compare_dates a b) (compare_strings a b fuzzy)
    else compare_strings a b fuzzy.

(** ** The validation loop *)

(** The body of [for (lc, rc) in mapping], run over the whole mapping. *)
Fixpoint check_pairs (df : dataframe) (tol fuzzy : spec_float) (r : Z)
    (mapping : list (string * string)) (mismatches : list mismatch)
  : res (list mismatch) :=
  match mapping with
  | [] => mret mismatches
  | (lc, rc) :: mapping =>
      left_val ← (s ← iloc df r; getitem s lc);
      right_val ← (s ← iloc df r; getitem s rc);
      verdict ← compare left_val right_val tol fuzzy;
      let '(ok, why) := verdict in
      check_pairs df tol fuzzy r mapping
        (if (ok : bool) then mismatches
         else mismatches ++ [{| row := r; left_column := lc;
                                right_column := rc; left_value := left_val;
                                right_value := right_val; reason := why |}])
  end.

(** [for row in ...] over the rows [rows]. *)
Fixpoint check_rows (df : dataframe) (tol fuzzy : spec_float)
    (mapping : list (string * string)) (rows : list Z)
    (mismatches : list mismatch) : res (list mismatch) :=
  match rows with
  | [] => mret mismatches
  | r :: rows =>
      mismatches ← check_pairs df tol fuzzy r mapping mismatches;
      check_rows df tol fuzzy mapping rows mismatches
  end.

(** [range(start, stop)] *)
Definition range (start stop : Z) : list Z := seqZ start (stop - start).

(** The [if run:] block: the list of mismatches and [total_checks]. *)
Definition validate (df : dataframe) (start_row end_row : Z)
    (mapping : list (string * string)) (num_tol fuzzy_tol : spec_float)
  : res (list mismatch * Z) :=
  mismatches ← check_rows df num_tol fuzzy_tol mapping
                 (range start_row (end_row + 1)) [];
  let total_checks := (end_row - start_row + 1) * Z.of_nat (length mapping) in
  mret (mismatches, total_checks).

End Engine.

(** ** The widgets' default tolerances *)

(** [0.01], the default numeric tolerance. *)
Definition default_num_tol : spec_float :=
  S754_finite false 5764607523034235 (-59).
(** [0.85], the default fuzzy threshold. *)
Definition default_fuzzy_tol : spec_float :=
  S754_finite false 7656119366529843 (-53).

(** [0.5], a threshold within the slider's range. *)
Definition fuzzy_half : spec_float :=
  S754_finite false 4503599627370496 (-53).

(** ** Preconditions of a run *)

(** [str(v)] stays within the digit limit: every cell read from a
    spreadsheet does, since its numbers are doubles. *)
Definition printable (v : cell) : Prop :=
  match v with
  | VInt z => Z.abs z < 10 ^ int_max_str_digits
  | _ => True
  end.

(** Every row of the range is a row of the frame, every column of the
    mapping is a column of that row, and the cells they name are
    printable. *)
Definition grid_ok (df : dataframe) (start_row end_row : Z)
    (mapping : list (string * string)) : Prop :=
  ∀ r lc rc, start_row ≤ r ≤ end_row → (lc, rc) ∈ mapping →
    ∃ s x y, iloc df r = Ok s ∧ s !! lc = Some x ∧ s !! rc = Some y
             ∧ printable x ∧ printable y.

(** What a mismatch record must be for a run over [start_row..end_row]: a
    row of the range, a pair of the mapping, the two cells at that place,
    and the reason [compare] gave when it rejected them. *)
Definition recorded_by (date_parse : string → option datetime)
    (float_repr : spec_float → string) (df : dataframe)
    (start_row end_row : Z) (mapping : list (string * string))
    (tol fuzzy : spec_float) (m : mismatch) : Prop :=
  start_row ≤ row m ≤ end_row
  ∧ (left_column m, right_column m) ∈ mapping
  ∧ (s ← iloc df (row m); getitem s (left_column m)) = Ok (left_value m)
  ∧ (s ← iloc df (row m); getitem s (right_column m)) = Ok (right_value m)
  ∧ compare date_parse float_repr (left_value m) (right_value m) tol fuzzy
    = Ok (false, reason m).

(** What one pass over the mapping adds to [mismatches], for row [r]: at
    most one record per pair, each one a sound record of that row, and one
    for every pair [compare] rejected. *)
Definition pass_ok (date_parse : string → option datetime)
    (float_repr : spec_float → string) (df : dataframe)
    (tol fuzzy : spec_float) (r : Z) (mapping : list (string * string))
    (new : list mismatch) : Prop :=
  (length new ≤ length mapping)%nat
  ∧ Forall (λ m, row m = r
                 ∧ recorded_by date_parse float_repr df r r mapping tol fuzzy m)
      new
  ∧ ∀ lc rc, (lc, rc) ∈ mapping →
      ∃ x y ok why,
        (s ← iloc df r; getitem s lc) = Ok x
        ∧ (s ← iloc df r; getitem s rc) = Ok y
        ∧ compare date_parse float_repr x y tol fuzzy = Ok (ok, why)
        ∧ (ok = false →
           {| row := r; left_column := lc; right_column := rc;
              left_value := x; right_value := y; reason := why |} ∈ new).

(** The places a run visits, in the order of its two loops, and the place a
    record was made at. *)
Definition grid (start_row end_row : Z) (mapping : list (string * string))
  : list (Z * string * string) :=
  r ← range start_row (end_row + 1); p ← mapping; [(r, p.1, p.2)].

Definition place (m : mismatch) : Z * string * string :=
  (row m, left_column m, right_column m).

(** ** Sample runtime, for running the engine on concrete inputs

    [sample_date_parse] reads the two numeric layouts [YYYY-MM-DD] and
    [MM/DD/YYYY] (year 1000 to 9999, month 1 to 12, day 1 to 28), where
    [dateutil] yields that calendar date at midnight, and refuses every
    other text. It stands for [dateutil.parser.parse] on inputs where the
    two agree. *)

Definition number_of (ds : list ascii) : option Z :=
  if forallb isdigit ds
  then Some (Z.of_N (FloatParse.digits 0 0 ds).1.1) else None.

Definition midnight (y m d : Z) : option datetime :=
  if (1000 <=? y) && (1 <=? m) && (m <=? 12) && (1 <=? d) && (d <=? 28)
  then Some {| year := y; month := m; day := d;
               hour := 0; minute := 0; second := 0; microsecond := 0 |}
  else None.

Definition sample_date_parse (s : string) : option datetime :=
  match chars s with
  | [y1; y2; y3; y4; "-"; m1; m2; "-"; d1; d2]%char =>
      y ← number_of [y1; y2; y3; y4]; m ← number_of [m1; m2];
      d ← number_of [d1; d2]; midnight y m d
  | [m1; m2; "/"; d1; d2; "/"; y1; y2; y3; y4]%char =>
      y ← number_of [y1; y2; y3; y4]; m ← number_of [m1; m2];
      d ← number_of [d1; d2]; midnight y m d
  | _ => None
  end.

(** [compare] never renders a float (see [compare_float_repr]); any function
    can stand for [repr]. *)
Definition sample_float_repr (x : spec_float) : string := format_2f x.

(** The table of the end-to-end scenario: a left and a right column, and
    one row each for a number, a date and a name. [10.005] is the double
    nearest to it. *)
Definition float_10_005 : spec_float :=
  S754_finite false 5632314283980227 (-49).

Definition sample_table : dataframe :=
  [ {[ "left" := VInt 10; "right" := VFloat float_10_005 ]};
    {[ "left" := VStr "2024-01-05"; "right" := VStr "01/05/2024" ]};
    {[ "left" := VStr "Bob"; "right" := VStr "Bobby" ]} ].

Definition sample_mapping : list (string * string) := [("left", "right")].
(** * Properties *)

(** ** The result monad *)

Lemma bind_Ok {A B} (m : res A) (f : A → res B) (b : B) :
  m ≫= f = Ok b ↔ ∃ a, m = Ok a ∧ f a = Ok b.
Proof.
  destruct m; simpl; split; try (intros (? & ? & ?)); try intro; try discriminate.
  - eauto.
  - congruence.
Qed.

Lemma try_except_Ok {A} (body handler : res A) (a : A) :
  body = Ok a → try_except body handler = Ok a.
Proof. by intros ->. Qed.

(** ** [float(s)] on digit strings *)

Ltac each_char c := destruct c as [[] [] [] [] [] [] [] []].

Lemma isdigit_not_space (c : ascii) :
  isdigit c = true → FloatParse.float_space c = false.
Proof. each_char c; vm_compute; congruence. Qed.

Lemma isdigit_not_underscore (c : ascii) : isdigit c = true → c ≠ "_"%char.
Proof. intros Hc ->. discriminate Hc. Qed.

Lemma isdigit_sign (c : ascii) (s : list ascii) :
  isdigit c = true → FloatParse.sign (c :: s) = (false, c :: s).
Proof. each_char c; vm_compute; congruence. Qed.

Lemma digits_all (s : list ascii) (acc : N) (n : nat) :
  Forall (λ c, isdigit c = true) s →
  ∃ v, FloatParse.digits acc n s = (v, (n + length s)%nat, []).
Proof.
  intros Hs. revert acc n. induction Hs as [|c s Hc _ IH]; intros acc n; simpl.
  - exists acc. by rewrite Nat.add_0_r.
  - rewrite Hc. destruct (IH (10 * acc + digit_value c)%N (S n)) as [v ->].
    exists v. do 2 f_equal. lia.
Qed.

Lemma lstrip_space_digits (s : list ascii) :
  Forall (λ c, isdigit c = true) s → FloatParse.lstrip_space s = s.
Proof.
  destruct 1 as [|c s Hc _]; [done|]. simpl.
  by rewrite (isdigit_not_space c Hc).
Qed.

(** A non-empty string of decimal digits is a float literal. *)
Lemma parse_digits (s : string) :
  s ≠ "" → Forall (λ c, isdigit c = true) (chars s) →
  is_Some (FloatParse.parse s).
Proof.
  intros Hne Hs. unfold FloatParse.parse.
  assert (Hl : chars s ≠ []) by (destruct s; [done | discriminate]).
  rewrite decide_False; last first.
  { intros Hin. rewrite Forall_forall in Hs. by apply Hs in Hin. }
  simpl. rewrite (lstrip_space_digits _ Hs).
  rewrite lstrip_space_digits by (by apply Forall_rev).
  rewrite rev_involutive.
  destruct (chars s) as [|c l] eqn:El; [done|].
  rewrite isdigit_sign by (by inversion Hs).
  unfold FloatParse.decimal.
  destruct (digits_all (c :: l) 0 0 Hs) as [v ->]. simpl. eauto.
Qed.


(** ** [SequenceMatcher]: the index [b2j] *)

(** Rewrites the two positions of a goal [a !! x = b !! y] to [u] and [v]. *)
Ltac at_positions u v :=
  match goal with
  | |- _ !! ?x = _ !! ?y => replace x with u by lia; replace y with v by lia
  end.

Section MatcherFacts.
Import SequenceMatcher.
Context {A : Type} `{Countable A}.
Local Open Scope nat_scope.

Lemma elem_of_positions (x : A) (l : list A) (i j : nat) :
  j ∈ positions x i l ↔ i ≤ j ∧ l !! (j - i) = Some x.
Proof.
  revert i. induction l as [|y l IH]; intros i; simpl.
  - rewrite elem_of_nil. naive_solver.
  - case_decide as Hy; [rewrite elem_of_cons|]; rewrite IH.
    + split.
      * intros [-> | [Hle Hl]]; [by rewrite Nat.sub_diag; subst|].
        split; [lia|]. by replace (j - i) with (S (j - S i)) by lia.
      * intros [Hle Hl]. destruct (decide (j = i)) as [|Hne]; [by left|right].
        split; [lia|]. by replace (j - i) with (S (j - S i)) in Hl by lia.
    + split.
      * intros [Hle Hl]. split; [lia|].
        by replace (j - i) with (S (j - S i)) by lia.
      * intros [Hle Hl]. destruct (decide (j = i)) as [->|Hne].
        { rewrite Nat.sub_diag in Hl. naive_solver. }
        split; [lia|]. by replace (j - i) with (S (j - S i)) in Hl by lia.
Qed.

Lemma positions_sorted (x : A) (l : list A) (i : nat) :
  StronglySorted lt (positions x i l).
Proof.
  revert i. induction l as [|y l IH]; intros i; simpl; [constructor|].
  case_decide; [|done]. constructor; [done|].
  apply Forall_forall. intros j Hj%elem_of_positions. lia.
Qed.

Lemma positions_nil (x : A) (l : list A) (i : nat) :
  x ∉ l → positions x i l = [].
Proof.
  revert i. induction l as [|y l IH]; intros i Hx; simpl; [done|].
  rewrite decide_False by set_solver. apply IH. set_solver.
Qed.

Lemma chain_lookup (l : list A) (i : nat) (b2j : gmap A (list nat)) (x : A) :
  chain i l b2j !! x =
    if decide (x ∈ l)
    then Some (default [] (b2j !! x) ++ positions x i l)
    else b2j !! x.
Proof.
  revert i b2j. induction l as [|y l IH]; intros i b2j; cbn [chain positions].
  - case_decide; [set_solver | done].
  - rewrite IH. destruct (decide (y = x)) as [->|Hne].
    + rewrite lookup_insert_eq. cbn [default].
      destruct (decide (x ∈ x :: l)) as [_|]; [|set_solver].
      case_decide as Hx.
      * simpl. by rewrite <- app_assoc.
      * by rewrite positions_nil.
    + rewrite lookup_insert_ne by done.
      destruct (decide (x ∈ l)) as [Hx|Hx];
        destruct (decide (x ∈ y :: l)); try done; set_solver.
Qed.

(** An entry of [b2j] lists all the positions of its key, in order. *)
Lemma chain_b_lookup (b : list A) (x : A) (js : list nat) :
  chain_b b !! x = Some js → js = positions x 0 b.
Proof.
  unfold chain_b, purge_popular. intros Hjs.
  assert (chain 0 b ∅ !! x = Some js) as Hc.
  { case_bool_decide; [|done].
    by apply map_lookup_filter_Some in Hjs as [? _]. }
  rewrite chain_lookup, lookup_empty in Hc. by case_decide; simplify_eq.
Qed.

Lemma chain_b_sound (b : list A) (x : A) (js : list nat) (j : nat) :
  chain_b b !! x = Some js → j ∈ js → b !! j = Some x.
Proof.
  intros ->%chain_b_lookup [_ Hj]%elem_of_positions.
  by rewrite Nat.sub_0_r in Hj.
Qed.

(** ** [find_longest_match] returns a match inside its window *)

Section Window.
Variables (a b : list A) (b2j : gmap A (list nat)).
Variables (alo ahi blo bhi : nat).
Hypothesis b2j_sound :
  ∀ x js j, b2j !! x = Some js → j ∈ js → b !! j = Some x.
Hypothesis a_window : alo ≤ ahi.
Hypothesis b_window : blo ≤ bhi.

Lemma new_run (i j : nat) (j2len : gmap nat nat) :
  alo ≤ i → i < ahi → blo ≤ j → j < bhi → a !! i = b !! j →
  runs_ok a b alo ahi blo bhi i j2len →
  let k := j2lenget_pred j2len j + 1 in
  k ≤ i + 1 ∧ k ≤ j + 1 ∧ is_match a b alo ahi blo bhi (i + 1 - k, j + 1 - k, k).
Proof.
  intros Hi1 Hi2 Hj1 Hj2 Hij Hruns. simpl.
  assert (j2lenget_pred j2len j = 0
          ∨ ∃ j' v, j = S j' ∧ j2len !! j' = Some v
                    ∧ j2lenget_pred j2len j = v) as [-> | (j' & v & -> & Hv & ->)].
  { destruct j as [|j']; [by left|]. simpl.
    destruct (j2len !! j') as [v|] eqn:Hv; [|by left].
    right. by exists j', v. }
  - simpl. repeat split; try lia.
    intros t Ht. by at_positions i j.
  - destruct (Hruns _ _ Hv) as (Hv1 & Hv2 & Hv3 & Ha & Hb & Hc & Hd & He).
    repeat split; try lia.
    intros t Ht. destruct (decide (t = v)) as [->|Hne].
    + by at_positions i (S j').
    + at_positions (i - v + t) (j' + 1 - v + t). apply He. lia.
Qed.

Lemma scan_js_ok (i : nat) (j2len : gmap nat nat) (js : list nat)
    (newj2len : gmap nat nat) (best : block) :
  alo ≤ i → i < ahi → (∀ j, j ∈ js → a !! i = b !! j) →
  runs_ok a b alo ahi blo bhi i j2len → runs_ok a b alo ahi blo bhi (S i) newj2len → is_match a b alo ahi blo bhi best →
  runs_ok a b alo ahi blo bhi (S i) (scan_js blo bhi i j2len js newj2len best).1
  ∧ is_match a b alo ahi blo bhi (scan_js blo bhi i j2len js newj2len best).2.
Proof.
  intros Hi1 Hi2 Hjs Hruns. revert newj2len best.
  induction js as [|j js IH]; intros newj2len best Hnew Hbest; simpl; [done|].
  assert (∀ j', j' ∈ js → a !! i = b !! j') as Hjs' by set_solver.
  case_bool_decide as Hlo; [by apply IH|].
  case_bool_decide as Hhi; [done|].
  destruct (new_run i j j2len) as (Hk1 & Hk2 & Hk); try done; try lia.
  { apply Hjs. set_solver. }
  apply IH; [done| |by case_bool_decide].
  intros j' v. destruct (decide (j' = j)) as [->|Hne].
  - rewrite lookup_insert_eq. intros [= <-].
    replace (S i) with (i + 1) by lia. by repeat (split; [lia|]).
  - rewrite lookup_insert_ne by done. apply Hnew.
Qed.

Lemma scan_is_ok (n i : nat) (j2len : gmap nat nat) (best : block) :
  alo ≤ i → i + n ≤ ahi → runs_ok a b alo ahi blo bhi i j2len → is_match a b alo ahi blo bhi best →
  is_match a b alo ahi blo bhi (scan_is a b2j blo bhi i n j2len best).
Proof.
  revert i j2len best.
  induction n as [|n IH]; intros i j2len best Hi1 Hi2 Hruns Hbest; simpl;
    [done|].
  set (js := default [] (a !! i ≫= λ x, b2j !! x)).
  assert (∀ j, j ∈ js → a !! i = b !! j) as Hjs.
  { intros j. unfold js. destruct (a !! i) as [x|]; simpl; [|set_solver].
    destruct (b2j !! x) as [l|] eqn:Hx; simpl; [|set_solver].
    intros Hj. symmetry. by eapply b2j_sound. }
  destruct (scan_js_ok i j2len js ∅ best) as [Hnew Hbest']; try done; try lia.
  destruct (scan_js blo bhi i j2len js ∅ best) as [newj2len best'].
  apply IH; try done; lia.
Qed.

Lemma extend_left_ok (want : A → bool) (besti bestj bestsize : nat) :
  is_match a b alo ahi blo bhi (besti, bestj, bestsize) →
  is_match a b alo ahi blo bhi (extend_left a b alo blo want besti bestj bestsize).
Proof.
  revert bestj bestsize.
  induction besti as [|i IH]; intros bestj bestsize Hm; simpl; [done|].
  destruct bestj as [|j]; [done|].
  destruct (_ && _) eqn:Hc; [|done].
  apply andb_prop in Hc as [[[Hi Hj]%bool_decide_eq_true _]%andb_prop
                             Heq%bool_decide_eq_true].
  apply IH. destruct Hm as (? & ? & ? & ? & Hm).
  repeat split; try lia.
  intros [|t] Ht; [by rewrite !Nat.add_0_r|].
  at_positions (S i + t) (S j + t). apply Hm. lia.
Qed.

Lemma extend_right_ok (want : A → bool) (n besti bestj bestsize : nat) :
  is_match a b alo ahi blo bhi (besti, bestj, bestsize) →
  is_match a b alo ahi blo bhi (extend_right a b ahi bhi want n besti bestj bestsize).
Proof.
  revert bestsize.
  induction n as [|n IH]; intros bestsize Hm; simpl; [done|].
  destruct (_ && _) eqn:Hc; [|done].
  apply andb_prop in Hc as [[[Hi Hj]%bool_decide_eq_true _]%andb_prop
                             Heq%bool_decide_eq_true].
  apply IH. destruct Hm as (? & ? & ? & ? & Hm).
  repeat split; try lia.
  intros t Ht. destruct (decide (t = bestsize)) as [->|]; [done|].
  apply Hm. lia.
Qed.

Lemma find_longest_match_ok :
  is_match a b alo ahi blo bhi (find_longest_match a b b2j alo ahi blo bhi).
Proof.
  unfold find_longest_match.
  pose proof (scan_is_ok (ahi - alo) alo ∅ (alo, blo, 0)) as H0.
  destruct (scan_is _ _ _ _ _ _ _ _) as [[i0 j0] k0].
  pose proof (extend_left_ok (λ x, negb (isbjunk x)) i0 j0 k0) as H1.
  destruct (extend_left _ _ _ _ _ _ _ _) as [[i1 j1] k1].
  pose proof (extend_right_ok (λ x, negb (isbjunk x))
                (ahi - (i1 + k1)) i1 j1 k1) as H2.
  destruct (extend_right _ _ _ _ _ _ _ _ _) as [[i2 j2] k2].
  pose proof (extend_left_ok isbjunk i2 j2 k2) as H3.
  destruct (extend_left _ _ _ _ _ _ _ _) as [[i3 j3] k3].
  apply extend_right_ok, H3, H2, H1, H0; try done; try lia.
  repeat split; lia.
Qed.

End Window.

(** ** [get_matching_blocks] terminates, and what its blocks add up to *)

Section Blocks.
Variables (a b : list A) (b2j : gmap A (list nat)).
Hypothesis b2j_sound :
  ∀ x js j, b2j !! x = Some js → j ∈ js → b !! j = Some x.

Lemma covers_zero (w : nat * nat * nat * nat) : covers a b w 0.
Proof. destruct w as [[[alo ahi] blo] bhi]. repeat split; lia. Qed.

Lemma covers_split (alo ahi blo bhi i j k ml mr : nat) :
  is_match a b alo ahi blo bhi (i, j, k) →
  covers a b (alo, i, blo, j) ml → covers a b (i + k, ahi, j + k, bhi) mr →
  covers a b (alo, ahi, blo, bhi) (k + ml + mr).
Proof.
  intros (? & ? & ? & ? & Hk) (? & ? & Hl) (? & ? & Hr).
  repeat split; try lia. intros Ha Hb t Ht.
  destruct (decide (t < ml)); [apply Hl; lia|].
  destruct (decide (t < ml + k)).
  - at_positions (i + (t - ml)) (j + (t - ml)). apply Hk. lia.
  - at_positions (i + k + (t - ml - k)) (j + k + (t - ml - k)).
    apply Hr; lia.
Qed.

Lemma blocks_loop_ok (fuel : nat) (queue : list (nat * nat * nat * nat))
    (acc : list block) :
  Forall window_ok queue → sum_list_with cost queue ≤ fuel →
  ∃ blocks ms,
    blocks_loop a b b2j fuel queue acc = Some (acc ++ blocks)
    ∧ Forall2 (covers a b) queue ms
    ∧ sum_list_with size blocks = sum_list ms.
Proof.
  revert queue acc.
  induction fuel as [|fuel IH]; intros queue acc Hq Hfuel;
    destruct queue as [|[[[alo ahi] blo] bhi] queue]; simpl in *.
  - exists [], []. by rewrite app_nil_r.
  - lia.
  - exists [], []. by rewrite app_nil_r.
  - apply Forall_cons in Hq as [[Ha Hb] Hq].
    pose proof (find_longest_match_ok a b b2j alo ahi blo bhi
                  b2j_sound Ha Hb) as Hm.
    destruct (find_longest_match a b b2j alo ahi blo bhi) as [[i j] k].
    destruct k as [|k].
    { destruct (IH queue acc) as (blocks & ms & -> & Hms & Hsum);
        [done|lia|].
      exists blocks, (0 :: ms).
      split; [done|]. split; [|done]. constructor; [|done].
      apply (covers_zero (alo, ahi, blo, bhi)). }
    destruct Hm as (Hi1 & Hi2 & Hj1 & Hj2 & Hk).
    assert (is_match a b alo ahi blo bhi (i, j, S k)) as Hm by done.
    set (left := bool_decide (alo < i ∧ blo < j)).
    set (right := bool_decide (i + S k < ahi ∧ j + S k < bhi)).
    set (q1 := if left then (alo, i, blo, j) :: queue else queue).
    set (q2 := if right then (i + S k, ahi, j + S k, bhi) :: q1 else q1).
    destruct (IH q2 (acc ++ [(i, j, S k)])) as (blocks & ms & -> & Hms & Hsum).
    { unfold q2, q1. destruct left, right;
        repeat (apply Forall_cons; split); simpl; try done; lia. }
    { unfold q2, q1. destruct left, right; simpl; lia. }
    assert (∃ ml mr ms', covers a b (alo, i, blo, j) ml
              ∧ covers a b (i + S k, ahi, j + S k, bhi) mr
              ∧ Forall2 (covers a b) queue ms'
              ∧ sum_list ms = ml + mr + sum_list ms')
      as (ml & mr & ms' & Hl & Hr & Hms' & Hsum').
    { pose proof (covers_zero (alo, i, blo, j)).
      pose proof (covers_zero (i + S k, ahi, j + S k, bhi)).
      unfold q2, q1 in Hms. destruct left, right.
      - apply Forall2_cons_inv_l in Hms as (mr & ms1 & Hr & Hms & ->).
        apply Forall2_cons_inv_l in Hms as (ml & ms' & Hl & Hms & ->).
        exists ml, mr, ms'. split_and!; try done. simpl. lia.
      - apply Forall2_cons_inv_l in Hms as (ml & ms' & Hl & Hms & ->).
        exists ml, 0, ms'. split_and!; try done. simpl. lia.
      - apply Forall2_cons_inv_l in Hms as (mr & ms' & Hr & Hms & ->).
        exists 0, mr, ms'. split_and!; try done.
      - exists 0, 0, ms. split_and!; try done. }
    exists ((i, j, S k) :: blocks), (S k + ml + mr :: ms').
    split; [by rewrite <- app_assoc|]. split.
    + constructor; [|done].
      by apply (covers_split alo ahi blo bhi i j (S k) ml mr).
    + change (sum_list_with size ((i, j, S k) :: blocks))
        with (S k + sum_list_with size blocks).
      rewrite Hsum, Hsum'. simpl. lia.
Qed.

End Blocks.

Lemma collapse_sum (blocks : list block) (i1 j1 k1 : nat) :
  sum_list_with size (collapse i1 j1 k1 blocks)
  = k1 + sum_list_with size blocks.
Proof.
  revert i1 j1 k1.
  induction blocks as [|[[i2 j2] k2] blocks IH]; intros i1 j1 k1; simpl.
  - destruct k1; simpl; unfold size; simpl; lia.
  - case_bool_decide; [rewrite IH; unfold size; simpl; lia|].
    destruct k1; simpl; rewrite IH; unfold size; simpl; lia.
Qed.

(** [matches] always returns; the count it returns is at most the length of
    either sequence, and reaches both lengths only for equal sequences. *)
Lemma matches_ok (a b : list A) :
  ∃ m, matches a b = Some m ∧ m ≤ length a ∧ m ≤ length b
       ∧ (m = length a → m = length b → a = b).
Proof.
  unfold matches, get_matching_blocks.
  destruct (blocks_loop_ok a b (chain_b b) (chain_b_sound b)
              (2 * length a + 1) [(0, length a, 0, length b)] [])
    as (blocks & ms & -> & Hms & Hsum).
  { repeat constructor; lia. }
  { simpl. lia. }
  apply Forall2_cons_inv_l in Hms as (m & ms' & (Hma & Hmb & Heq) & Hms & ->).
  apply Forall2_nil_inv_l in Hms as ->.
  exists m. simpl.
  rewrite sum_list_with_app, collapse_sum, merge_sort_Permutation. simpl.
  simpl in Hsum. split; [f_equal; lia|].
  repeat split; try lia.
  intros Hla Hlb. apply list_eq. intros t.
  destruct (decide (t < m)) as [Ht|Ht]; [by apply (Heq ltac:(lia) ltac:(lia) t)|].
  rewrite !lookup_ge_None_2; [done|lia..].
Qed.

Lemma ratio_Ok (a b : list A) : ∃ r, ratio a b = Ok r.
Proof.
  unfold ratio. destruct (matches_ok a b) as (m & -> & _). eauto.
Qed.

(** ** A sequence matched against itself *)

Section Diagonal.
Variable s : list A.

Lemma run_miss (i j : nat) : hit s i j = false → run s i j = 0.
Proof. intros Hh. destruct i; simpl; by rewrite Hh. Qed.

Lemma hit_diag (i j : nat) :
  hit s i j = true → hit s i i = true ∧ hit s j j = true.
Proof.
  unfold hit. destruct (s !! i) as [x|] eqn:Hi; [|done].
  intros [Hj%bool_decide_eq_true Hx]%andb_prop.
  rewrite Hj, Hx, !bool_decide_true by done. done.
Qed.

(** No run is longer than the runs of the diagonal through its row and
    its column. *)
Lemma run_diag (i j : nat) : run s i j ≤ run s i i ∧ run s i j ≤ run s j j.
Proof.
  revert j. induction i as [|i IH]; intros j.
  - simpl. destruct (hit s 0 j) eqn:Hh; [|lia].
    destruct (hit_diag _ _ Hh) as [-> Hj].
    destruct j; simpl; rewrite Hj; lia.
  - simpl. destruct (hit s (S i) j) eqn:Hh; [|lia].
    destruct (hit_diag _ _ Hh) as [-> Hj].
    destruct j as [|j]; simpl; rewrite Hj; [lia|].
    destruct (IH j). lia.
Qed.

(** The candidates of row [i]: the columns that hit, in increasing order. *)
Lemma row_candidates (i : nat) :
  let js := default [] (s !! i ≫= λ x, chain_b s !! x) in
  StronglySorted lt js ∧ ∀ j, j ∈ js ↔ hit s i j = true.
Proof.
  simpl. unfold hit. destruct (s !! i) as [x|]; simpl;
    [|split; [constructor | set_solver]].
  destruct (chain_b s !! x) as [js|] eqn:Hx; simpl.
  - apply chain_b_lookup in Hx as ->. split; [apply positions_sorted|].
    intros j. rewrite elem_of_positions, Nat.sub_0_r.
    rewrite andb_true_iff, !bool_decide_eq_true. naive_solver lia.
  - split; [constructor|]. intros j. rewrite andb_false_r. set_solver.
Qed.

Lemma run_eq (i j : nat) (j2len : gmap nat nat) :
  (∀ j', default 0 (j2len !! j') = prev_run s i j') → hit s i j = true →
  j2lenget_pred j2len j + 1 = run s i j.
Proof.
  intros Hj2len Hh. destruct i as [|i], j as [|j]; simpl; rewrite Hh;
    try rewrite Hj2len; simpl; lia.
Qed.

Lemma run_le (i j : nat) : run s i j ≤ i + 1.
Proof.
  revert j. induction i as [|i IH]; intros j; simpl;
    destruct (hit s _ j); try lia.
  destruct j as [|j]; [lia|]. specialize (IH j). lia.
Qed.

(** The inner loop keeps the best match on the diagonal. *)
Lemma scan_js_diag (i : nat) (j2len : gmap nat nat) (js : list nat)
    (newj2len : gmap nat nat) (d sz : nat) :
  (∀ j', default 0 (j2len !! j') = prev_run s i j') →
  StronglySorted lt js →
  (∀ j, j ∈ js → hit s i j = true ∧ j < length s) →
  (∀ j, hit s i j = true → j ∉ js →
     newj2len !! j = Some (run s i j) ∧ run s i j ≤ sz) →
  (∀ j, hit s i j = false ∨ j ∈ js → newj2len !! j = None) →
  (∀ i' j, i' < i → run s i' j ≤ sz) →
  ∃ newj2len' d' sz',
    scan_js 0 (length s) i j2len js newj2len (d, d, sz)
      = (newj2len', (d', d', sz'))
    ∧ (∀ j, default 0 (newj2len' !! j) = run s i j)
    ∧ (∀ i' j, i' < S i → run s i' j ≤ sz').
Proof.
  intros Hj2len. revert newj2len d sz.
  induction js as [|j js IH]; intros newj2len d sz Hsorted Hjs Hdone Hrest Hrows.
  - exists newj2len, d, sz. simpl. split; [done|]. split.
    + intros j. destruct (hit s i j) eqn:Hh.
      * destruct (Hdone j Hh) as [-> _]; [set_solver|done].
      * rewrite Hrest by auto. by rewrite run_miss.
    + intros i' j Hi'. destruct (decide (i' = i)) as [->|]; [|apply Hrows; lia].
      destruct (hit s i j) eqn:Hh; [|rewrite run_miss by done; lia].
      apply Hdone; [done|set_solver].
  - apply StronglySorted_inv in Hsorted as [Hsorted Hlt].
    rewrite Forall_forall in Hlt.
    destruct (Hjs j) as [Hh Hj]; [set_solver|].
    simpl. rewrite bool_decide_false by lia.
    rewrite (run_eq i j j2len Hj2len Hh).
    assert (sz < run s i j → i = j) as Hdiag.
    { intros Hsz. destruct (run_diag i j) as [Hi' Hj'].
      destruct (hit_diag _ _ Hh) as [Hii Hjj].
      destruct (lt_eq_lt_dec i j) as [[Hij| ->]|Hij]; [|done|].
      - destruct (Hdone i Hii) as [_ Hle]; [|lia].
        intros [->|Hin]%elem_of_cons; [lia|]. apply Hlt in Hin. lia.
      - specialize (Hrows j j Hij). lia. }
    assert (∀ sz', sz ≤ sz' → run s i j ≤ sz' →
              (∀ j', hit s i j' = true → j' ∉ js →
                 <[j:=run s i j]> newj2len !! j' = Some (run s i j')
                 ∧ run s i j' ≤ sz')
              ∧ (∀ j', hit s i j' = false ∨ j' ∈ js →
                   <[j:=run s i j]> newj2len !! j' = None)
              ∧ (∀ i' j', i' < i → run s i' j' ≤ sz')) as Hside.
    { intros sz' Hsz Hk. split_and!.
      - intros j' Hh' Hj'. destruct (decide (j' = j)) as [->|Hne].
        + by rewrite lookup_insert_eq.
        + rewrite lookup_insert_ne by done.
          destruct (Hdone j' Hh') as [-> ?]; [set_solver|]. split; [done|lia].
      - intros j' Hj'. rewrite lookup_insert_ne.
        + apply Hrest. set_solver.
        + intros <-. destruct Hj' as [Hj'|Hj']; [congruence|].
          apply Hlt in Hj'. lia.
      - intros i' j' Hi'. specialize (Hrows i' j' Hi'). lia. }
    assert (∀ j', j' ∈ js → hit s i j' = true ∧ j' < length s) as Hjs'
      by set_solver.
    destruct (bool_decide (sz < run s i j)) eqn:Hc.
    + apply bool_decide_eq_true in Hc. pose proof (Hdiag Hc) as ->.
      destruct (Hside (run s j j)) as (? & ? & ?); [lia..|]. by apply IH.
    + apply bool_decide_eq_false in Hc.
      destruct (Hside sz) as (? & ? & ?); [lia..|]. by apply IH.
Qed.

(** So does the outer loop. *)
Lemma scan_is_diag (n i : nat) (j2len : gmap nat nat) (d sz : nat) :
  i + n = length s →
  (∀ j', default 0 (j2len !! j') = prev_run s i j') →
  (∀ i' j, i' < i → run s i' j ≤ sz) →
  ∃ d' sz', scan_is s (chain_b s) 0 (length s) i n j2len (d, d, sz)
            = (d', d', sz').
Proof.
  revert i j2len d sz.
  induction n as [|n IH]; intros i j2len d sz Hn Hj2len Hrows; simpl; [eauto|].
  destruct (row_candidates i) as [Hsorted Hjs].
  destruct (scan_js_diag i j2len _ ∅ d sz Hj2len Hsorted)
    as (newj2len & d' & sz' & -> & Hnew & Hrows'); try done.
  - intros j Hj%Hjs. split; [done|]. unfold hit in Hj.
    destruct (s !! i) as [x|]; [|done].
    apply andb_prop in Hj as [Hj%bool_decide_eq_true _].
    by apply lookup_lt_Some in Hj.
  - intros j Hh Hj. by apply Hjs in Hh.
  - apply IH; [lia|done|done].
Qed.

Lemma extend_left_diag (want : A → bool) (d sz : nat) :
  (∀ x, want x = true) → d ≤ length s →
  extend_left s s 0 0 want d d sz = (0, 0, d + sz).
Proof.
  intros Hwant. revert sz.
  induction d as [|d IH]; intros sz Hd; simpl; [done|].
  destruct (lookup_lt_is_Some_2 s d) as [x Hx]; [lia|].
  rewrite Hx. simpl. rewrite Hwant.
  repeat case_bool_decide; simpl; try done; try lia.
  rewrite IH by lia. f_equal. lia.
Qed.

Lemma extend_right_diag (want : A → bool) (n sz : nat) :
  (∀ x, want x = true) → sz + n = length s →
  extend_right s s (length s) (length s) want n 0 0 sz = (0, 0, length s).
Proof.
  intros Hwant. revert sz.
  induction n as [|n IH]; intros sz Hn; simpl.
  - f_equal. lia.
  - destruct (lookup_lt_is_Some_2 s sz) as [x Hx]; [lia|].
    rewrite Hx. simpl. rewrite Hwant.
    repeat case_bool_decide; simpl; try done; try lia.
    apply IH. lia.
Qed.

(** The longest match of a sequence with itself is the whole sequence. *)
Lemma find_longest_match_diag :
  find_longest_match s s (chain_b s) 0 (length s) 0 (length s)
  = (0, 0, length s).
Proof.
  unfold find_longest_match.
  assert (is_match s s 0 (length s) 0 (length s)
            (scan_is s (chain_b s) 0 (length s) 0 (length s - 0) ∅ (0, 0, 0)))
    as Hm.
  { apply scan_is_ok; try lia.
    - apply chain_b_sound.
    - intros j v. by rewrite lookup_empty.
    - repeat split; lia. }
  destruct (scan_is_diag (length s - 0) 0 ∅ 0 0) as (d & sz & Hscan);
    [lia|done|lia|].
  rewrite Hscan in Hm |- *. destruct Hm as (_ & Hd & _).
  rewrite extend_left_diag; [|done|lia].
  rewrite extend_right_diag; [|done|lia].
  simpl. by replace (length s - length s) with 0 by lia.
Qed.

Lemma matches_diag : matches s s = Some (length s).
Proof.
  unfold matches, get_matching_blocks.
  replace (2 * length s + 1) with (S (2 * length s)) by lia. simpl.
  rewrite find_longest_match_diag.
  destruct (length s) as [|n] eqn:Hn; simpl.
  - done.
  - rewrite !bool_decide_false by lia. simpl. f_equal. lia.
Qed.

End Diagonal.

End MatcherFacts.

(** ** Binary64 arithmetic on small integers *)

Section FloatFacts.
Local Open Scope Z_scope.

Lemma digits2_pos_bounds (p : positive) :
  2 ^ (Zpos (digits2_pos p) - 1) ≤ Zpos p < 2 ^ Zpos (digits2_pos p).
Proof.
  assert (∀ d, 0 < d → 2 ^ Z.succ d = 2 * 2 ^ d
                      ∧ 2 ^ (Z.succ d - 1) = 2 * 2 ^ (d - 1)) as Hpow.
  { intros d Hd. split; [apply Z.pow_succ_r; lia|].
    replace (Z.succ d - 1) with (Z.succ (d - 1)) by lia.
    apply Z.pow_succ_r. lia. }
  induction p as [p IH|p IH|]; simpl digits2_pos.
  - rewrite Pos2Z.inj_succ, (Pos2Z.inj_xI p).
    destruct (Hpow (Zpos (digits2_pos p))) as [-> ->]; lia.
  - rewrite Pos2Z.inj_succ, (Pos2Z.inj_xO p).
    destruct (Hpow (Zpos (digits2_pos p))) as [-> ->]; lia.
  - simpl. lia.
Qed.

(** The number of binary digits of [z] is fixed by the powers of two around
    it. *)
Lemma Zdigits2_unique (z d : Z) :
  2 ^ (d - 1) ≤ z < 2 ^ d → 0 < d → Zdigits2 z = d.
Proof.
  intros [Hlo Hhi] Hd.
  assert (0 < z) as Hz by (pose proof (Z.pow_pos_nonneg 2 (d - 1)); lia).
  destruct z as [|p|p]; try lia. simpl.
  pose proof (digits2_pos_bounds p) as [Hlo' Hhi'].
  destruct (Z.lt_trichotomy (Zpos (digits2_pos p)) d) as [Hlt|[Heq|Hgt]];
    [|done|].
  - pose proof (Z.pow_le_mono_r 2 (Zpos (digits2_pos p)) (d - 1)). lia.
  - pose proof (Z.pow_le_mono_r 2 d (Zpos (digits2_pos p) - 1)). lia.
Qed.

Lemma Zdigits2_bounds (z : Z) :
  0 < z → 0 < Zdigits2 z ∧ 2 ^ (Zdigits2 z - 1) ≤ z < 2 ^ Zdigits2 z.
Proof.
  destruct z as [|p|p]; try lia. intros _. simpl.
  split; [lia | apply digits2_pos_bounds].
Qed.

Lemma Zdigits2_shift (z k : Z) :
  0 < z → 0 ≤ k → Zdigits2 (z * 2 ^ k) = Zdigits2 z + k.
Proof.
  intros Hz Hk. destruct (Zdigits2_bounds z Hz) as (Hd & Hlo & Hhi).
  assert (0 < 2 ^ k) by (apply Z.pow_pos_nonneg; lia).
  apply Zdigits2_unique; [|lia].
  replace (Zdigits2 z + k - 1) with (Zdigits2 z - 1 + k) by lia.
  rewrite !Z.pow_add_r by lia.
  split; [apply Z.mul_le_mono_nonneg_r | apply Z.mul_lt_mono_pos_r]; lia.
Qed.

Lemma Zdigits2_double (z : Z) : 0 < z → Zdigits2 (2 * z) = Zdigits2 z + 1.
Proof.
  intros Hz. destruct (Zdigits2_bounds z Hz) as (Hd & Hlo & Hhi).
  apply Zdigits2_unique; [|lia].
  replace (Zdigits2 z + 1 - 1) with (Z.succ (Zdigits2 z - 1)) by lia.
  replace (Zdigits2 z + 1) with (Z.succ (Zdigits2 z)) by lia.
  rewrite !Z.pow_succ_r by lia. lia.
Qed.

Lemma Zdigits2_mono (x y : Z) : 0 < x ≤ y → Zdigits2 x ≤ Zdigits2 y.
Proof.
  intros [Hx Hxy].
  destruct (Zdigits2_bounds x Hx) as (Hdx & Hlox & Hhix).
  destruct (Zdigits2_bounds y) as (Hdy & Hloy & Hhiy); [lia|].
  destruct (Z.le_gt_cases (Zdigits2 x) (Zdigits2 y)) as [|Hgt]; [done|].
  pose proof (Z.pow_le_mono_r 2 (Zdigits2 y) (Zdigits2 x - 1)). lia.
Qed.

(** Normalisation does nothing to a mantissa of 53 digits, and drops the
    last digit of a mantissa of 54. *)
Lemma shr_fexp_53 (m e : Z) (l : location) :
  Zdigits2 m = 53 → -1074 ≤ e →
  shr_fexp 53 1024 m e l = (shr_record_of_loc m l, e).
Proof.
  intros Hd He. unfold shr_fexp, fexp, emin. rewrite Hd.
  replace (Z.max (53 + e - 53) (3 - 1024 - 53) - e) with 0 by lia. done.
Qed.

Lemma shr_fexp_54 (m e : Z) (l : location) :
  Zdigits2 m = 54 → -1075 ≤ e →
  shr_fexp 53 1024 m e l = (shr_1 (shr_record_of_loc m l), e + 1).
Proof.
  intros Hd He. unfold shr_fexp, fexp, emin. rewrite Hd.
  replace (Z.max (54 + e - 53) (3 - 1024 - 53) - e) with 1 by lia. done.
Qed.

Lemma shr_record_of_loc_m (m : Z) (l : location) :
  shr_m (shr_record_of_loc m l) = m.
Proof. by destruct l as [|[]]. Qed.

Lemma loc_of_shr_record_of_loc (m : Z) (l : location) :
  loc_of_shr_record (shr_record_of_loc m l) = l.
Proof. by destruct l as [|[]]. Qed.

Lemma round_nearest_even_bounds (m : Z) (l : location) :
  m ≤ round_nearest_even m l ≤ m + 1.
Proof. destruct l as [|[]]; simpl; try case_match; lia. Qed.

(** Rounding a mantissa of 53 digits that needs no rounding. *)
Lemma round_aux_exact (m : positive) (e : Z) (s : bool) :
  Zpos (digits2_pos m) = 53 → -1074 ≤ e ≤ 971 →
  binary_round_aux 53 1024 s (Zpos m) e loc_Exact = S754_finite s m e.
Proof.
  intros Hd He. unfold binary_round_aux.
  rewrite shr_fexp_53 by (done || lia). simpl.
  rewrite shr_fexp_53 by (done || lia). simpl.
  destruct (Z.leb_spec e (1024 - 53)); [done|lia].
Qed.

(** The exponent of a rounded quotient: a mantissa [q] of 53 or 54 digits
    at exponent [e] rounds to exponent [e] when [q] has 53 digits and is not
    the largest of them, and to [e + 1] when [q] has 54 digits. *)
Lemma round_aux_exponent (q e : Z) (l : location) :
  2 ^ 52 ≤ q ≤ 2 ^ 54 - 2 → -1074 ≤ e ≤ 900 →
  ∃ m e', binary_round_aux 53 1024 false q e l = S754_finite false m e'
          ∧ (e' = e ∨ (e' = e + 1 ∧ 2 ^ 53 - 1 ≤ q)).
Proof.
  intros Hq He. unfold binary_round_aux.
  assert (∀ q1 e1, 2 ^ 52 ≤ q1 < 2 ^ 53 → -1074 ≤ e1 ≤ 971 →
            (let '(mrs, e2) := shr_fexp 53 1024 q1 e1 loc_Exact in
             match shr_m mrs with
             | 0 => S754_zero false
             | Z.pos m =>
                 if e2 <=? 1024 - 53 then S754_finite false m e2
                 else S754_infinity false
             | Z.neg _ => S754_nan
             end) = S754_finite false (Z.to_pos q1) e1) as Hfin.
  { intros q1 e1 Hq1 He1.
    rewrite shr_fexp_53 by (try apply Zdigits2_unique; lia). simpl.
    destruct q1 as [|m|m]; try lia. simpl.
    destruct (Z.leb_spec e1 (1024 - 53)); [done|lia]. }
  destruct (Z_lt_le_dec q (2 ^ 53)) as [Hlt|Hge].
  - rewrite shr_fexp_53 by (try apply Zdigits2_unique; lia).
    rewrite shr_record_of_loc_m, loc_of_shr_record_of_loc.
    pose proof (round_nearest_even_bounds q l) as Hr.
    destruct (Z_lt_le_dec (round_nearest_even q l) (2 ^ 53)) as [Hlt1|Hge1].
    + rewrite Hfin by lia. eauto.
    + replace (round_nearest_even q l) with 9007199254740992 by lia.
      exists 4503599627370496%positive, (e + 1). split; [|lia].
      rewrite shr_fexp_54 by (done || lia). simpl.
      destruct (Z.leb_spec (e + 1) (1024 - 53)); [done|lia].
  - rewrite shr_fexp_54 by (try apply Zdigits2_unique; lia).
    assert (∃ p r s, shr_1 (shr_record_of_loc q l)
                     = {| shr_m := p; shr_r := r; shr_s := s |}
                     ∧ 2 ^ 52 ≤ p
                     ∧ (if r then p ≤ 2 ^ 53 - 2 else p ≤ 2 ^ 53 - 1))
      as (p & r & s & -> & Hp1 & Hp2).
    { destruct q as [|[p|p|]|]; try lia; destruct l as [|[]]; simpl;
        eexists _, _, _; (split; [done|]); lia. }
    cbn [shr_m]. set (q1 := round_nearest_even p _).
    assert (2 ^ 52 ≤ q1 < 2 ^ 53) as Hq1.
    { unfold q1. destruct r, s; simpl; try case_match; lia. }
    rewrite Hfin by lia. exists (Z.to_pos q1), (e + 1). split; [done|lia].
Qed.

Lemma iter_xO_value (p k : positive) :
  Zpos (Pos.iter xO p k) = Zpos p * 2 ^ Zpos k.
Proof.
  induction k as [|k IH] using Pos.peano_ind.
  - simpl. lia.
  - rewrite Pos.iter_succ, (Pos2Z.inj_xO (Pos.iter xO p k)), IH.
    rewrite Pos2Z.inj_succ, Z.pow_succ_r by lia.
    lia.
Qed.

(** An integer below [2^53] converts exactly: the mantissa is the integer
    shifted to 53 digits. *)
Lemma of_Z_normal (z : Z) :
  0 < z < 2 ^ 53 →
  ∃ m, Float.of_Z z = S754_finite false m (Zdigits2 z - 53)
       ∧ Zpos m = z * 2 ^ (53 - Zdigits2 z)
       ∧ Zpos (digits2_pos m) = 53.
Proof.
  intros Hz. destruct z as [|p|p]; try lia.
  pose proof (digits2_pos_bounds p) as Hp.
  assert (Zpos (digits2_pos p) ≤ 53) as Hd.
  { destruct (Z.le_gt_cases (Zpos (digits2_pos p)) 53) as [|Hgt]; [done|].
    pose proof (Z.pow_le_mono_r 2 53 (Zpos (digits2_pos p) - 1)). lia. }
  unfold Float.of_Z, binary_normalize, binary_round, shl_align, fexp, emin.
  simpl Zdigits2.
  replace (Z.max (Zpos (digits2_pos p) + 0 - 53) (3 - 1024 - 53))
    with (Zpos (digits2_pos p) - 53) by lia.
  destruct (Zpos (digits2_pos p) - 53 - 0) as [|k|k] eqn:Hk; try lia.
  - assert (Zpos (digits2_pos p) = 53) as Hd53 by lia.
    exists p. rewrite round_aux_exact by (done || lia).
    rewrite Hd53. split; [done|]. split; [|done].
    change (2 ^ (53 - 53)) with 1. lia.
  - assert (Zpos (Pos.iter xO p k) = Zpos p * 2 ^ (53 - Zpos (digits2_pos p)))
      as Hv.
    { rewrite iter_xO_value.
      by replace (Zpos k) with (53 - Zpos (digits2_pos p)) by lia. }
    assert (Zpos (digits2_pos (Pos.iter xO p k)) = 53) as Hd53.
    { change (Zdigits2 (Zpos (Pos.iter xO p k)) = 53).
      rewrite Hv, Zdigits2_shift by lia. simpl. lia. }
    exists (Pos.iter xO p k). by rewrite round_aux_exact by (done || lia).
Qed.

(** Doubling a normal float adds one to its exponent. *)
Lemma mul_two_normal (m : positive) (e : Z) :
  Zpos (digits2_pos m) = 53 → -1075 ≤ e ≤ 970 →
  Float.mul Float.two (S754_finite false m e) = S754_finite false m (e + 1).
Proof.
  intros Hd He. pose proof (digits2_pos_bounds m) as Hm. rewrite Hd in Hm.
  assert (shr_fexp 53 1024 (Zpos (4503599627370496 * m)) (-51 + e) loc_Exact
          = ({| shr_m := Zpos m; shr_r := false; shr_s := false |}, e + 1))
    as Hshift.
  { unfold shr_fexp, fexp, emin.
    replace (Zdigits2 (Zpos (4503599627370496 * m))) with 105
      by (symmetry; apply Zdigits2_unique; lia).
    replace (Z.max (105 + (-51 + e) - 53) (3 - 1024 - 53) - (-51 + e))
      with 52 by lia.
    unfold shr. replace (-51 + e + 52) with (e + 1) by lia. reflexivity. }
  unfold Float.mul, Float.two, SFmul, binary_round_aux.
  change (-52 + 1 + e) with (-51 + e). rewrite Hshift.
  cbn [shr_m loc_of_shr_record round_nearest_even].
  rewrite shr_fexp_53 by (done || lia). simpl.
  destruct (Z.leb_spec (e + 1) (1024 - 53)); [done|lia].
Qed.

Lemma div_eucl_eq (x y : Z) : Z.div_eucl x y = (x / y, x mod y).
Proof. unfold Z.div, Z.modulo. by destruct (Z.div_eucl x y). Qed.

(** The first step of a division of normal floats: the quotient of the
    mantissas, with 53 more digits, at exponent [ex - ey - 53]. *)
Lemma div_core_normal (mx my : positive) (ex ey : Z) :
  Zpos (digits2_pos mx) = 53 → Zpos (digits2_pos my) = 53 →
  -1000 ≤ ex - ey ≤ 1000 →
  SFdiv_core_binary 53 1024 (Zpos mx) ex (Zpos my) ey
  = ((Zpos mx * 2 ^ 53) / Zpos my, ex - ey - 53,
     new_location (Zpos my) ((Zpos mx * 2 ^ 53) mod Zpos my)).
Proof.
  intros Hx Hy He. unfold SFdiv_core_binary, fexp, emin. simpl Zdigits2.
  rewrite Hx, Hy.
  replace (Z.min (Z.max (53 + ex - (53 + ey) - 53) (3 - 1024 - 53)) (ex - ey))
    with (ex - ey - 53) by lia.
  replace (ex - ey - (ex - ey - 53)) with 53 by lia.
  rewrite Z.shiftl_mul_pow2 by lia. by rewrite div_eucl_eq.
Qed.

(** A normal float divided by itself is [1.0]. *)
Lemma div_self (m : positive) (e : Z) :
  Zpos (digits2_pos m) = 53 →
  Float.div (S754_finite false m e) (S754_finite false m e) = Float.one.
Proof.
  intros Hd. unfold Float.div, SFdiv.
  rewrite div_core_normal by (done || lia).
  cbv beta iota delta [xorb].
  rewrite Z.mul_comm, Z.div_mul, Z.mod_mul by lia.
  replace (e - e - 53) with (-53) by lia.
  replace (new_location (Zpos m) 0) with loc_Exact; [done|].
  unfold new_location. by destruct (Z.even (Zpos m)).
Qed.

(** The exponent of a quotient of normal floats: [ex - ey - 53], or one
    more, and then the mantissas are in that order. *)
Lemma div_exponent (mx my : positive) (ex ey : Z) :
  Zpos (digits2_pos mx) = 53 → Zpos (digits2_pos my) = 53 →
  -500 ≤ ex - ey ≤ 500 →
  ∃ m e, Float.div (S754_finite false mx ex) (S754_finite false my ey)
         = S754_finite false m e
         ∧ (e = ex - ey - 53 ∨ (e = ex - ey - 52 ∧ Zpos my ≤ Zpos mx)).
Proof.
  intros Hx Hy He.
  pose proof (digits2_pos_bounds mx) as Hmx. rewrite Hx in Hmx.
  pose proof (digits2_pos_bounds my) as Hmy. rewrite Hy in Hmy.
  unfold Float.div, SFdiv. rewrite div_core_normal by (done || lia).
  cbv beta iota delta [xorb].
  set (q := Zpos mx * 2 ^ 53 / Zpos my).
  assert (2 ^ 52 ≤ q ≤ 2 ^ 54 - 2) as Hq.
  { unfold q. split.
    - apply Z.div_le_lower_bound; lia.
    - assert (Zpos mx * 2 ^ 53 / Zpos my < 2 ^ 54 - 1); [|lia].
      apply Z.div_lt_upper_bound; lia. }
  destruct (round_aux_exponent q (ex - ey - 53)
              (new_location (Zpos my) ((Zpos mx * 2 ^ 53) mod Zpos my)))
    as (m & e & -> & Hcase); [done|lia|].
  exists m, e. split; [done|].
  destruct Hcase as [->|[-> Hbig]]; [by left|right]. split; [lia|].
  destruct (Z.le_gt_cases (Zpos my) (Zpos mx)) as [|Hlt]; [done|].
  assert (q < 2 ^ 53 - 1); [|lia].
  apply Z.div_lt_upper_bound; lia.
Qed.

(** [2.0 * n] for an integer [n] below [2^52]. *)
Lemma double_of_Z (z : Z) :
  0 < z → 2 * z < 2 ^ 53 →
  ∃ m, Float.mul Float.two (Float.of_Z z)
       = S754_finite false m (Zdigits2 (2 * z) - 53)
       ∧ Zpos m = 2 * z * 2 ^ (53 - Zdigits2 (2 * z))
       ∧ Zpos (digits2_pos m) = 53.
Proof.
  intros Hz Hz2.
  destruct (of_Z_normal z) as (m & -> & Hm & Hd); [lia|].
  destruct (Zdigits2_bounds z Hz) as (Hdz & Hlo & _).
  assert (Zdigits2 z ≤ 52) as Hdz'.
  { destruct (Z.le_gt_cases (Zdigits2 z) 52) as [|Hgt]; [done|].
    pose proof (Z.pow_le_mono_r 2 52 (Zdigits2 z - 1)). lia. }
  exists m. rewrite mul_two_normal by (done || lia).
  rewrite Zdigits2_double by done. split; [f_equal; lia|]. split; [|done].
  rewrite Hm.
  replace (53 - Zdigits2 z) with (Z.succ (53 - (Zdigits2 z + 1))) by lia.
  rewrite Z.pow_succ_r by lia. lia.
Qed.

(** The ratio of a full match is [1.0]. *)
Lemma calculate_ratio_full (n : nat) :
  2 * Z.of_nat n < 2 ^ 53 →
  SequenceMatcher.calculate_ratio n (n + n) = Float.one.
Proof.
  intros Hn. unfold SequenceMatcher.calculate_ratio.
  destruct (n + n)%nat as [|k] eqn:Hk; [done|]. rewrite <- Hk.
  destruct (double_of_Z (Z.of_nat n)) as (m & -> & Hm & Hd); [lia..|].
  destruct (of_Z_normal (Z.of_nat (n + n))) as (m' & -> & Hm' & Hd'); [lia|].
  replace (Z.of_nat (n + n)) with (2 * Z.of_nat n) in * by lia.
  assert (m' = m) as -> by lia. by apply div_self.
Qed.

(** Conversely, a ratio of [1.0] is the ratio of a full match. *)
Lemma calculate_ratio_one (m len : nat) :
  (2 * m ≤ len)%nat → Z.of_nat len < 2 ^ 53 →
  SequenceMatcher.calculate_ratio m len = Float.one → (2 * m = len)%nat.
Proof.
  intros Hm Hlen. unfold SequenceMatcher.calculate_ratio.
  destruct len as [|k] eqn:Hk; [lia|]. rewrite <- Hk in *. clear k Hk.
  intros Hone. destruct (decide (2 * m = len)%nat) as [|Hne]; [done|].
  exfalso.
  destruct (of_Z_normal (Z.of_nat len)) as (my & Hy & Hmy & Hdy); [lia|].
  rewrite Hy in Hone.
  destruct m as [|m']; [done|]. set (m := S m') in *.
  destruct (double_of_Z (Z.of_nat m)) as (mx & Hx & Hmx & Hdx); [lia..|].
  rewrite Hx in Hone.
  pose proof (Zdigits2_mono (2 * Z.of_nat m) (Z.of_nat len)) as Hmono.
  destruct (Zdigits2_bounds (2 * Z.of_nat m)) as (Hd1 & _); [lia|].
  destruct (Zdigits2_bounds (Z.of_nat len)) as (Hd2 & _ & Hhi); [lia|].
  assert (Zdigits2 (Z.of_nat len) ≤ 53) as Hd2'.
  { destruct (Z.le_gt_cases (Zdigits2 (Z.of_nat len)) 53) as [|Hgt]; [done|].
    pose proof (Z.pow_le_mono_r 2 53 (Zdigits2 (Z.of_nat len) - 1)).
    destruct (Zdigits2_bounds (Z.of_nat len)); lia. }
  destruct (div_exponent mx my (Zdigits2 (2 * Z.of_nat m) - 53)
              (Zdigits2 (Z.of_nat len) - 53))
    as (r & e & Hdiv & Hcase); [done|done|lia|].
  rewrite Hdiv in Hone. injection Hone as _ He.
  destruct Hcase as [->|[-> Hord]]; [lia|].
  assert (Zdigits2 (2 * Z.of_nat m) = Zdigits2 (Z.of_nat len)) as Heq by lia.
  rewrite Hmx, Hmy, Heq in Hord.
  assert (0 < 2 ^ (53 - Zdigits2 (Z.of_nat len)))
    by (apply Z.pow_pos_nonneg; lia).
  apply Z.mul_le_mono_pos_r in Hord; lia.
Qed.

End FloatFacts.
(** ** Conversions of a cell *)

Lemma py_float_not_Diverge (v : cell) : py_float v ≠ Diverge.
Proof.
  destruct v as [| |b|z|x|s|d]; simpl; try done.
  - by destruct (Float.of_Z z).
  - by destruct (FloatParse.parse s).
Qed.

Section EngineFacts.

Variable date_parse : string → option datetime.
Variable float_repr : spec_float → string.

Lemma py_str_not_Diverge (v : cell) : py_str float_repr v ≠ Diverge.
Proof.
  destruct v as [| |b|z|x|s|d]; simpl; try done.
  unfold str_of_int. by destruct (_ <=? _).
Qed.

Lemma parse_date_not_Diverge (v : cell) :
  parse_date date_parse float_repr v ≠ Diverge.
Proof.
  unfold parse_date. pose proof (py_str_not_Diverge v) as Hs.
  destruct (py_str float_repr v) as [s| |]; simpl; try done.
  by destruct (date_parse s).
Qed.

(** [detect_type] as a decision list. *)
Lemma detect_type_eq (v : cell) :
  detect_type date_parse float_repr v =
    Ok (if isna v then None
        else if is_ok (py_float v) then Some "number"
        else if is_ok (parse_date date_parse float_repr v) then Some "date"
        else Some "string").
Proof.
  unfold detect_type. destruct (isna v); [done|].
  pose proof (py_float_not_Diverge v) as Hf.
  destruct (py_float v); simpl; try done.
  pose proof (parse_date_not_Diverge v) as Hd.
  by destruct (parse_date date_parse float_repr v).
Qed.

(** C6. The classifier always returns, with one of the four answers [None]
    (absent), ["number"], ["date"] and ["string"] (text); the answer is
    [None] exactly for a missing value; a present value that [float()]
    accepts is a number whatever the date parser would say of it, and a
    non-empty string of decimal digits is such a value; a present value that
    is no number is a date exactly when the date parser accepts its text. *)
Theorem detect_type_classifier (v : cell) :
  (∃ t, detect_type date_parse float_repr v = Ok t
        ∧ t ∈ [None; Some "number"; Some "date"; Some "string"])
  ∧ (detect_type date_parse float_repr v = Ok None ↔ isna v = true)
  ∧ (isna v = false → is_ok (py_float v) = true →
     detect_type date_parse float_repr v = Ok (Some "number"))
  ∧ (∀ s, s ≠ "" → Forall (λ c, isdigit c = true) (chars s) →
     detect_type date_parse float_repr (VStr s) = Ok (Some "number"))
  ∧ (isna v = false → is_ok (py_float v) = false →
     detect_type date_parse float_repr v =
       Ok (Some (if is_ok (parse_date date_parse float_repr v)
                 then "date" else "string"))).
Proof.
  repeat split.
  - rewrite detect_type_eq. eexists; split; [done|].
    repeat case_match; set_solver.
  - rewrite detect_type_eq. by repeat case_match.
  - intros Hna. rewrite detect_type_eq, Hna. done.
  - intros Hna Hf. by rewrite detect_type_eq, Hna, Hf.
  - intros s Hne Hs. rewrite detect_type_eq. simpl.
    by destruct (parse_digits s Hne Hs) as [x ->].
  - intros Hna Hf. rewrite detect_type_eq, Hna, Hf. by case_match.
Qed.

(** C4. Absent values are handled before anything else: two absent values
    match with reason [empty]; an absent left value alone gives no match with
    reason [left empty], an absent right value alone no match with reason
    [right empty], whatever the other value and the tolerances are. *)
Theorem compare_absent (a b : cell) (tol fuzzy : spec_float) :
  (isna a = true → isna b = true →
   compare date_parse float_repr a b tol fuzzy = Ok (true, "empty"))
  ∧ (isna a = true → isna b = false →
     compare date_parse float_repr a b tol fuzzy = Ok (false, "left empty"))
  ∧ (isna a = false → isna b = true →
     compare date_parse float_repr a b tol fuzzy = Ok (false, "right empty")).
Proof.
  unfold compare. repeat split; intros -> ->; done.
Qed.

(** Past the absent checks, [compare] is a choice between its three rules. *)
Lemma compare_present (a b : cell) (tol fuzzy : spec_float) :
  isna a = false → isna b = false →
  compare date_parse float_repr a b tol fuzzy =
    if is_ok (py_float a) || is_ok (py_float b) then
      try_except (compare_numbers a b tol) (Ok (false, "num parse fail"))
    else if is_ok (parse_date date_parse float_repr a)
            || is_ok (parse_date date_parse float_repr b) then
      try_except (compare_dates date_parse float_repr a b)
                 (compare_strings float_repr a b fuzzy)
    else compare_strings float_repr a b fuzzy.
Proof.
  intros Ha Hb. unfold compare. rewrite Ha, Hb. simpl.
  rewrite !detect_type_eq, Ha, Hb. simpl.
  destruct (is_ok (py_float a)), (is_ok (py_float b)),
    (is_ok (parse_date date_parse float_repr a)),
    (is_ok (parse_date date_parse float_repr b)); reflexivity.
Qed.

Lemma detect_type_number (v : cell) :
  isna v = false →
  detect_type date_parse float_repr v = Ok (Some "number")
  ↔ is_ok (py_float v) = true.
Proof.
  intros Hv. rewrite detect_type_eq, Hv. by repeat case_match.
Qed.

Lemma detect_type_date (v : cell) :
  isna v = false → is_ok (py_float v) = false →
  detect_type date_parse float_repr v = Ok (Some "date")
  ↔ is_ok (parse_date date_parse float_repr v) = true.
Proof.
  intros Hv Hf. rewrite detect_type_eq, Hv, Hf. by repeat case_match.
Qed.

(** C3. When neither value is absent, neither classifies as a number and one
    of them classifies as a date, [compare] parses both as dates: when both
    parse, the verdict is that the two have the same year, month and day,
    whatever their times of day and the tolerances are, with reason
    [date ok] or [date mismatch]; when one does not parse, the result is
    that of the text rule. *)
Theorem compare_date (a b : cell) (tol fuzzy : spec_float) :
  isna a = false → isna b = false →
  detect_type date_parse float_repr a ≠ Ok (Some "number") →
  detect_type date_parse float_repr b ≠ Ok (Some "number") →
  detect_type date_parse float_repr a = Ok (Some "date")
  ∨ detect_type date_parse float_repr b = Ok (Some "date") →
  compare date_parse float_repr a b tol fuzzy =
    match parse_date date_parse float_repr a,
          parse_date date_parse float_repr b with
    | Ok da, Ok db =>
        let same := bool_decide (year da = year db ∧ month da = month db
                                 ∧ day da = day db) in
        Ok (same, if same then "date ok" else "date mismatch")
    | _, _ => compare_strings float_repr a b fuzzy
    end
  ∧ (∀ da db, parse_date date_parse float_repr a = Ok da →
       parse_date date_parse float_repr b = Ok db →
       year da = year db → month da = month db → day da = day db →
       ∀ tol' fuzzy',
         compare date_parse float_repr a b tol' fuzzy' = Ok (true, "date ok"))
  ∧ (∀ da db, parse_date date_parse float_repr a = Ok da →
       parse_date date_parse float_repr b = Ok db →
       year da ≠ year db ∨ month da ≠ month db ∨ day da ≠ day db →
       ∀ tol' fuzzy',
         compare date_parse float_repr a b tol' fuzzy'
         = Ok (false, "date mismatch")).
Proof.
  intros Ha Hb Hna Hnb Hdate.
  rewrite detect_type_number in Hna, Hnb by done.
  apply not_true_is_false in Hna, Hnb.
  rewrite !detect_type_date in Hdate by done.
  assert (Hor : is_ok (parse_date date_parse float_repr a)
                || is_ok (parse_date date_parse float_repr b) = true).
  { destruct Hdate as [-> | ->]; [done | apply orb_true_r]. }
  assert (∀ da db, date da = date db
                   ↔ year da = year db ∧ month da = month db
                     ∧ day da = day db) as Hsame.
  { intros da db. unfold date. split; [by intros [= -> -> ->]|].
    by intros (-> & -> & ->). }
  split; [|split; intros da db Hda Hdb; [intros Hy Hm Hd|intros Hdiff];
            intros tol' fuzzy'];
    rewrite compare_present, Hna, Hnb by done; simpl; rewrite Hor;
    unfold compare_dates.
  - pose proof (parse_date_not_Diverge a).
    pose proof (parse_date_not_Diverge b).
    destruct (parse_date date_parse float_repr a) as [da| |],
             (parse_date date_parse float_repr b) as [db| |]; simpl; try done.
    case_decide as Heq.
    + rewrite bool_decide_true; [done|by apply Hsame].
    + rewrite bool_decide_false; [done|]. by intros ?%Hsame.
  - rewrite Hda, Hdb. simpl. rewrite decide_True; [done|]. by apply Hsame.
  - rewrite Hda, Hdb. simpl. rewrite decide_False; [done|].
    intros (? & ? & ?)%Hsame. naive_solver.
Qed.

(** *** The text rule *)

Lemma py_str_printable (v : cell) :
  printable v → ∃ s, py_str float_repr v = Ok s.
Proof.
  destruct v as [| |b|z|x|s|d]; simpl; eauto.
  intros Hz. unfold str_of_int.
  destruct (Z.leb_spec (10 ^ int_max_str_digits) (Z.abs z)); [lia|eauto].
Qed.

(** [compare] reaches its text rule when neither value is absent, neither
    converts to a float, and the two do not both parse as dates. *)
Lemma compare_text (a b : cell) (tol fuzzy : spec_float) :
  isna a = false → isna b = false →
  is_ok (py_float a) = false → is_ok (py_float b) = false →
  is_ok (parse_date date_parse float_repr a)
  && is_ok (parse_date date_parse float_repr b) = false →
  compare date_parse float_repr a b tol fuzzy
  = compare_strings float_repr a b fuzzy.
Proof.
  intros Ha Hb Hfa Hfb Hd. rewrite compare_present, Hfa, Hfb by done. simpl.
  unfold compare_dates.
  pose proof (parse_date_not_Diverge a).
  pose proof (parse_date_not_Diverge b).
  destruct (parse_date date_parse float_repr a),
           (parse_date date_parse float_repr b); simpl in *; done.
Qed.

Lemma compare_strings_eq (a b : cell) (fuzzy : spec_float) (sa sb : string) :
  py_str float_repr a = Ok sa → py_str float_repr b = Ok sb →
  ∃ r, SequenceMatcher.ratio (chars (lower (strip sa)))
                             (chars (lower (strip sb))) = Ok r
       ∧ compare_strings float_repr a b fuzzy
         = if decide (strip sa = strip sb) then Ok (true, "string match")
           else Ok (Float.ge r fuzzy,
                    "string mismatch (" +:+ format_2f r +:+ ")").
Proof.
  intros Hsa Hsb. unfold compare_strings. rewrite Hsa, Hsb. simpl.
  destruct (ratio_Ok (chars (lower (strip sa))) (chars (lower (strip sb))))
    as [r Hr].
  exists r. split; [done|]. case_decide; [done|]. by rewrite Hr.
Qed.

(** C1, as the code has it. In the text rule the exact test is made on the
    trimmed strings as they are, letter case included: equal trimmed strings
    match with reason [string match]; any other pair, a pair that differs
    only in letter case included, gets the verdict [ratio >= fuzzy] and the
    reason [string mismatch] with the ratio, never [string match]. *)
Theorem compare_text_exact (a b : cell) (tol fuzzy : spec_float)
    (sa sb : string) :
  isna a = false → isna b = false →
  detect_type date_parse float_repr a ≠ Ok (Some "number") →
  detect_type date_parse float_repr b ≠ Ok (Some "number") →
  is_ok (parse_date date_parse float_repr a)
  && is_ok (parse_date date_parse float_repr b) = false →
  py_str float_repr a = Ok sa → py_str float_repr b = Ok sb →
  (strip sa = strip sb →
   compare date_parse float_repr a b tol fuzzy = Ok (true, "string match"))
  ∧ (strip sa ≠ strip sb →
     ∃ r, SequenceMatcher.ratio (chars (lower (strip sa)))
                                (chars (lower (strip sb))) = Ok r
          ∧ compare date_parse float_repr a b tol fuzzy
            = Ok (Float.ge r fuzzy,
                  "string mismatch (" +:+ format_2f r +:+ ")")).
Proof.
  intros Ha Hb Hna Hnb Hd Hsa Hsb.
  rewrite detect_type_number in Hna, Hnb by done.
  apply not_true_is_false in Hna, Hnb.
  rewrite compare_text by done.
  destruct (compare_strings_eq a b fuzzy sa sb Hsa Hsb) as (r & Hr & ->).
  split; intros Heq.
  - by rewrite decide_True.
  - exists r. by rewrite decide_False.
Qed.

Lemma length_chars (s : string) : length (chars s) = String.length s.
Proof. induction s; simpl; congruence. Qed.

Lemma ratio_same (l : list ascii) :
  2 * Z.of_nat (length l) < 2 ^ 53 →
  SequenceMatcher.ratio l l = Ok Float.one.
Proof.
  intros Hl. unfold SequenceMatcher.ratio. rewrite matches_diag.
  by rewrite calculate_ratio_full.
Qed.

(** C10. For two text values whose trimmed forms differ, but only in letter
    case, [compare] takes the fuzzy path: the ratio of the two equal
    lower-cased strings is [1.0], so for a threshold of at most [1.0] the
    verdict is [True], and the reason is [string mismatch (1.00)]. *)
Theorem compare_case_only (a b : cell) (tol fuzzy : spec_float)
    (sa sb : string) :
  detect_type date_parse float_repr a = Ok (Some "string") →
  detect_type date_parse float_repr b = Ok (Some "string") →
  py_str float_repr a = Ok sa → py_str float_repr b = Ok sb →
  strip sa ≠ strip sb → lower (strip sa) = lower (strip sb) →
  2 * Z.of_nat (String.length (strip sa)) < 2 ^ 53 →
  Float.le fuzzy Float.one = true →
  compare date_parse float_repr a b tol fuzzy
  = Ok (true, "string mismatch (1.00)").
Proof.
  intros Hta Htb Hsa Hsb Hne Hlow Hlen Hfuzzy.
  rewrite detect_type_eq in Hta, Htb.
  assert (isna a = false ∧ is_ok (py_float a) = false
          ∧ is_ok (parse_date date_parse float_repr a) = false)
    as (Ha & Hfa & Hda) by (repeat case_match; naive_solver).
  assert (isna b = false ∧ is_ok (py_float b) = false
          ∧ is_ok (parse_date date_parse float_repr b) = false)
    as (Hb & Hfb & Hdb) by (repeat case_match; naive_solver).
  rewrite compare_text by (done || by rewrite Hda).
  destruct (compare_strings_eq a b fuzzy sa sb Hsa Hsb) as (r & Hr & ->).
  rewrite decide_False by done.
  rewrite <- Hlow, ratio_same in Hr.
  - injection Hr as <-. unfold Float.ge. unfold Float.le in Hfuzzy.
    by rewrite Hfuzzy.
  - unfold lower. rewrite list_ascii_of_string_of_list_ascii.
    by rewrite length_map, length_chars.
Qed.

(** C7, as the code has it. The ratio is [1.0] exactly for two equal
    strings. (It is not symmetric: see [ratio_not_symmetric].) *)
Theorem ratio_one_iff_equal (s t : string) :
  Z.of_nat (String.length s + String.length t) < 2 ^ 53 →
  SequenceMatcher.ratio (chars s) (chars t) = Ok Float.one ↔ s = t.
Proof.
  intros Hlen. split.
  - unfold SequenceMatcher.ratio.
    destruct (matches_ok (chars s) (chars t)) as (m & -> & Hm1 & Hm2 & Heq).
    intros [= Hone]. rewrite !length_chars in *.
    apply calculate_ratio_one in Hone; [|lia..].
    rewrite <- (string_of_list_ascii_of_string s).
    rewrite <- (string_of_list_ascii_of_string t).
    f_equal. apply Heq; lia.
  - intros <-. apply ratio_same. rewrite length_chars. lia.
Qed.

(** *** [compare] always returns *)

Lemma compare_strings_total (a b : cell) (fuzzy : spec_float) :
  printable a → printable b →
  ∃ v, compare_strings float_repr a b fuzzy = Ok v.
Proof.
  intros [sa Hsa]%py_str_printable [sb Hsb]%py_str_printable.
  destruct (compare_strings_eq a b fuzzy sa sb Hsa Hsb) as (r & _ & ->).
  case_decide; eauto.
Qed.

Lemma try_except_total {A} (body handler : res A) :
  body ≠ Diverge → (∃ v, handler = Ok v) → ∃ v, try_except body handler = Ok v.
Proof. destruct body; simpl; eauto. done. Qed.

Lemma compare_numbers_not_Diverge (a b : cell) (tol : spec_float) :
  compare_numbers a b tol ≠ Diverge.
Proof.
  unfold compare_numbers.
  pose proof (py_float_not_Diverge a). pose proof (py_float_not_Diverge b).
  destruct (py_float a) as [x| |], (py_float b) as [y| |]; simpl; try done.
  by destruct (Float.le _ tol).
Qed.

Lemma compare_dates_not_Diverge (a b : cell) :
  compare_dates date_parse float_repr a b ≠ Diverge.
Proof.
  unfold compare_dates.
  pose proof (parse_date_not_Diverge a). pose proof (parse_date_not_Diverge b).
  destruct (parse_date date_parse float_repr a) as [x| |],
           (parse_date date_parse float_repr b) as [y| |]; simpl; try done.
  by case_decide.
Qed.

Lemma compare_total (a b : cell) (tol fuzzy : spec_float) :
  printable a → printable b →
  ∃ v, compare date_parse float_repr a b tol fuzzy = Ok v.
Proof.
  intros Hpa Hpb.
  pose proof (compare_strings_total a b fuzzy Hpa Hpb) as Hs.
  destruct (isna a) eqn:Ha; [|destruct (isna b) eqn:Hb].
  - unfold compare. rewrite Ha. destruct (isna b); simpl; eauto.
  - unfold compare. rewrite Ha, Hb. simpl. eauto.
  - rewrite compare_present by done.
    destruct (_ || _); [|destruct (_ || _); [|done]].
    + apply try_except_total; [apply compare_numbers_not_Diverge | eauto].
    + apply try_except_total; [apply compare_dates_not_Diverge | done].
Qed.

(** *** A value against itself *)

Lemma sub_self (x : spec_float) :
  Float.is_finite x = true → Float.abs (Float.sub x x) = Float.zero.
Proof.
  destruct x as [[]|?| |s m e]; try done. intros _.
  unfold Float.sub, SFsub. by rewrite Z.sub_diag.
Qed.

(** X5. A present value matches itself, by the rule of its own type, when
    the numeric tolerance is not negative; a number must be finite for that
    ([inf - inf] is a NaN). *)
Theorem compare_reflexive (x : cell) (tol fuzzy : spec_float) :
  isna x = false → printable x →
  (∀ f, py_float x = Ok f → Float.is_finite f = true) →
  Float.le Float.zero tol = true →
  ∃ why, compare date_parse float_repr x x tol fuzzy = Ok (true, why).
Proof.
  intros Hx Hp Hfin Htol. rewrite compare_present by done.
  rewrite orb_diag. pose proof (py_float_not_Diverge x) as Hnd.
  destruct (py_float x) as [f| |] eqn:Hf; simpl; try done.
  { unfold compare_numbers. rewrite Hf. simpl.
    rewrite sub_self, Htol by auto. eauto. }
  rewrite orb_diag. pose proof (parse_date_not_Diverge x) as Hnd'.
  destruct (parse_date date_parse float_repr x) as [d| |] eqn:Hd; simpl;
    try done.
  { unfold compare_dates. rewrite Hd. simpl. rewrite decide_True by done.
    eauto. }
  destruct (py_str_printable x Hp) as [s Hs].
  destruct (compare_strings_eq x x fuzzy s s Hs Hs) as (r & _ & ->).
  rewrite decide_True by done. eauto.
Qed.

End EngineFacts.

(** X13. [compare] never renders a float: a value it passes to [str] is one
    that [float()] rejected. So the result does not depend on [repr]. *)
Lemma compare_float_repr (date_parse : string → option datetime)
    (repr1 repr2 : spec_float → string) (a b : cell) (tol fuzzy : spec_float) :
  compare date_parse repr1 a b tol fuzzy
  = compare date_parse repr2 a b tol fuzzy.
Proof.
  assert (∀ v, is_ok (py_float v) = false → py_str repr1 v = py_str repr2 v)
    as Hstr by (by intros [| |?|?|?|?|?]).
  destruct (isna a) eqn:Ha; [|destruct (isna b) eqn:Hb].
  - unfold compare. rewrite Ha. by destruct (isna b).
  - unfold compare. by rewrite Ha, Hb.
  - rewrite !compare_present by done.
    destruct (is_ok (py_float a)) eqn:Hfa; [done|].
    destruct (is_ok (py_float b)) eqn:Hfb; [done|]. simpl.
    unfold compare_dates, compare_strings, parse_date.
    by rewrite (Hstr a Hfa), (Hstr b Hfb).
Qed.

(** ** The validation loop *)

Section ValidationFacts.

Variable date_parse : string → option datetime.
Variable float_repr : spec_float → string.
Variables (df : dataframe) (tol fuzzy : spec_float).

Lemma recorded_by_weaken (r1 r2 s e : Z) (m1 m2 : list (string * string))
    (m : mismatch) :
  s ≤ r1 → r2 ≤ e → m1 ⊆ m2 →
  recorded_by date_parse float_repr df r1 r2 m1 tol fuzzy m →
  recorded_by date_parse float_repr df s e m2 tol fuzzy m.
Proof.
  intros ? ? Hsub (? & ? & ? & ? & ?). split_and!; try done; try lia.
  by apply Hsub.
Qed.

Lemma check_pairs_inv (r : Z) (mapping : list (string * string))
    (acc ms : list mismatch) :
  check_pairs date_parse float_repr df tol fuzzy r mapping acc = Ok ms →
  ∃ new, ms = acc ++ new ∧ pass_ok date_parse float_repr df tol fuzzy r mapping new.
Proof.
  revert acc. induction mapping as [|[lc rc] mapping IH]; intros acc; simpl.
  - intros [= <-]. exists []. rewrite app_nil_r. split; [done|].
    split_and!; [done|constructor|set_solver].
  - intros Hrun.
    apply bind_Ok in Hrun as (x & Hx & Hrun).
    apply bind_Ok in Hrun as (y & Hy & Hrun).
    apply bind_Ok in Hrun as ([ok why] & Hcmp & Hrun).
    apply IH in Hrun as (new & -> & Hlen & Hall & Hgrid).
    set (rec := {| row := r; left_column := lc; right_column := rc;
                   left_value := x; right_value := y; reason := why |}).
    exists ((if ok then [] else [rec]) ++ new).
    split; [destruct ok; by rewrite <- ?app_assoc|].
    assert (Forall (λ m, row m = r
                         ∧ recorded_by date_parse float_repr df r r
                             ((lc, rc) :: mapping) tol fuzzy m) new) as Hall'.
    { eapply Forall_impl; [done|]. intros m [? ?]. split; [done|].
      eapply recorded_by_weaken; [..|done]; [lia|lia|set_solver]. }
    split_and!.
    + destruct ok; simpl; lia.
    + destruct ok; simpl; [done|]. constructor; [|done].
      split; [done|]. split_and!; simpl; try done; try lia. set_solver.
    + intros lc' rc' [[= -> ->]|Hin]%elem_of_cons.
      * exists x, y, ok, why. split_and!; try done.
        intros ->. set_solver.
      * destruct (Hgrid lc' rc' Hin) as (x' & y' & ok' & why' & ? & ? & ? & Hrec).
        exists x', y', ok', why'. split_and!; try done.
        intros Hok. apply elem_of_app. right. by apply Hrec.
Qed.

Lemma check_rows_inv (mapping : list (string * string)) (rows : list Z)
    (acc ms : list mismatch) :
  check_rows date_parse float_repr df tol fuzzy mapping rows acc = Ok ms →
  ∃ new, ms = acc ++ new
         ∧ (length new ≤ length rows * length mapping)%nat
         ∧ Forall (λ m, row m ∈ rows
                        ∧ recorded_by date_parse float_repr df (row m) (row m)
                            mapping tol fuzzy m) new
         ∧ ∀ r, r ∈ rows → ∃ pass, pass ⊆ new ∧ pass_ok date_parse float_repr df tol fuzzy r mapping pass.
Proof.
  revert acc. induction rows as [|r rows IH]; intros acc; simpl.
  - intros [= <-]. exists []. rewrite app_nil_r.
    split_and!; [done|done|constructor|set_solver].
  - intros Hrun. apply bind_Ok in Hrun as (mid & Hpass & Hrun).
    apply check_pairs_inv in Hpass as (pass & -> & Hlen & Hall & Hgrid).
    apply IH in Hrun as (new & -> & Hlen' & Hall' & Hrows).
    exists (pass ++ new). split; [by rewrite app_assoc|]. split_and!.
    + rewrite length_app. lia.
    + apply Forall_app. split.
      * eapply Forall_impl; [done|]. intros m [<- ?]. split; [set_solver|done].
      * eapply Forall_impl; [done|]. intros m [? ?]. split; [set_solver|done].
    + intros r' [->|Hin]%elem_of_cons.
      * exists pass. split; [set_solver|done].
      * destruct (Hrows r' Hin) as (pass' & ? & ?). exists pass'.
        split; [set_solver|done].
Qed.

Lemma check_pairs_total (r : Z) (mapping : list (string * string))
    (acc : list mismatch) :
  (∀ lc rc, (lc, rc) ∈ mapping →
     ∃ s x y, iloc df r = Ok s ∧ s !! lc = Some x ∧ s !! rc = Some y
              ∧ printable x ∧ printable y) →
  ∃ ms, check_pairs date_parse float_repr df tol fuzzy r mapping acc = Ok ms.
Proof.
  revert acc. induction mapping as [|[lc rc] mapping IH]; intros acc Hok;
    simpl; [eauto|].
  destruct (Hok lc rc) as (s & x & y & -> & Hx & Hy & Hpx & Hpy);
    [set_solver|].
  simpl. unfold getitem. rewrite Hx, Hy. simpl.
  destruct (compare_total date_parse float_repr x y tol fuzzy Hpx Hpy)
    as [[ok why] ->].
  simpl. apply IH. intros lc' rc' Hin. apply Hok. set_solver.
Qed.

Lemma check_rows_total (mapping : list (string * string)) (rows : list Z)
    (acc : list mismatch) :
  (∀ r lc rc, r ∈ rows → (lc, rc) ∈ mapping →
     ∃ s x y, iloc df r = Ok s ∧ s !! lc = Some x ∧ s !! rc = Some y
              ∧ printable x ∧ printable y) →
  ∃ ms, check_rows date_parse float_repr df tol fuzzy mapping rows acc = Ok ms.
Proof.
  revert acc. induction rows as [|r rows IH]; intros acc Hok; simpl; [eauto|].
  destruct (check_pairs_total r mapping acc) as [mid ->].
  { intros lc rc Hin. apply Hok; [set_solver|done]. }
  simpl. apply IH. intros r' lc rc Hin. apply Hok. set_solver.
Qed.

Lemma elem_of_range (start stop r : Z) :
  r ∈ range start stop ↔ start ≤ r < stop.
Proof. unfold range. rewrite elem_of_seqZ. lia. Qed.

Lemma validate_total (start_row end_row : Z)
    (mapping : list (string * string)) :
  grid_ok df start_row end_row mapping →
  ∃ ms, validate date_parse float_repr df start_row end_row mapping tol fuzzy
        = Ok (ms, (end_row - start_row + 1) * Z.of_nat (length mapping)).
Proof.
  intros Hgrid. unfold validate.
  destruct (check_rows_total mapping (range start_row (end_row + 1)) [])
    as [ms ->]; [|simpl; eauto].
  intros r lc rc Hr%elem_of_range Hin. apply Hgrid; [lia|done].
Qed.

(** C5. A run over rows [start_row..end_row] whose cells all resolve returns,
    and its [total_checks] is [(end_row - start_row + 1) * len(mapping)],
    whatever the table holds and however many mismatches were recorded: in
    particular for [start_row = end_row], for a mapping of one pair, and
    when every pair matches. *)
Theorem total_checks_formula (start_row end_row : Z)
    (mapping : list (string * string)) :
  start_row ≤ end_row → grid_ok df start_row end_row mapping →
  ∃ ms, validate date_parse float_repr df start_row end_row mapping tol fuzzy
        = Ok (ms, (end_row - start_row + 1) * Z.of_nat (length mapping)).
Proof. intros _. apply validate_total. Qed.

(** C9, as the code has it. Every record a run returns has its row within
    [start_row..end_row] and its pair of columns in the mapping, holds the
    two cells found at that row and those columns, and carries the reason
    [compare] gave for them. There are no more records than rows visited
    times pairs; this is [total_checks] when [start_row <= end_row + 1], but
    for a range that ends further before its start [total_checks] is
    negative, below the number of records, which is zero. *)
Theorem mismatch_records_sound (start_row end_row : Z)
    (mapping : list (string * string)) (ms : list mismatch) (total : Z) :
  validate date_parse float_repr df start_row end_row mapping tol fuzzy
  = Ok (ms, total) →
  Forall (recorded_by date_parse float_repr df start_row end_row mapping
            tol fuzzy) ms
  ∧ total = (end_row - start_row + 1) * Z.of_nat (length mapping)
  ∧ Z.of_nat (length ms)
    ≤ Z.max 0 (end_row - start_row + 1) * Z.of_nat (length mapping)
  ∧ (start_row ≤ end_row + 1 → Z.of_nat (length ms) ≤ total)
  ∧ (end_row + 1 < start_row → mapping ≠ [] → ms = [] ∧ total < 0).
Proof.
  unfold validate. intros (ms' & Hrows & [= -> <-])%bind_Ok.
  apply check_rows_inv in Hrows as (new & -> & Hlen & Hall & _). simpl.
  unfold range in Hlen. rewrite length_seqZ in Hlen.
  split_and!.
  - eapply Forall_impl; [done|]. intros m [Hr%elem_of_range Hm].
    eapply recorded_by_weaken; [..|done]; [lia|lia|done].
  - done.
  - nia.
  - intros Hrange. nia.
  - intros Hrange Hmap. split.
    + apply length_zero_iff_nil. lia.
    + destruct mapping; [done|]. simpl length. nia.
Qed.

End ValidationFacts.

(** ** The order of floats *)

Ltac order_cases :=
  repeat match goal with
         | |- context [(?a ?= ?b)%Z] => destruct (Z.compare_spec a b)
         | |- context [(?a ?= ?b)%positive] => destruct (Pos.compare_spec a b)
         end.

Lemma le_trans (x y z : spec_float) :
  Float.le x y = true → Float.le y z = true → Float.le x z = true.
Proof.
  unfold Float.le, SFleb, SFcompare.
  destruct x as [[]|[]| |[] mx ex], y as [[]|[]| |[] my ey],
    z as [[]|[]| |[] mz ez]; try done;
    change (PosDef.Pos.compare_cont Eq) with Pos.compare;
    order_cases; simpl; try done; lia.
Qed.

Lemma abs_round_sign (s : bool) (m : positive) (e : Z) :
  Float.abs (binary_round 53 1024 s m e)
  = Float.abs (binary_round 53 1024 false m e).
Proof.
  unfold binary_round, binary_round_aux.
  destruct (shl_align _ _ _) as [mz ez].
  destruct (shr_fexp _ _ _ _ _) as [mrs' e'].
  destruct (shr_fexp _ _ _ _ _) as [mrs'' e''].
  destruct (shr_m mrs''); try done. by destruct (_ <=? _).
Qed.

(** [abs(x - y)] is [abs(y - x)]. *)
Lemma abs_sub_comm (x y : spec_float) :
  Float.abs (Float.sub x y) = Float.abs (Float.sub y x).
Proof.
  destruct x as [[]|[]| |sx mx ex], y as [[]|[]| |sy my ey]; try done.
  unfold Float.sub, SFsub. rewrite (Z.min_comm ey ex).
  set (u := cond_Zopp sx _). set (v := cond_Zopp sy _).
  unfold binary_normalize.
  destruct (Z.compare_spec u v) as [->|Hlt|Hgt].
  - by rewrite Z.sub_diag.
  - destruct (u - v) as [|p|p] eqn:Hp; try lia.
    destruct (v - u) as [|q|q] eqn:Hq; try lia.
    assert (q = p) as -> by lia. apply abs_round_sign.
  - destruct (u - v) as [|p|p] eqn:Hp; try lia.
    destruct (v - u) as [|q|q] eqn:Hq; try lia.
    assert (q = p) as -> by lia. symmetry. apply abs_round_sign.
Qed.

Lemma sub_not_finite (x : spec_float) :
  Float.is_finite x = false → Float.sub x x = S754_nan.
Proof. by destruct x as [[]|[]| |s m e]. Qed.

(** ** Integers below [2^53] as floats: exact arithmetic *)

Section ExactFacts.
Local Open Scope Z_scope.

Lemma iter_pos_iter {A} (f : A → A) (n : positive) (x : A) :
  SpecFloat.iter_pos f n x = Pos.iter f x n.
Proof.
  revert x. induction n as [n IH|n IH|]; intros x; simpl; [|by rewrite !IH|done].
  by rewrite !IH, !Pos.iter_swap.
Qed.

(** Shifting out digits that are all zero loses nothing. *)
Lemma shr_zeros (q k : positive) :
  SpecFloat.iter_pos shr_1 k
    {| shr_m := Zpos (Pos.iter xO q k); shr_r := false; shr_s := false |}
  = {| shr_m := Zpos q; shr_r := false; shr_s := false |}.
Proof.
  rewrite iter_pos_iter.
  induction k as [|k IH] using Pos.peano_ind; [done|].
  by rewrite Pos.iter_succ_r, Pos.iter_succ.
Qed.

(** Rounding [n * 2^k] at exponent [-k], for [n] below [2^53]: the result is
    [n] itself, with its mantissa shifted to 53 digits. *)
Lemma round_scaled (s : bool) (n p : positive) (k : Z) :
  Zpos n < 2 ^ 53 → 0 ≤ k ≤ 1000 → Zpos p = Zpos n * 2 ^ k →
  ∃ m, binary_round 53 1024 s p (- k)
       = S754_finite s m (Zpos (digits2_pos n) - 53)
       ∧ Zpos m = Zpos n * 2 ^ (53 - Zpos (digits2_pos n)).
Proof.
  intros Hn Hk Hp.
  pose proof (digits2_pos_bounds n) as Hd.
  set (d := Zpos (digits2_pos n)) in *.
  assert (1 ≤ d ≤ 53) as Hd53.
  { split; [unfold d; lia|].
    destruct (Z.le_gt_cases d 53) as [|Hgt]; [done|].
    pose proof (Z.pow_le_mono_r 2 53 (d - 1)). lia. }
  assert (Zpos (digits2_pos p) = d + k) as Hdp.
  { change (Zdigits2 (Zpos p) = d + k). rewrite Hp.
    by rewrite Zdigits2_shift by lia. }
  set (q := Z.to_pos (Zpos n * 2 ^ (53 - d))).
  assert (0 < 2 ^ (53 - d)) by (apply Z.pow_pos_nonneg; lia).
  assert (Zpos q = Zpos n * 2 ^ (53 - d)) as Hq by (unfold q; lia).
  assert (Zpos (digits2_pos q) = 53) as Hdq.
  { change (Zdigits2 (Zpos q) = 53). rewrite Hq, Zdigits2_shift by lia.
    simpl. unfold d. lia. }
  exists q. split; [|done].
  unfold binary_round, shl_align, fexp, emin. rewrite Hdp.
  replace (Z.max (d + k + - k - 53) (3 - 1024 - 53)) with (d - 53) by lia.
  destruct (d - 53 - - k) as [|j|j] eqn:Hj.
  - assert (p = q) as ->.
    { apply Pos2Z.inj. rewrite Hp, Hq. f_equal. f_equal. lia. }
    replace (- k) with (d - 53) by lia.
    by rewrite round_aux_exact by (done || lia).
  - assert (p = Pos.iter xO q j) as ->.
    { apply Pos2Z.inj. rewrite iter_xO_value, Hp, Hq, <- Z.mul_assoc.
      rewrite <- Z.pow_add_r by lia. f_equal. f_equal. lia. }
    unfold binary_round_aux.
    assert (shr_fexp 53 1024 (Zpos (Pos.iter xO q j)) (- k) loc_Exact
            = ({| shr_m := Zpos q; shr_r := false; shr_s := false |}, d - 53))
      as ->.
    { unfold shr_fexp, fexp, emin. simpl Zdigits2. rewrite Hdp.
      replace (Z.max (d + k + - k - 53) (3 - 1024 - 53) - - k) with (Zpos j)
        by lia.
      unfold shr. simpl shr_record_of_loc. rewrite shr_zeros.
      f_equal. lia. }
    cbn [shr_m loc_of_shr_record round_nearest_even].
    rewrite shr_fexp_53 by (done || lia). simpl.
    destruct (Z.leb_spec (d - 53) (1024 - 53)); [done|lia].
  - assert (Pos.iter xO p j = q) as ->.
    { apply Pos2Z.inj. rewrite iter_xO_value, Hp, Hq, <- Z.mul_assoc.
      rewrite <- Z.pow_add_r by lia. f_equal. f_equal. lia. }
    by rewrite round_aux_exact by (done || lia).
Qed.

(** The float of a non-zero integer below [2^53]. *)
Lemma of_Z_exact (z : Z) :
  z ≠ 0 → Z.abs z < 2 ^ 53 →
  ∃ m, Float.of_Z z = S754_finite (z <? 0) m (Zdigits2 (Z.abs z) - 53)
       ∧ Zpos m = Z.abs z * 2 ^ (53 - Zdigits2 (Z.abs z)).
Proof.
  intros Hz Hlt. unfold Float.of_Z, binary_normalize.
  destruct z as [|p|p]; [done|..]; simpl Z.abs in *; simpl Zdigits2.
  - destruct (round_scaled false p p 0) as (m & Hm & ?); [done|lia|lia|].
    by exists m.
  - destruct (round_scaled true p p 0) as (m & Hm & ?); [done|lia|lia|].
    by exists m.
Qed.

Lemma abs_of_Z (z : Z) : Float.abs (Float.of_Z z) = Float.of_Z (Z.abs z).
Proof.
  destruct z as [|p|p]; try done.
  - unfold Float.of_Z, binary_normalize. simpl.
    unfold binary_round, binary_round_aux.
    destruct (shl_align _ _ _) as [mz ez].
    destruct (shr_fexp _ _ _ _ _) as [mrs' e'].
    destruct (shr_fexp _ _ _ _ _) as [mrs'' e''].
    destruct (shr_m mrs''); try done. by destruct (_ <=? _).
  - unfold Float.of_Z, binary_normalize. simpl.
    unfold binary_round, binary_round_aux.
    destruct (shl_align _ _ _) as [mz ez].
    destruct (shr_fexp _ _ _ _ _) as [mrs' e'].
    destruct (shr_fexp _ _ _ _ _) as [mrs'' e''].
    destruct (shr_m mrs''); try done. by destruct (_ <=? _).
Qed.

Lemma shl_align_value (m : positive) (e e' : Z) :
  e' ≤ e → Zpos (fst (shl_align m e e')) = Zpos m * 2 ^ (e - e').
Proof.
  intros He. unfold shl_align.
  destruct (e' - e) as [|j|j] eqn:Hj; simpl; try lia.
  - replace (e - e') with 0 by lia. lia.
  - rewrite iter_xO_value. f_equal. f_equal. lia.
Qed.


Lemma abs_normalize_scaled (n k : Z) :
  Z.abs n < 2 ^ 53 → 0 ≤ k ≤ 1000 →
  Float.abs (binary_normalize 53 1024 (n * 2 ^ k) (- k) false)
  = Float.of_Z (Z.abs n).
Proof.
  intros Hn Hk. assert (0 < 2 ^ k) by (apply Z.pow_pos_nonneg; lia).
  destruct (decide (n = 0)) as [->|Hne]; [done|].
  destruct (of_Z_exact (Z.abs n)) as (m' & Hof & Hm'); [lia|lia|].
  rewrite Z.abs_idemp in Hof, Hm'. rewrite Hof.
  destruct (Z.ltb_spec (Z.abs n) 0); [lia|].
  destruct (Z.abs n) as [|q|q] eqn:Hq; try lia.
  assert (∀ p, Zpos p = Zpos q * 2 ^ k →
            Float.abs (binary_round 53 1024 false p (- k))
            = S754_finite false m' (Zdigits2 (Zpos q) - 53)) as Hround.
  { intros p Hp.
    destruct (round_scaled false q p k) as (m & -> & Hm); [lia|lia|done|].
    simpl. do 2 f_equal. simpl in Hm'. lia. }
  unfold binary_normalize.
  destruct (n * 2 ^ k) as [|p|p] eqn:Hp; [nia| |rewrite abs_round_sign];
    apply Hround; nia.
Qed.

(** Subtraction of two integers below [2^52] is exact. *)
Lemma sub_of_Z (a b : Z) :
  Z.abs a < 2 ^ 52 → Z.abs b < 2 ^ 52 →
  Float.abs (Float.sub (Float.of_Z a) (Float.of_Z b))
  = Float.of_Z (Z.abs (a - b)).
Proof.
  intros Ha Hb.
  destruct (decide (a = 0)) as [->|Hane], (decide (b = 0)) as [->|Hbne];
    try done.
  - rewrite Z.sub_0_l, Z.abs_opp, <- abs_of_Z.
    by destruct (of_Z_exact b) as (m & -> & _); [done|lia|].
  - rewrite Z.sub_0_r, <- abs_of_Z.
    by destruct (of_Z_exact a) as (m & -> & _); [done|lia|].
  - destruct (of_Z_exact a) as (ma & -> & Hma); [done|lia|].
    destruct (of_Z_exact b) as (mb & -> & Hmb); [done|lia|].
    destruct (Zdigits2_bounds (Z.abs a)) as (Hda & Hloa & Hhia); [lia|].
    destruct (Zdigits2_bounds (Z.abs b)) as (Hdb & Hlob & Hhib); [lia|].
    set (da := Zdigits2 (Z.abs a)) in *. set (db := Zdigits2 (Z.abs b)) in *.
    assert (da ≤ 52).
    { destruct (Z.le_gt_cases da 52) as [|Hgt]; [done|].
      pose proof (Z.pow_le_mono_r 2 52 (da - 1)). lia. }
    assert (db ≤ 52).
    { destruct (Z.le_gt_cases db 52) as [|Hgt]; [done|].
      pose proof (Z.pow_le_mono_r 2 52 (db - 1)). lia. }
    unfold Float.sub, SFsub.
    set (ez := Z.min (da - 53) (db - 53)).
    rewrite <- (abs_normalize_scaled (a - b) (- ez)) by lia.
    rewrite Z.opp_involutive. do 2 f_equal.
    rewrite !shl_align_value by lia. rewrite Hma, Hmb.
    rewrite <- !Z.mul_assoc, <- !Z.pow_add_r by lia.
    replace (53 - da + (da - 53 - ez)) with (- ez) by lia.
    replace (53 - db + (db - 53 - ez)) with (- ez) by lia.
    destruct (Z.ltb_spec a 0), (Z.ltb_spec b 0); simpl; lia.
Qed.

(** The order of floats on an integer and a float in normal form is the
    order of their exact values. *)
Lemma le_of_Z (u : Z) (tol : spec_float) :
  0 ≤ u < 2 ^ 53 → normal tol →
  Float.le (Float.of_Z u) tol = true ↔ within_tolerance u 1 tol.
Proof.
  intros Hu Hnorm. destruct (decide (u = 0)) as [->|Hne].
  { destruct tol as [[]|[]| |[] m e]; simpl; try done; try lia.
    all: unfold Float.le, SFleb; simpl.
    all: assert (0 < 2 ^ Z.max 0 e) by (apply Z.pow_pos_nonneg; lia).
    all: split; (done || intros; nia). }
  destruct (of_Z_exact u) as (mu & -> & Hmu); [done|lia|].
  destruct (Z.ltb_spec u 0); [lia|]. rewrite Z.abs_eq in * by lia.
  destruct (Zdigits2_bounds u) as (Hd & Hlo & Hhi); [lia|].
  set (d := Zdigits2 u) in *.
  assert (d ≤ 53).
  { destruct (Z.le_gt_cases d 53) as [|Hgt]; [done|].
    pose proof (Z.pow_le_mono_r 2 53 (d - 1)). lia. }
  unfold Float.le, SFleb.
  destruct tol as [[]|[]| |[] m e]; simpl; try done; try lia.
  all: try (split; (done || lia)).
  simpl in Hnorm. pose proof (digits2_pos_bounds m) as Hm.
  rewrite Hnorm in Hm. change (2 ^ (53 - 1)) with (2 ^ 52) in Hm.
  change (PosDef.Pos.compare_cont Eq mu m) with (mu ?= m)%positive.
  assert (0 < 2 ^ (53 - d)) by (apply Z.pow_pos_nonneg; lia).
  destruct (Z.compare_spec (d - 53) e) as [He|He|He].
  - replace (Z.max 0 (- e)) with (53 - d) by lia.
    replace (Z.max 0 e) with 0 by lia.
    rewrite Z.pow_0_r, Z.mul_1_r, <- Hmu.
    destruct (Pos.compare_spec mu m); split; try done; lia.
  - split; [intros _|done].
    destruct (Z.le_gt_cases 0 e).
    + replace (Z.max 0 (- e)) with 0 by lia.
      replace (Z.max 0 e) with e by lia.
      assert (1 ≤ 2 ^ e) by (apply (Z.pow_le_mono_r 2 0 e); lia).
      destruct (decide (d = 53)) as [Hd53|].
      * assert (2 ≤ 2 ^ e) by (apply (Z.pow_le_mono_r 2 1 e); lia). nia.
      * pose proof (Z.pow_le_mono_r 2 d 52). nia.
    + replace (Z.max 0 (- e)) with (- e) by lia.
      replace (Z.max 0 e) with 0 by lia.
      assert (u * 2 ^ (- e) < 2 ^ d * 2 ^ (- e)).
      { apply Z.mul_lt_mono_pos_r; [apply Z.pow_pos_nonneg|]; lia. }
      rewrite <- Z.pow_add_r in * by lia.
      pose proof (Z.pow_le_mono_r 2 (d + - e) 52). lia.
  - split; [done|]. intros Hle. exfalso.
    replace (Z.max 0 (- e)) with (- e) in Hle by lia.
    replace (Z.max 0 e) with 0 in Hle by lia.
    assert (2 ^ (d - 1) * 2 ^ (- e) ≤ u * 2 ^ (- e)).
    { apply Z.mul_le_mono_nonneg_r; [apply Z.pow_nonneg|]; lia. }
    rewrite <- Z.pow_add_r in * by lia.
    pose proof (Z.pow_le_mono_r 2 53 (d - 1 + - e)). lia.
Qed.

End ExactFacts.

(** An absolute value is not below zero: what it is within is not negative. *)
Lemma abs_le_nonneg (z tol : spec_float) :
  Float.le (Float.abs z) tol = true → Float.le Float.zero tol = true.
Proof.
  unfold Float.le, SFleb, SFcompare.
  by destruct z as [[]|[]| |[] mz ez], tol as [[]|[]| |[] mt et].
Qed.

(** ** [make_unique] *)

Lemma chars_app (s t : string) : chars (s +:+ t) = chars s ++ chars t.
Proof. induction s as [|c s IH]; simpl; [done|by rewrite IH]. Qed.

Lemma chars_inj (s t : string) : chars s = chars t → s = t.
Proof.
  intros Heq. rewrite <- (string_of_list_ascii_of_string s).
  rewrite <- (string_of_list_ascii_of_string t). by rewrite Heq.
Qed.

Lemma string_of_uint_digits (d : Decimal.uint) :
  Forall (λ c, isdigit c = true) (chars (NilZero.string_of_uint d)).
Proof.
  assert (Forall (λ c, isdigit c = true) (chars (NilEmpty.string_of_uint d))).
  { induction d; simpl; constructor; done. }
  destruct d; try done. simpl. by repeat constructor.
Qed.

Lemma to_uint_not_Nil (n : N) : N.to_uint n ≠ Decimal.Nil.
Proof. destruct n as [|p]; [done|]. apply Unsigned.to_uint_nonnil. Qed.

Lemma str_of_int_digits (n : Z) (s : string) :
  0 ≤ n → str_of_int n = Ok s → Forall (λ c, isdigit c = true) (chars s).
Proof.
  intros Hn. unfold str_of_int. destruct (_ <=? _); [done|].
  destruct (Z.ltb_spec n 0); [lia|]. intros [= <-]. apply string_of_uint_digits.
Qed.

Lemma str_of_int_inj (m n : Z) (s : string) :
  0 ≤ m → 0 ≤ n → str_of_int m = Ok s → str_of_int n = Ok s → m = n.
Proof.
  intros Hm Hn. unfold str_of_int.
  destruct (_ <=? Z.abs m); [done|]. destruct (_ <=? Z.abs n); [done|].
  destruct (Z.ltb_spec m 0); [lia|]. destruct (Z.ltb_spec n 0); [lia|].
  intros [= <-] [= Heq].
  assert (Some (N.to_uint (Z.abs_N n)) = Some (N.to_uint (Z.abs_N m))) as Hd.
  { rewrite <- !NilZero.usu by apply to_uint_not_Nil. by rewrite Heq. }
  injection Hd as Hd. apply DecimalN.Unsigned.to_uint_inj in Hd. lia.
Qed.

Lemma str_of_int_small (n : Z) :
  Z.abs n < 10 ^ int_max_str_digits → ∃ s, str_of_int n = Ok s.
Proof.
  intros Hn. unfold str_of_int.
  destruct (Z.leb_spec (10 ^ int_max_str_digits) (Z.abs n)); [lia|eauto].
Qed.

(** A label with a suffix determines the label and the suffix. *)
Lemma suffixed_inj (c1 c2 s1 s2 : string) :
  Forall (λ c, isdigit c = true) (chars s1) →
  Forall (λ c, isdigit c = true) (chars s2) →
  c1 +:+ "__" +:+ s1 = c2 +:+ "__" +:+ s2 → c1 = c2 ∧ s1 = s2.
Proof.
  intros H1 H2 Heq. apply (f_equal chars) in Heq.
  rewrite !chars_app in Heq. apply (f_equal (@rev ascii)) in Heq.
  rewrite !rev_app_distr in Heq. simpl in Heq. rewrite <- !app_assoc in Heq.
  simpl in Heq.
  assert (∀ s, Forall (λ c, isdigit c = true) (chars s) →
               ¬ In "_"%char (rev (chars s))) as Hno.
  { intros s Hs Hin%in_rev%list_elem_of_In.
    by apply (proj1 (Forall_forall _ _) Hs) in Hin. }
  apply app_inj_pivot in Heq as [[[? ?]|[? ?]]|[Hs Hc]].
  - by apply Hno in H1.
  - by apply Hno in H2.
  - injection Hc as Hc. apply (f_equal (@rev ascii)) in Hs, Hc.
    rewrite !rev_involutive in Hs, Hc. split; by apply chars_inj.
Qed.

Lemma occurrences_app (c : string) (l1 l2 : list string) :
  occurrences c (l1 ++ l2) = (occurrences c l1 + occurrences c l2)%nat.
Proof. unfold occurrences. by rewrite filter_app, length_app. Qed.

Lemma occurrences_one (c x : string) :
  occurrences c [x] = if decide (x = c) then 1%nat else 0%nat.
Proof. unfold occurrences. rewrite filter_cons, filter_nil. by case_decide. Qed.

Lemma occurrences_zero (c : string) (l : list string) :
  occurrences c l = 0%nat ↔ c ∉ l.
Proof.
  unfold occurrences. induction l as [|x l IH]; [set_solver|].
  rewrite filter_cons. case_decide; simpl; [set_solver|].
  rewrite IH. set_solver.
Qed.

Lemma occurrences_le (c : string) (l : list string) :
  (occurrences c l ≤ length l)%nat.
Proof. apply length_filter. Qed.

(** An earlier position of the same label counts for the later one. *)
Lemma occurrences_take (c : string) (cols : list string) (i j : nat) :
  (i < j)%nat → cols !! i = Some c →
  (occurrences c (take i cols) < occurrences c (take j cols))%nat.
Proof.
  intros Hij Hi.
  assert (take j cols = take i cols ++ c :: take (j - S i) (drop (S i) cols))
    as ->.
  { rewrite <- (take_drop_middle cols i c Hi) at 1.
    rewrite take_app_ge; rewrite length_take_le;
      try (apply Nat.lt_le_incl, lookup_lt_is_Some; eauto); [|lia].
    f_equal. replace (j - i)%nat with (S (j - S i)) by lia. done. }
  rewrite occurrences_app. change (c :: ?l) with ([c] ++ l).
  rewrite occurrences_app, occurrences_one, decide_True by done. lia.
Qed.

Lemma seen_ok_step (done : list string) (seen : gmap string Z) (col : string) :
  seen_ok done seen →
  seen_ok (done ++ [col])
    (<[col := match seen !! col with Some n => n + 1 | None => 0 end]> seen).
Proof.
  intros Hseen c. rewrite occurrences_app, occurrences_one.
  destruct (decide (col = c)) as [->|Hne].
  - rewrite lookup_insert_eq, Hseen.
    destruct (occurrences c done) as [|k]; simpl; [done|].
    replace (k + 1)%nat with (S k) by lia. f_equal. lia.
  - rewrite lookup_insert_ne, Hseen by done. by rewrite Nat.add_0_r.
Qed.

Lemma make_unique_loop_spec (todo done : list string) (seen : gmap string Z)
    (acc out : list string) :
  seen_ok done seen → make_unique_loop todo seen acc = Ok out →
  ∃ new, out = acc ++ new ∧ length new = length todo
         ∧ ∀ i c, todo !! i = Some c →
             ∃ l, new !! i = Some l
                  ∧ label_of c (occurrences c (done ++ take i todo)) l.
Proof.
  revert done seen acc.
  induction todo as [|col todo IH]; intros done seen acc Hseen; simpl.
  - intros [= <-]. exists []. by rewrite app_nil_r.
  - pose proof (seen_ok_step done seen col Hseen) as Hstep.
    pose proof (Hseen col) as Hcol.
    assert (∀ l, label_of col (occurrences col done) l →
              make_unique_loop todo
                (<[col := match seen !! col with Some n => n + 1 | None => 0 end]> seen)
                (acc ++ [l]) = Ok out →
              ∃ new, out = acc ++ new ∧ length new = S (length todo)
                ∧ ∀ i c, (col :: todo) !! i = Some c →
                    ∃ l, new !! i = Some l
                      ∧ label_of c (occurrences c (done ++ take i (col :: todo))) l)
      as Hgo.
    { intros l Hl Hrun.
      apply (IH (done ++ [col])) in Hrun as (new & -> & Hlen & Hnew); [|done].
      exists (l :: new). split; [by rewrite <- app_assoc|].
      split; [simpl; lia|]. intros [|i] c; simpl.
      - intros [= <-]. exists l. by rewrite app_nil_r.
      - intros Hi. destruct (Hnew i c Hi) as (l' & ? & Hl').
        exists l'. split; [done|]. by rewrite <- app_assoc in Hl'. }
    destruct (seen !! col) as [n|] eqn:Hn.
    + intros (s & Hs & Hrun)%bind_Ok.
      destruct (occurrences col done) as [|k] eqn:Hk; [done|].
      injection Hcol as ->.
      apply (Hgo (col +:+ "__" +:+ s)); [|done].
      exists s. split; [|done]. rewrite <- Hs. f_equal. lia.
    + intros Hrun. destruct (occurrences col done) as [|k] eqn:Hk; [|done].
      by apply (Hgo col).
Qed.

Lemma make_unique_loop_total (todo done : list string) (seen : gmap string Z)
    (acc : list string) :
  Z.of_nat (length done + length todo) < 10 ^ int_max_str_digits →
  seen_ok done seen → ∃ out, make_unique_loop todo seen acc = Ok out.
Proof.
  revert done seen acc.
  induction todo as [|col todo IH]; intros done seen acc Hlen Hseen; simpl;
    [eauto|].
  pose proof (seen_ok_step done seen col Hseen) as Hstep.
  pose proof (Hseen col) as Hcol. pose proof (occurrences_le col done).
  simpl in Hlen.
  destruct (seen !! col) as [n|].
  - destruct (occurrences col done) as [|k]; [done|]. injection Hcol as ->.
    destruct (str_of_int_small (Z.of_nat k + 1)) as [s ->]; [lia|]. simpl.
    apply (IH (done ++ [col])); [rewrite length_app; simpl; lia|done].
  - apply (IH (done ++ [col])); [rewrite length_app; simpl; lia|done].
Qed.

Lemma seen_ok_nil : seen_ok [] ∅.
Proof. intros c. by rewrite lookup_empty. Qed.

Lemma make_unique_loop_fresh (todo : list string) (seen : gmap string Z)
    (acc : list string) :
  NoDup todo → (∀ c, c ∈ todo → seen !! c = None) →
  make_unique_loop todo seen acc = Ok (acc ++ todo).
Proof.
  revert seen acc.
  induction todo as [|col todo IH]; intros seen acc Hnd Hseen; simpl.
  - by rewrite app_nil_r.
  - apply NoDup_cons in Hnd as [Hcol Hnd].
    rewrite Hseen by set_solver. rewrite IH, <- app_assoc; [done..|].
    intros c Hc. rewrite lookup_insert_ne by set_solver. apply Hseen.
    set_solver.
Qed.

(** X1. The labels [make_unique] returns, position by position: a label met for
    the first time is kept, and the repeat number [k] of a label gets the
    suffix [__k]. The list keeps its length. *)
Theorem make_unique_labels (columns : list string) :
  Z.of_nat (length columns) < 10 ^ int_max_str_digits →
  ∃ new_cols,
    make_unique columns = Ok new_cols
    ∧ length new_cols = length columns
    ∧ ∀ i col, columns !! i = Some col →
        ∃ l, new_cols !! i = Some l
             ∧ match occurrences col (take i columns) with
               | O => l = col
               | S k => ∃ s, str_of_int (Z.of_nat (S k)) = Ok s
                             ∧ l = col +:+ "__" +:+ s
               end.
Proof.
  intros Hlen. unfold make_unique.
  destruct (make_unique_loop_total columns [] ∅ []) as [out Hout];
    [done|apply seen_ok_nil|].
  exists out. split; [done|].
  apply (make_unique_loop_spec _ []) in Hout as (new & -> & ? & Hnew);
    [|apply seen_ok_nil].
  split; [done|]. intros i col Hi.
  destruct (Hnew i col Hi) as (l & Hl & Hlab). exists l. split; [done|].
  simpl in Hlab. by destruct (occurrences col (take i columns)).
Qed.

(** X2. Labels that are already distinct are returned as they are. *)
Theorem make_unique_distinct_input (columns : list string) :
  NoDup columns → make_unique columns = Ok columns.
Proof.
  intros Hnd. unfold make_unique.
  by rewrite make_unique_loop_fresh.
Qed.

(** X3. When no label of the input is itself another label of the input with a
    suffix [__k], the labels returned are distinct, and a second pass
    leaves them as they are. *)
Theorem make_unique_distinct (columns new_cols : list string) :
  (∀ col k s, col ∈ columns → 0 < k → str_of_int k = Ok s →
     col +:+ "__" +:+ s ∉ columns) →
  make_unique columns = Ok new_cols →
  NoDup new_cols ∧ make_unique new_cols = Ok new_cols.
Proof.
  intros Hclash Hrun.
  assert (NoDup new_cols) as Hnd.
  2: { split; [done|]. unfold make_unique.
       by rewrite make_unique_loop_fresh. }
  apply (make_unique_loop_spec _ []) in Hrun as (new & -> & Hlen & Hnew);
    [|apply seen_ok_nil].
  simpl in *. apply NoDup_alt. intros i j x Hi Hj.
  assert (∀ i j ci cj, (i < j)%nat → columns !! i = Some ci →
            columns !! j = Some cj → ∀ x,
            label_of ci (occurrences ci (take i columns)) x →
            label_of cj (occurrences cj (take j columns)) x → False) as Hlt.
  { clear i j x Hi Hj. intros i j ci cj Hij Hci Hcj x Hxi Hxj.
    pose proof (occurrences_take ci columns i j Hij Hci) as Hocc.
    assert (ci ∈ columns) by (by eapply list_elem_of_lookup_2).
    assert (cj ∈ columns) by (by eapply list_elem_of_lookup_2).
    destruct (occurrences ci (take i columns)) as [|ki] eqn:Hki,
             (occurrences cj (take j columns)) as [|kj] eqn:Hkj; simpl in *.
    - subst x. subst cj. lia.
    - destruct Hxj as (s & Hs & ->). subst ci.
      apply (Hclash cj (Z.of_nat (S kj)) s); [done|lia|done|done].
    - destruct Hxi as (s & Hs & ->). subst cj.
      apply (Hclash ci (Z.of_nat (S ki)) s); [done|lia|done|done].
    - destruct Hxi as (si & Hsi & ->). destruct Hxj as (sj & Hsj & Heq).
      apply suffixed_inj in Heq as [-> ->];
        [|by eapply str_of_int_digits; [|done]; lia..].
      pose proof (str_of_int_inj (Z.of_nat (S ki)) (Z.of_nat (S kj)) sj
                    ltac:(lia) ltac:(lia) Hsi Hsj).
      rewrite Hkj in Hocc. lia. }
  assert (is_Some (columns !! i)) as [ci Hci].
  { apply lookup_lt_is_Some. rewrite <- Hlen. by eapply lookup_lt_Some. }
  assert (is_Some (columns !! j)) as [cj Hcj].
  { apply lookup_lt_is_Some. rewrite <- Hlen. by eapply lookup_lt_Some. }
  destruct (Hnew i ci Hci) as (li & Hli & Hlabi).
  destruct (Hnew j cj Hcj) as (lj & Hlj & Hlabj).
  rewrite Hi in Hli. rewrite Hj in Hlj. injection Hli as <-. injection Hlj as <-.
  destruct (Nat.lt_trichotomy i j) as [Hij|[->|Hij]]; [|done|].
  - destruct (Hlt i j ci cj Hij Hci Hcj x Hlabi Hlabj).
  - destruct (Hlt j i cj ci Hij Hcj Hci x Hlabj Hlabi).
Qed.

(** X4. The labels returned are not always distinct: a label that already has
    the form of a renamed one collides with the renamed one. *)
Theorem make_unique_collision (col : string) :
  make_unique [col; col; col +:+ "__1"]
  = Ok [col; col +:+ "__1"; col +:+ "__1"].
Proof.
  unfold make_unique. simpl. rewrite lookup_empty, lookup_insert_eq. simpl.
  assert (col +:+ "__1" ≠ col) as Hne.
  { intros Heq%(f_equal chars)%(f_equal length).
    rewrite chars_app, length_app in Heq. simpl in Heq. lia. }
  rewrite !lookup_insert_ne, lookup_empty by done. done.
Qed.

Section EngineMore.

Variable date_parse : string → option datetime.
Variable float_repr : spec_float → string.

(** *** Swapping the two values *)

Lemma compare_numbers_comm (a b : cell) (tol : spec_float) :
  try_except (compare_numbers a b tol) (Ok (false, "num parse fail"))
  = try_except (compare_numbers b a tol) (Ok (false, "num parse fail")).
Proof.
  unfold compare_numbers.
  pose proof (py_float_not_Diverge a). pose proof (py_float_not_Diverge b).
  destruct (py_float a) as [x| |], (py_float b) as [y| |]; simpl; try done.
  by rewrite abs_sub_comm.
Qed.

(** X7. In the numeric rule, and in the date rule when both values parse, the
    result does not depend on which value is the left one. *)
Theorem compare_symmetric (a b : cell) (tol fuzzy : spec_float) :
  isna a = false → isna b = false →
  detect_type date_parse float_repr a = Ok (Some "number")
  ∨ detect_type date_parse float_repr b = Ok (Some "number")
  ∨ (is_ok (parse_date date_parse float_repr a) = true
     ∧ is_ok (parse_date date_parse float_repr b) = true) →
  compare date_parse float_repr a b tol fuzzy
  = compare date_parse float_repr b a tol fuzzy.
Proof.
  intros Ha Hb Hrule. rewrite !detect_type_number in Hrule by done.
  rewrite !compare_present by done.
  rewrite (orb_comm (is_ok (py_float b))).
  destruct (is_ok (py_float a) || is_ok (py_float b)) eqn:Hnum.
  { apply compare_numbers_comm. }
  apply orb_false_elim in Hnum as [Hfa Hfb].
  destruct Hrule as [Hf|[Hf|[Hda Hdb]]];
    [by rewrite Hf in Hfa|by rewrite Hf in Hfb|].
  rewrite Hda, Hdb. simpl. unfold compare_dates.
  destruct (parse_date date_parse float_repr a) as [da| |]; [|done..].
  destruct (parse_date date_parse float_repr b) as [db| |]; [|done..].
  simpl. repeat case_decide; done.
Qed.

(** *** Looser tolerances *)

Ltac settled :=
  eexists _, _; split; [reflexivity|]; split; intros ?; first [done | by split].

Lemma compare_numbers_loosen (a b : cell) (tol tol' : spec_float)
    (ok : bool) (why : string) :
  Float.le tol tol' = true →
  try_except (compare_numbers a b tol) (Ok (false, "num parse fail"))
  = Ok (ok, why) →
  ∃ ok' why',
    try_except (compare_numbers a b tol') (Ok (false, "num parse fail"))
    = Ok (ok', why')
    ∧ (ok = true → ok' = true ∧ why' = why)
    ∧ (ok' = false → ok = false ∧ why' = why).
Proof.
  intros Htol. unfold compare_numbers.
  destruct (py_float a) as [x| |], (py_float b) as [y| |]; simpl; try done;
    try (intros [= <- <-]; settled).
  destruct (Float.le (Float.abs _) tol) eqn:Hle; simpl; intros [= <- <-].
  - rewrite (le_trans _ _ _ Hle Htol). settled.
  - destruct (Float.le (Float.abs _) tol'); settled.
Qed.

Lemma compare_strings_loosen (a b : cell) (fuzzy fuzzy' : spec_float)
    (ok : bool) (why : string) :
  Float.le fuzzy' fuzzy = true →
  compare_strings float_repr a b fuzzy = Ok (ok, why) →
  ∃ ok' why',
    compare_strings float_repr a b fuzzy' = Ok (ok', why')
    ∧ (ok = true → ok' = true ∧ why' = why)
    ∧ (ok' = false → ok = false ∧ why' = why).
Proof.
  intros Hfuzzy. unfold compare_strings.
  destruct (py_str float_repr a) as [sa| |]; simpl; try done.
  destruct (py_str float_repr b) as [sb| |]; simpl; try done.
  case_decide; [intros [= <- <-]; settled|].
  destruct (SequenceMatcher.ratio _ _) as [r| |]; simpl; try done.
  intros [= <- <-]. eexists _, _. split; [done|]. unfold Float.ge.
  split.
  - intros Hr. split; [|done]. by apply (le_trans _ _ _ Hfuzzy).
  - intros Hr. split; [|done]. apply not_true_is_false. intros Hr'.
    apply (le_trans _ _ _ Hfuzzy) in Hr'. unfold Float.le in Hr'. congruence.
Qed.

(** How the result moves when the numeric tolerance grows and the fuzzy
    threshold drops: an accepted pair stays accepted with its reason, and a
    pair that is still rejected was rejected before, with the same reason. *)
Lemma compare_tolerances (a b : cell) (tol tol' fuzzy fuzzy' : spec_float)
    (ok : bool) (why : string) :
  Float.le tol tol' = true → Float.le fuzzy' fuzzy = true →
  compare date_parse float_repr a b tol fuzzy = Ok (ok, why) →
  ∃ ok' why',
    compare date_parse float_repr a b tol' fuzzy' = Ok (ok', why')
    ∧ (ok = true → ok' = true ∧ why' = why)
    ∧ (ok' = false → ok = false ∧ why' = why).
Proof.
  intros Htol Hfuzzy.
  destruct (isna a) eqn:Ha; [|destruct (isna b) eqn:Hb].
  - unfold compare. rewrite Ha. destruct (isna b); simpl;
      intros [= <- <-]; settled.
  - unfold compare. rewrite Ha, Hb. simpl.
    intros [= <- <-]; settled.
  - rewrite !compare_present by done.
    destruct (_ || _); [by apply compare_numbers_loosen|].
    destruct (_ || _); [|by apply compare_strings_loosen].
    destruct (compare_dates date_parse float_repr a b) as [[ok0 why0]| |];
      simpl; [|by apply compare_strings_loosen|done].
    intros [= <- <-]; settled.
Qed.

(** X9. A pair that [compare] accepts is still accepted, for the same reason,
    under a larger numeric tolerance and a smaller fuzzy threshold. *)
Theorem compare_loosen (a b : cell) (tol tol' fuzzy fuzzy' : spec_float)
    (why : string) :
  Float.le tol tol' = true → Float.le fuzzy' fuzzy = true →
  compare date_parse float_repr a b tol fuzzy = Ok (true, why) →
  compare date_parse float_repr a b tol' fuzzy' = Ok (true, why).
Proof.
  intros Htol Hfuzzy Hrun.
  destruct (compare_tolerances a b tol tol' fuzzy fuzzy' true why
              Htol Hfuzzy Hrun) as (ok' & why' & -> & Hok & _).
  by destruct Hok as [-> ->].
Qed.

(** *** The results [compare] can give *)

(** X10. Every result of [compare] is one of nine fixed pairs of a verdict and a
    reason, or the verdict [ratio >= fuzzy] with the reason
    [string mismatch] and the ratio. *)
Theorem compare_results (a b : cell) (tol fuzzy : spec_float)
    (ok : bool) (why : string) :
  compare date_parse float_repr a b tol fuzzy = Ok (ok, why) →
  (ok, why) ∈ [(true, "empty"); (false, "left empty"); (false, "right empty");
               (true, "num ok"); (false, "num mismatch");
               (false, "num parse fail"); (true, "date ok");
               (false, "date mismatch"); (true, "string match")]
  ∨ ∃ ratio, ok = Float.ge ratio fuzzy
             ∧ why = "string mismatch (" +:+ format_2f ratio +:+ ")".
Proof.
  assert (∀ v, compare_strings float_repr a b fuzzy = Ok v →
            v = (true, "string match")
            ∨ ∃ ratio, v = (Float.ge ratio fuzzy,
                            "string mismatch (" +:+ format_2f ratio +:+ ")"))
    as Htext.
  { intros v. unfold compare_strings.
    destruct (py_str float_repr a) as [sa| |]; simpl; try done.
    destruct (py_str float_repr b) as [sb| |]; simpl; try done.
    case_decide; [intros [= <-]; by left|].
    destruct (SequenceMatcher.ratio _ _) as [r| |]; simpl; try done.
    intros [= <-]. right. by exists r. }
  assert (compare_strings float_repr a b fuzzy = Ok (ok, why) →
          (ok, why) ∈ [(true, "empty"); (false, "left empty");
                       (false, "right empty"); (true, "num ok");
                       (false, "num mismatch"); (false, "num parse fail");
                       (true, "date ok"); (false, "date mismatch");
                       (true, "string match")]
          ∨ ∃ ratio, ok = Float.ge ratio fuzzy
               ∧ why = "string mismatch (" +:+ format_2f ratio +:+ ")")
    as Htext'.
  { intros [[= -> ->]|[r [= -> ->]]]%Htext; [left; set_solver|right; eauto]. }
  destruct (isna a) eqn:Ha; [|destruct (isna b) eqn:Hb].
  - unfold compare. rewrite Ha. destruct (isna b); simpl;
      intros [= <- <-]; left; set_solver.
  - unfold compare. rewrite Ha, Hb. simpl. intros [= <- <-]; left; set_solver.
  - rewrite compare_present by done.
    destruct (_ || _).
    { unfold compare_numbers.
      destruct (py_float a) as [x| |], (py_float b) as [y| |]; simpl;
        try done; try (intros [= <- <-]; left; set_solver).
      destruct (Float.le _ tol); intros [= <- <-]; left; set_solver. }
    destruct (_ || _); [|done].
    unfold compare_dates.
    destruct (parse_date date_parse float_repr a) as [da| |]; simpl;
      try done.
    destruct (parse_date date_parse float_repr b) as [db| |]; simpl;
      try done.
    case_decide; intros [= <- <-]; left; set_solver.
Qed.

(** *** Numbers that are not finite *)

(** X6. An infinity or a NaN read from text never matches itself: the
    difference is a NaN, and a NaN is within no tolerance. *)
Theorem compare_not_finite (a b : cell) (x tol fuzzy : spec_float) :
  isna a = false → isna b = false →
  py_float a = Ok x → py_float b = Ok x → Float.is_finite x = false →
  compare date_parse float_repr a b tol fuzzy = Ok (false, "num mismatch").
Proof.
  intros Ha Hb Hx Hy Hinf. rewrite compare_present, Hx by done. simpl.
  unfold compare_numbers. rewrite Hx, Hy. simpl.
  by rewrite sub_not_finite.
Qed.

(** *** An exception that escapes *)

(** X12. The text rule is outside every [try]: when [str()] of the left value
    raises, and [compare] reaches the text rule, the exception leaves
    [compare]. *)
Theorem compare_raises (a b : cell) (tol fuzzy : spec_float) (e : exc) :
  isna a = false → isna b = false →
  is_ok (py_float a) = false → is_ok (py_float b) = false →
  py_str float_repr a = Raise e →
  compare date_parse float_repr a b tol fuzzy = Raise e.
Proof.
  intros Ha Hb Hfa Hfb Hs. rewrite compare_text; try done.
  - unfold compare_strings. by rewrite Hs.
  - unfold parse_date. by rewrite Hs.
Qed.

End EngineMore.

(** ** Sequences with nothing in common *)

Section MatcherMore.
Import SequenceMatcher.
Context {A : Type} `{Countable A}.
Local Open Scope nat_scope.

Lemma matches_disjoint (a b : list A) :
  (∀ x, x ∈ a → x ∉ b) → matches a b = Some 0.
Proof.
  intros Hdis. unfold matches, get_matching_blocks.
  replace (2 * length a + 1) with (S (2 * length a)) by lia.
  cbn [blocks_loop].
  pose proof (find_longest_match_ok a b (chain_b b) 0 (length a) 0 (length b)
                (chain_b_sound b) ltac:(lia) ltac:(lia)) as Hm.
  destruct (find_longest_match a b (chain_b b) 0 (length a) 0 (length b))
    as [[i j] k].
  destruct k as [|k].
  - by destruct (2 * length a).
  - exfalso. destruct Hm as (_ & Hi & _ & _ & Hk).
    specialize (Hk 0 ltac:(lia)). rewrite !Nat.add_0_r in Hk.
    destruct (lookup_lt_is_Some_2 a i) as [x Hx]; [lia|].
    apply (Hdis x); [by eapply list_elem_of_lookup_2|].
    rewrite Hx in Hk. by eapply list_elem_of_lookup_2.
Qed.

End MatcherMore.

(** ** The range of the ratio *)

Section RatioFacts.
Local Open Scope Z_scope.

Lemma calculate_ratio_zero (len : nat) :
  (0 < len)%nat → Z.of_nat len < 2 ^ 53 →
  SequenceMatcher.calculate_ratio 0 len = Float.zero.
Proof.
  intros Hpos Hlen. unfold SequenceMatcher.calculate_ratio.
  destruct len as [|k] eqn:Hk; [lia|]. rewrite <- Hk.
  by destruct (of_Z_normal (Z.of_nat len)) as (m & -> & _); [lia|].
Qed.

(** The ratio is a float from [0.0] to [1.0], and [1.0] only for a full
    match. *)
Lemma calculate_ratio_bounds (m len : nat) :
  (2 * m ≤ len)%nat → Z.of_nat len < 2 ^ 53 →
  Float.le Float.zero (SequenceMatcher.calculate_ratio m len) = true
  ∧ Float.le (SequenceMatcher.calculate_ratio m len) Float.one = true
  ∧ (Float.le Float.one (SequenceMatcher.calculate_ratio m len) = true →
     (2 * m = len)%nat).
Proof.
  intros Hm Hlen.
  destruct (decide (2 * m = len)%nat) as [<-|Hne].
  { replace (2 * m)%nat with (m + m)%nat by lia.
    rewrite calculate_ratio_full by lia.
    split; [reflexivity|]. split; [reflexivity|]. intros _. lia. }
  destruct m as [|m'].
  { rewrite calculate_ratio_zero by lia.
    split; [reflexivity|]. split; [reflexivity|]. intros [=]. }
  set (m := S m') in *.
  unfold SequenceMatcher.calculate_ratio.
  destruct len as [|k] eqn:Hk; [lia|]. rewrite <- Hk in *. clear k Hk.
  destruct (of_Z_normal (Z.of_nat len)) as (my & -> & Hmy & Hdy); [lia|].
  destruct (double_of_Z (Z.of_nat m)) as (mx & -> & Hmx & Hdx); [lia..|].
  pose proof (Zdigits2_mono (2 * Z.of_nat m) (Z.of_nat len)) as Hmono.
  destruct (Zdigits2_bounds (2 * Z.of_nat m)) as (Hd1 & _); [lia|].
  destruct (Zdigits2_bounds (Z.of_nat len)) as (Hd2 & _ & Hhi); [lia|].
  assert (Zdigits2 (Z.of_nat len) ≤ 53) as Hd2'.
  { destruct (Z.le_gt_cases (Zdigits2 (Z.of_nat len)) 53) as [|Hgt]; [done|].
    pose proof (Z.pow_le_mono_r 2 53 (Zdigits2 (Z.of_nat len) - 1)).
    destruct (Zdigits2_bounds (Z.of_nat len)); lia. }
  destruct (div_exponent mx my (Zdigits2 (2 * Z.of_nat m) - 53)
              (Zdigits2 (Z.of_nat len) - 53))
    as (r & e & -> & Hcase); [done|done|lia|].
  assert (e < -52) as He.
  { destruct Hcase as [->|[-> Hord]]; [lia|].
    destruct (decide (Zdigits2 (2 * Z.of_nat m) = Zdigits2 (Z.of_nat len)))
      as [Heq|]; [|lia].
    rewrite Hmx, Hmy, Heq in Hord.
    assert (0 < 2 ^ (53 - Zdigits2 (Z.of_nat len)))
      by (apply Z.pow_pos_nonneg; lia).
    apply Z.mul_le_mono_pos_r in Hord; lia. }
  unfold Float.le, SFleb, Float.one, SFcompare.
  destruct (Z.compare_spec e (-52)); try lia.
  destruct (Z.compare_spec (-52) e); try lia. done.
Qed.

End RatioFacts.

Section TextMore.

Variable date_parse : string → option datetime.
Variable float_repr : spec_float → string.

(** X14. The ratio of two strings lies between [0.0] and [1.0]. *)
Theorem ratio_bounds (s t : string) :
  Z.of_nat (String.length s + String.length t) < 2 ^ 53 →
  ∃ r, SequenceMatcher.ratio (chars s) (chars t) = Ok r
       ∧ Float.le Float.zero r = true ∧ Float.le r Float.one = true.
Proof.
  intros Hlen. unfold SequenceMatcher.ratio.
  destruct (matches_ok (chars s) (chars t)) as (m & -> & Hm1 & Hm2 & _).
  rewrite !length_chars in *. eexists. split; [done|].
  destruct (calculate_ratio_bounds m (String.length s + String.length t))
    as (? & ? & _); [lia|lia|done].
Qed.

Lemma lower_length (s : string) : String.length (lower s) = String.length s.
Proof.
  unfold lower. rewrite <- length_chars, list_ascii_of_string_of_list_ascii.
  by rewrite length_map, length_chars.
Qed.

(** X15. At the threshold [1.0], the text rule accepts exactly the pairs whose
    trimmed forms are equal once lower-cased. *)
Theorem compare_text_strict (a b : cell) (tol : spec_float) (sa sb : string) :
  detect_type date_parse float_repr a = Ok (Some "string") →
  detect_type date_parse float_repr b = Ok (Some "string") →
  py_str float_repr a = Ok sa → py_str float_repr b = Ok sb →
  Z.of_nat (String.length (strip sa) + String.length (strip sb)) < 2 ^ 53 →
  (∃ why, compare date_parse float_repr a b tol Float.one = Ok (true, why))
  ↔ lower (strip sa) = lower (strip sb).
Proof.
  intros Hta Htb Hsa Hsb Hlen.
  rewrite detect_type_eq in Hta, Htb.
  assert (isna a = false ∧ is_ok (py_float a) = false
          ∧ is_ok (parse_date date_parse float_repr a) = false)
    as (Ha & Hfa & Hda) by (repeat case_match; naive_solver).
  assert (isna b = false ∧ is_ok (py_float b) = false
          ∧ is_ok (parse_date date_parse float_repr b) = false)
    as (Hb & Hfb & Hdb) by (repeat case_match; naive_solver).
  rewrite compare_text by (done || by rewrite Hda).
  destruct (compare_strings_eq float_repr a b Float.one sa sb Hsa Hsb)
    as (r & Hr & ->).
  case_decide as Heq; [split; [by rewrite Heq|eauto]|].
  unfold SequenceMatcher.ratio in Hr.
  destruct (matches_ok (chars (lower (strip sa))) (chars (lower (strip sb))))
    as (m & Hm & Hm1 & Hm2 & Hfull).
  rewrite Hm in Hr. injection Hr as <-.
  rewrite !length_chars, !lower_length in *.
  destruct (calculate_ratio_bounds m
              (String.length (strip sa) + String.length (strip sb)))
    as (_ & _ & Hone); [lia|lia|].
  split.
  - intros [why [= Hge _]]. apply Hone in Hge.
    apply chars_inj, Hfull; lia.
  - intros Hlow. exists ("string mismatch (1.00)"%string).
    rewrite <- Hlow in Hm. rewrite matches_diag in Hm. injection Hm as <-.
    rewrite length_chars, lower_length.
    assert (String.length (strip sb) = String.length (strip sa)) as Hsame.
    { by rewrite <- (lower_length (strip sb)), <- Hlow, lower_length. }
    rewrite Hsame in *. by rewrite calculate_ratio_full by lia.
Qed.

(** X16. Two text values without a character in common, letter case apart, get
    the ratio [0.0]: the reason is [string mismatch (0.00)], and the verdict
    is [0.0 >= fuzzy]. *)
Theorem compare_nothing_in_common (a b : cell) (tol fuzzy : spec_float)
    (sa sb : string) :
  detect_type date_parse float_repr a = Ok (Some "string") →
  detect_type date_parse float_repr b = Ok (Some "string") →
  py_str float_repr a = Ok sa → py_str float_repr b = Ok sb →
  strip sa ≠ strip sb →
  (∀ c, c ∈ chars (lower (strip sa)) → c ∉ chars (lower (strip sb))) →
  Z.of_nat (String.length (strip sa) + String.length (strip sb)) < 2 ^ 53 →
  compare date_parse float_repr a b tol fuzzy
  = Ok (Float.ge Float.zero fuzzy, "string mismatch (0.00)").
Proof.
  intros Hta Htb Hsa Hsb Hne Hdis Hlen.
  rewrite detect_type_eq in Hta, Htb.
  assert (isna a = false ∧ is_ok (py_float a) = false
          ∧ is_ok (parse_date date_parse float_repr a) = false)
    as (Ha & Hfa & Hda) by (repeat case_match; naive_solver).
  assert (isna b = false ∧ is_ok (py_float b) = false
          ∧ is_ok (parse_date date_parse float_repr b) = false)
    as (Hb & Hfb & Hdb) by (repeat case_match; naive_solver).
  rewrite compare_text by (done || by rewrite Hda).
  destruct (compare_strings_eq float_repr a b fuzzy sa sb Hsa Hsb)
    as (r & Hr & ->).
  rewrite decide_False by done.
  unfold SequenceMatcher.ratio in Hr.
  rewrite matches_disjoint in Hr by done. injection Hr as <-.
  rewrite !length_chars, !lower_length.
  rewrite calculate_ratio_zero; [done| |lia].
  destruct (strip sa) as [|c u] eqn:Hu, (strip sb) as [|d v] eqn:Hv;
    simpl; try lia. done.
Qed.

End TextMore.

(** ** White space around a text *)

Lemma lstrip_chars_blank (ws l : list ascii) :
  Forall (λ c, isspace c = true) ws → lstrip_chars (ws ++ l) = lstrip_chars l.
Proof. induction 1 as [|c ws Hc _ IH]; simpl; [done|by rewrite Hc]. Qed.

Lemma lstrip_chars_app (l ws : list ascii) :
  lstrip_chars l ≠ [] → lstrip_chars (l ++ ws) = lstrip_chars l ++ ws.
Proof.
  induction l as [|c l IH]; simpl; [done|]. by destruct (isspace c).
Qed.

Lemma lstrip_chars_all_blank (l ws : list ascii) :
  lstrip_chars l = [] → Forall (λ c, isspace c = true) ws →
  lstrip_chars (l ++ ws) = [].
Proof.
  intros Hl Hws. induction l as [|c l IH]; simpl in *.
  - rewrite <- (app_nil_r ws). by rewrite lstrip_chars_blank.
  - destruct (isspace c); [auto|done].
Qed.

Lemma strip_chars_padding (ws1 ws2 l : list ascii) :
  Forall (λ c, isspace c = true) ws1 → Forall (λ c, isspace c = true) ws2 →
  strip_chars (ws1 ++ l ++ ws2) = strip_chars l.
Proof.
  intros H1 H2. unfold strip_chars. rewrite lstrip_chars_blank by done.
  destruct (lstrip_chars l) as [|c l'] eqn:Hl.
  - by rewrite lstrip_chars_all_blank.
  - rewrite lstrip_chars_app by (by rewrite Hl). rewrite Hl, rev_app_distr.
    rewrite lstrip_chars_blank; [done|]. by apply Forall_rev.
Qed.

Lemma strip_padding (ws1 ws2 s : string) :
  Forall (λ c, isspace c = true) (chars ws1) →
  Forall (λ c, isspace c = true) (chars ws2) →
  strip (ws1 +:+ s +:+ ws2) = strip s.
Proof.
  intros H1 H2. unfold strip. rewrite !chars_app.
  by rewrite strip_chars_padding.
Qed.

Section EngineText.

Variable date_parse : string → option datetime.
Variable float_repr : spec_float → string.

(** X17. White space around a text does not count in the text rule: a text
    value and the same text with white space before and after it get the
    same result against any other value, when both are classified as
    text. *)
Theorem compare_text_padding (s ws1 ws2 : string) (b : cell)
    (tol fuzzy : spec_float) :
  Forall (λ c, isspace c = true) (chars ws1) →
  Forall (λ c, isspace c = true) (chars ws2) →
  detect_type date_parse float_repr (VStr s) = Ok (Some "string") →
  detect_type date_parse float_repr (VStr (ws1 +:+ s +:+ ws2))
  = Ok (Some "string") →
  detect_type date_parse float_repr b = Ok (Some "string") →
  compare date_parse float_repr (VStr (ws1 +:+ s +:+ ws2)) b tol fuzzy
  = compare date_parse float_repr (VStr s) b tol fuzzy.
Proof.
  intros H1 H2 Hs Hp Hb.
  rewrite detect_type_eq in Hs, Hp, Hb.
  assert (is_ok (py_float (VStr s)) = false
          ∧ is_ok (parse_date date_parse float_repr (VStr s)) = false)
    as (Hfs & Hds) by (repeat case_match; naive_solver).
  assert (is_ok (py_float (VStr (ws1 +:+ s +:+ ws2))) = false
          ∧ is_ok (parse_date date_parse float_repr
                     (VStr (ws1 +:+ s +:+ ws2))) = false)
    as (Hfp & Hdp) by (repeat case_match; naive_solver).
  assert (isna b = false ∧ is_ok (py_float b) = false)
    as (Hnb & Hfb) by (repeat case_match; naive_solver).
  rewrite !compare_text by (done || by rewrite ?Hds, ?Hdp).
  unfold compare_strings. simpl.
  destruct (py_str float_repr b) as [sb| |]; simpl; try done.
  by rewrite strip_padding.
Qed.

(** X11. What stands behind an accepted pair: two absent values; two values that
    [float()] converts, within the tolerance; two values with the same
    calendar date; two texts that are equal once trimmed; or two texts whose
    ratio reaches the threshold. *)
Theorem compare_accepts (a b : cell) (tol fuzzy : spec_float) (why : string) :
  compare date_parse float_repr a b tol fuzzy = Ok (true, why) →
  (why = "empty" ∧ isna a = true ∧ isna b = true)
  ∨ (why = "num ok"
     ∧ ∃ x y, py_float a = Ok x ∧ py_float b = Ok y
              ∧ Float.le (Float.abs (Float.sub x y)) tol = true)
  ∨ (why = "date ok"
     ∧ ∃ da db, parse_date date_parse float_repr a = Ok da
                ∧ parse_date date_parse float_repr b = Ok db
                ∧ date da = date db)
  ∨ (∃ sa sb, py_str float_repr a = Ok sa ∧ py_str float_repr b = Ok sb
       ∧ ((why = "string match" ∧ strip sa = strip sb)
          ∨ ∃ r, SequenceMatcher.ratio (chars (lower (strip sa)))
                                       (chars (lower (strip sb))) = Ok r
                 ∧ Float.ge r fuzzy = true
                 ∧ why = "string mismatch (" +:+ format_2f r +:+ ")")).
Proof.
  assert (compare_strings float_repr a b fuzzy = Ok (true, why) →
          ∃ sa sb, py_str float_repr a = Ok sa ∧ py_str float_repr b = Ok sb
            ∧ ((why = "string match" ∧ strip sa = strip sb)
               ∨ ∃ r, SequenceMatcher.ratio (chars (lower (strip sa)))
                        (chars (lower (strip sb))) = Ok r
                      ∧ Float.ge r fuzzy = true
                      ∧ why = "string mismatch (" +:+ format_2f r +:+ ")"))
    as Htext.
  { unfold compare_strings.
    destruct (py_str float_repr a) as [sa| |]; simpl; try done.
    destruct (py_str float_repr b) as [sb| |]; simpl; try done.
    intros Hrun. exists sa, sb. split; [done|]. split; [done|].
    case_decide; [injection Hrun as <-; by left|].
    destruct (SequenceMatcher.ratio _ _) as [r| |]; simpl in *; try done.
    injection Hrun as Hge <-. right. by exists r. }
  destruct (isna a) eqn:Ha; [|destruct (isna b) eqn:Hb].
  - unfold compare. rewrite Ha. destruct (isna b); simpl; [|done].
    intros [= <-]. by left.
  - unfold compare. by rewrite Ha, Hb.
  - rewrite compare_present by done.
    destruct (_ || _).
    { unfold compare_numbers.
      destruct (py_float a) as [x| |], (py_float b) as [y| |]; simpl;
        try done.
      destruct (Float.le (Float.abs _) tol) eqn:Hle; [|done].
      intros [= <-]. right. left. split; [done|]. by exists x, y. }
    destruct (_ || _); [|intros Hrun; do 3 right; by apply Htext].
    unfold compare_dates.
    destruct (parse_date date_parse float_repr a) as [da| |]; simpl;
      try done; try (intros Hrun; do 3 right; by apply Htext).
    destruct (parse_date date_parse float_repr b) as [db| |]; simpl;
      try done; try (intros Hrun; do 3 right; by apply Htext).
    case_decide; [|done]. intros [= <-]. right. right. left.
    split; [done|]. by exists da, db.
Qed.

End EngineText.

(** ** More on the validation loop *)

Section ValidationMore.

Variable date_parse : string → option datetime.
Variable float_repr : spec_float → string.
Variable df : dataframe.

(** *** The accumulator *)

Lemma check_pairs_acc (tol fuzzy : spec_float) (r : Z)
    (mapping : list (string * string)) (acc : list mismatch) :
  check_pairs date_parse float_repr df tol fuzzy r mapping acc
  = (new ← check_pairs date_parse float_repr df tol fuzzy r mapping [];
     mret (acc ++ new)).
Proof.
  revert acc. induction mapping as [|[lc rc] mapping IH]; intros acc; simpl.
  - by rewrite app_nil_r.
  - destruct (iloc df r ≫= λ s, getitem s lc) as [x| |]; simpl; try done.
    destruct (iloc df r ≫= λ s, getitem s rc) as [y| |]; simpl; try done.
    destruct (compare date_parse float_repr x y tol fuzzy) as [[ok why]| |];
      simpl; try done.
    destruct ok; [apply IH|].
    rewrite IH, (IH [_]).
    destruct (check_pairs date_parse float_repr df tol fuzzy r mapping [])
      as [new| |]; simpl; try done.
    by rewrite <- app_assoc.
Qed.

Lemma check_rows_acc (tol fuzzy : spec_float)
    (mapping : list (string * string)) (rows : list Z) (acc : list mismatch) :
  check_rows date_parse float_repr df tol fuzzy mapping rows acc
  = (new ← check_rows date_parse float_repr df tol fuzzy mapping rows [];
     mret (acc ++ new)).
Proof.
  revert acc. induction rows as [|r rows IH]; intros acc; simpl.
  - by rewrite app_nil_r.
  - rewrite check_pairs_acc.
    destruct (check_pairs date_parse float_repr df tol fuzzy r mapping [])
      as [pass| |]; simpl; try done.
    rewrite IH, (IH pass).
    destruct (check_rows date_parse float_repr df tol fuzzy mapping rows [])
      as [new| |]; simpl; try done.
    by rewrite app_assoc.
Qed.

Lemma check_rows_app (tol fuzzy : spec_float)
    (mapping : list (string * string)) (rows1 rows2 : list Z)
    (acc : list mismatch) :
  check_rows date_parse float_repr df tol fuzzy mapping (rows1 ++ rows2) acc
  = (ms ← check_rows date_parse float_repr df tol fuzzy mapping rows1 acc;
     check_rows date_parse float_repr df tol fuzzy mapping rows2 ms).
Proof.
  revert acc. induction rows1 as [|r rows1 IH]; intros acc; simpl; [done|].
  destruct (check_pairs date_parse float_repr df tol fuzzy r mapping acc)
    as [pass| |]; simpl; try done.
Qed.

Lemma range_split (start mid stop : Z) :
  start ≤ mid ≤ stop → range start stop = range start mid ++ range mid stop.
Proof.
  intros Hmid. unfold range.
  replace (stop - start) with ((mid - start) + (stop - mid)) by lia.
  rewrite seqZ_app by lia. do 2 f_equal. lia.
Qed.

Lemma range_cons (start stop : Z) :
  start < stop → range start stop = start :: range (start + 1) stop.
Proof.
  intros Hlt. unfold range. rewrite seqZ_cons by lia.
  f_equal. unfold Z.succ, Z.pred. f_equal. lia.
Qed.

(** *** Ranges *)

(** X18. A range whose end lies before its start visits no row: the run reads no
    cell, returns no mismatch, and its [total_checks] is zero or negative. *)
Theorem validate_inverted_range (start_row end_row : Z)
    (mapping : list (string * string)) (tol fuzzy : spec_float) :
  end_row < start_row →
  validate date_parse float_repr df start_row end_row mapping tol fuzzy
  = Ok ([], (end_row - start_row + 1) * Z.of_nat (length mapping))
  ∧ (end_row - start_row + 1) * Z.of_nat (length mapping) ≤ 0.
Proof.
  intros Hlt. unfold validate, range. rewrite seqZ_nil by lia. split; [done|].
  nia.
Qed.

(** X19. A range that reaches past the last row of the frame stops the run with
    an [IndexError], once the rows before it went through. *)
Theorem validate_past_the_end (start_row end_row : Z)
    (mapping : list (string * string)) (tol fuzzy : spec_float) :
  mapping ≠ [] → start_row ≤ end_row → Z.of_nat (length df) ≤ end_row →
  grid_ok df start_row (Z.of_nat (length df) - 1) mapping →
  validate date_parse float_repr df start_row end_row mapping tol fuzzy
  = Raise IndexError.
Proof.
  intros Hmap Hrange Hend Hgrid. unfold validate.
  set (mid := Z.max start_row (Z.of_nat (length df))).
  rewrite (range_split start_row mid (end_row + 1)) by lia.
  rewrite check_rows_app.
  destruct (check_rows_total date_parse float_repr df tol fuzzy mapping
              (range start_row mid) []) as [ms ->].
  { intros r lc rc Hr%elem_of_range Hin. apply Hgrid; [lia|done]. }
  simpl. rewrite range_cons by lia. simpl.
  destruct mapping as [|[lc rc] mapping']; [done|]. simpl.
  assert (iloc df mid = Raise IndexError) as ->; [|done].
  unfold iloc.
  destruct (Z.ltb_spec mid (Z.of_nat (length df))); [lia|].
  rewrite andb_false_r.
  destruct (Z.ltb_spec mid 0); [lia|]. by rewrite andb_false_r.
Qed.

(** X20. The run over a range is the run over its first rows followed by the run
    over the rest: the mismatches are appended and the totals add up. *)
Theorem validate_split (start_row mid_row end_row : Z)
    (mapping : list (string * string)) (tol fuzzy : spec_float)
    (ms1 ms2 : list mismatch) (total1 total2 : Z) :
  start_row ≤ mid_row + 1 → mid_row ≤ end_row →
  validate date_parse float_repr df start_row mid_row mapping tol fuzzy
  = Ok (ms1, total1) →
  validate date_parse float_repr df (mid_row + 1) end_row mapping tol fuzzy
  = Ok (ms2, total2) →
  validate date_parse float_repr df start_row end_row mapping tol fuzzy
  = Ok (ms1 ++ ms2, total1 + total2).
Proof.
  intros Hlo Hhi. unfold validate.
  intros (ms1' & Hrun1 & [= -> <-])%bind_Ok.
  intros (ms2' & Hrun2 & [= -> <-])%bind_Ok.
  rewrite (range_split start_row (mid_row + 1) (end_row + 1)) by lia.
  rewrite check_rows_app, Hrun1. simpl.
  rewrite check_rows_acc, Hrun2. simpl. do 2 f_equal. lia.
Qed.

(** *** The order of the records *)

Lemma check_pairs_places (tol fuzzy : spec_float) (r : Z)
    (mapping : list (string * string)) (acc ms : list mismatch) :
  check_pairs date_parse float_repr df tol fuzzy r mapping acc = Ok ms →
  ∃ new, ms = acc ++ new
         ∧ place <$> new `sublist_of` (mapping ≫= λ p, [(r, p.1, p.2)]).
Proof.
  revert acc. induction mapping as [|[lc rc] mapping IH]; intros acc; simpl.
  - intros [= <-]. exists []. by rewrite app_nil_r.
  - intros (x & Hx & (y & Hy & ([ok why] & Hcmp & Hrun)%bind_Ok)%bind_Ok)%bind_Ok.
    apply IH in Hrun as (new & -> & Hsub). destruct ok.
    + exists new. split; [done|]. by apply sublist_cons.
    + eexists (_ :: new). split; [by rewrite <- app_assoc|].
      rewrite fmap_cons. by apply sublist_skip.
Qed.

Lemma check_rows_places (tol fuzzy : spec_float)
    (mapping : list (string * string)) (rows : list Z)
    (acc ms : list mismatch) :
  check_rows date_parse float_repr df tol fuzzy mapping rows acc = Ok ms →
  ∃ new, ms = acc ++ new
         ∧ place <$> new
           `sublist_of` (rows ≫= λ r, mapping ≫= λ p, [(r, p.1, p.2)]).
Proof.
  revert acc. induction rows as [|r rows IH]; intros acc; simpl.
  - intros [= <-]. exists []. by rewrite app_nil_r.
  - intros (mid & Hpass & Hrun)%bind_Ok.
    apply check_pairs_places in Hpass as (pass & -> & Hsub1).
    apply IH in Hrun as (new & -> & Hsub2).
    exists (pass ++ new). split; [by rewrite app_assoc|].
    rewrite fmap_app. by apply sublist_app.
Qed.

(** X21. The records come in the order of the two loops, row by row and pair by
    pair, with at most one record for each visit of a place. *)
Theorem validate_row_major (start_row end_row : Z)
    (mapping : list (string * string)) (tol fuzzy : spec_float)
    (ms : list mismatch) (total : Z) :
  validate date_parse float_repr df start_row end_row mapping tol fuzzy
  = Ok (ms, total) →
  place <$> ms `sublist_of` grid start_row end_row mapping.
Proof.
  unfold validate. intros (ms' & Hrun & [= -> _])%bind_Ok.
  by apply check_rows_places in Hrun as (new & -> & Hsub).
Qed.

(** *** Looser tolerances *)

Lemma check_pairs_loosen (tol tol' fuzzy fuzzy' : spec_float) (r : Z)
    (mapping : list (string * string)) (acc acc' ms : list mismatch) :
  Float.le tol tol' = true → Float.le fuzzy' fuzzy = true →
  acc' `sublist_of` acc →
  check_pairs date_parse float_repr df tol fuzzy r mapping acc = Ok ms →
  ∃ ms', check_pairs date_parse float_repr df tol' fuzzy' r mapping acc'
         = Ok ms'
         ∧ ms' `sublist_of` ms.
Proof.
  intros Htol Hfuzzy. revert acc acc'.
  induction mapping as [|[lc rc] mapping IH]; intros acc acc' Hsub; simpl.
  - intros [= <-]. eauto.
  - intros (x & -> & (y & -> & ([ok why] & Hcmp & Hrun)%bind_Ok)%bind_Ok)%bind_Ok.
    simpl.
    destruct (compare_tolerances date_parse float_repr x y tol tol'
                fuzzy fuzzy' ok why Htol Hfuzzy Hcmp)
      as (ok' & why' & -> & Hyes & Hno).
    simpl. destruct ok' eqn:Hok'.
    + eapply IH; [|done]. destruct ok; [done|]. by apply sublist_inserts_r.
    + destruct Hno as [-> ->]; [done|]. eapply IH; [|done].
      by apply sublist_app.
Qed.

Lemma check_rows_loosen (tol tol' fuzzy fuzzy' : spec_float)
    (mapping : list (string * string)) (rows : list Z)
    (acc acc' ms : list mismatch) :
  Float.le tol tol' = true → Float.le fuzzy' fuzzy = true →
  acc' `sublist_of` acc →
  check_rows date_parse float_repr df tol fuzzy mapping rows acc = Ok ms →
  ∃ ms', check_rows date_parse float_repr df tol' fuzzy' mapping rows acc'
         = Ok ms'
         ∧ ms' `sublist_of` ms.
Proof.
  intros Htol Hfuzzy. revert acc acc'.
  induction rows as [|r rows IH]; intros acc acc' Hsub; simpl.
  - intros [= <-]. eauto.
  - intros (mid & Hpass & Hrun)%bind_Ok.
    destruct (check_pairs_loosen tol tol' fuzzy fuzzy' r mapping acc acc' mid
                Htol Hfuzzy Hsub Hpass) as (mid' & -> & Hsub').
    simpl. by eapply IH.
Qed.

(** X22. A run with a larger numeric tolerance and a smaller fuzzy threshold
    completes when the first one does, with the same [total_checks], and
    its records are records of the first run, in the same order. *)
Theorem validate_loosen (start_row end_row : Z)
    (mapping : list (string * string)) (tol tol' fuzzy fuzzy' : spec_float)
    (ms : list mismatch) (total : Z) :
  Float.le tol tol' = true → Float.le fuzzy' fuzzy = true →
  validate date_parse float_repr df start_row end_row mapping tol fuzzy
  = Ok (ms, total) →
  ∃ ms', validate date_parse float_repr df start_row end_row mapping
           tol' fuzzy' = Ok (ms', total)
         ∧ ms' `sublist_of` ms.
Proof.
  intros Htol Hfuzzy. unfold validate.
  intros (ms0 & Hrun & [= -> <-])%bind_Ok.
  destruct (check_rows_loosen tol tol' fuzzy fuzzy' mapping _ [] [] ms
              Htol Hfuzzy ltac:(done) Hrun) as (ms' & -> & Hsub).
  simpl. eauto.
Qed.

(** *** A run without mismatches *)

(** X23. A run returns no mismatch exactly when [compare] accepted the two cells
    of every pair of the mapping on every row of the range. *)
Theorem validate_all_match (start_row end_row : Z)
    (mapping : list (string * string)) (tol fuzzy : spec_float)
    (ms : list mismatch) (total : Z) :
  validate date_parse float_repr df start_row end_row mapping tol fuzzy
  = Ok (ms, total) →
  ms = [] ↔
  ∀ r lc rc, start_row ≤ r ≤ end_row → (lc, rc) ∈ mapping →
    ∃ x y why,
      (s ← iloc df r; getitem s lc) = Ok x
      ∧ (s ← iloc df r; getitem s rc) = Ok y
      ∧ compare date_parse float_repr x y tol fuzzy = Ok (true, why).
Proof.
  unfold validate. intros (ms' & Hrun & [= -> _])%bind_Ok.
  apply check_rows_inv in Hrun as (new & -> & _ & Hall & Hrows). simpl.
  split.
  - intros -> r lc rc Hr Hin.
    destruct (Hrows r) as (pass & Hsub & _ & _ & Hpass);
      [apply elem_of_range; lia|].
    destruct (Hpass lc rc Hin) as (x & y & ok & why & ? & ? & ? & Hrec).
    exists x, y, why. split_and!; try done.
    destruct ok; [done|]. specialize (Hrec eq_refl). set_solver.
  - intros Hyes. destruct new as [|m new]; [done|].
    apply Forall_cons in Hall as [[Hr%elem_of_range Hm] _].
    destruct Hm as (_ & Hin & Hx & Hy & Hcmp).
    destruct (Hyes (row m) (left_column m) (right_column m))
      as (x & y & why & Hx' & Hy' & Hcmp'); [lia|done|].
    rewrite Hx in Hx'. rewrite Hy in Hy'.
    injection Hx' as <-. injection Hy' as <-. by rewrite Hcmp in Hcmp'.
Qed.

End ValidationMore.

(** ** The numeric rule, and when [compare] returns *)

Lemma py_float_int (z : Z) :
  Z.abs z < 2 ^ 53 → py_float (VInt z) = Ok (Float.of_Z z).
Proof.
  intros Hz. destruct (decide (z = 0)) as [->|Hne]; [done|]. simpl.
  by destruct (of_Z_exact z) as (m & -> & _).
Qed.

Section EngineClaims.

Variable date_parse : string → option datetime.
Variable float_repr : spec_float → string.

(** C2, as the code has it. When neither value is absent and one of them
    classifies as a number, [compare] converts both with [float()]; when
    one does not convert, the result is no match with reason
    [num parse fail], and no other rule is consulted. When both convert,
    the verdict is the binary64 test [abs(x - y) <= tol] on the two floats,
    with reason [num ok] or [num mismatch]: the bound is inclusive, the
    order of the two values does not count, two equal finite floats match
    under every tolerance that is not negative, and a tolerance below zero
    accepts nothing. For two integers below [2^52] the test is exact: they
    match exactly when [|m - n| <= tol] holds of the integers and the exact
    value of the tolerance. (It is not exact in general: the values are
    rounded to floats first, see [compare_numeric_rounding].) *)
Theorem compare_numeric (a b : cell) (tol fuzzy : spec_float) :
  isna a = false → isna b = false →
  detect_type date_parse float_repr a = Ok (Some "number")
  ∨ detect_type date_parse float_repr b = Ok (Some "number") →
  compare date_parse float_repr a b tol fuzzy =
    match py_float a, py_float b with
    | Ok x, Ok y =>
        let ok := Float.le (Float.abs (Float.sub x y)) tol in
        Ok (ok, if ok then "num ok" else "num mismatch")
    | _, _ => Ok (false, "num parse fail")
    end
  ∧ (∀ x y, py_float a = Ok x → py_float b = Ok y →
       SFeqb (Float.abs (Float.sub x y)) tol = true →
       compare date_parse float_repr a b tol fuzzy = Ok (true, "num ok"))
  ∧ compare date_parse float_repr a b tol fuzzy
    = compare date_parse float_repr b a tol fuzzy
  ∧ (∀ x, py_float a = Ok x → py_float b = Ok x →
       Float.is_finite x = true → Float.le Float.zero tol = true →
       compare date_parse float_repr a b tol fuzzy = Ok (true, "num ok"))
  ∧ (Float.le Float.zero tol = false →
     ∀ why, compare date_parse float_repr a b tol fuzzy ≠ Ok (true, why))
  ∧ (∀ m n, a = VInt m → b = VInt n →
       Z.abs m < 2 ^ 52 → Z.abs n < 2 ^ 52 → normal tol →
       let ok := bool_decide (within_tolerance (Z.abs (m - n)) 1 tol) in
       compare date_parse float_repr a b tol fuzzy
       = Ok (ok, if ok then "num ok" else "num mismatch")).
Proof.
  intros Ha Hb Hnum.
  assert (Hor : is_ok (py_float a) || is_ok (py_float b) = true).
  { rewrite !detect_type_number in Hnum by done.
    destruct Hnum as [-> | ->]; [done | apply orb_true_r]. }
  assert (compare date_parse float_repr a b tol fuzzy =
            match py_float a, py_float b with
            | Ok x, Ok y =>
                let ok := Float.le (Float.abs (Float.sub x y)) tol in
                Ok (ok, if ok then "num ok" else "num mismatch")
            | _, _ => Ok (false, "num parse fail")
            end) as Hrule.
  { rewrite compare_present, Hor by done. unfold compare_numbers.
    pose proof (py_float_not_Diverge a). pose proof (py_float_not_Diverge b).
    destruct (py_float a) as [x| |], (py_float b) as [y| |]; simpl; try done.
    by destruct (Float.le _ tol). }
  split_and!.
  - done.
  - intros x y Hx Hy Heq. rewrite Hrule, Hx, Hy. simpl.
    unfold Float.le, SFleb. unfold SFeqb in Heq.
    by destruct (SFcompare _ tol) as [[]|].
  - rewrite !compare_present by done.
    rewrite (orb_comm (is_ok (py_float b))), Hor.
    apply compare_numbers_comm.
  - intros x Hx Hy Hfin Htol. rewrite Hrule, Hx, Hy. simpl.
    by rewrite sub_self, Htol.
  - intros Htol why. rewrite Hrule.
    destruct (py_float a) as [x| |], (py_float b) as [y| |]; try done.
    simpl. destruct (Float.le (Float.abs _) tol) eqn:Hle; [|done].
    apply abs_le_nonneg in Hle. by rewrite Hle in Htol.
  - intros m n -> -> Hm Hn Hnorm.
    rewrite Hrule, !py_float_int by lia. simpl.
    rewrite sub_of_Z by done.
    pose proof (le_of_Z (Z.abs (m - n)) tol ltac:(lia) Hnorm) as Hle.
    destruct (Float.le (Float.of_Z (Z.abs (m - n))) tol) eqn:Heq.
    + rewrite bool_decide_true; [done|]. by apply Hle.
    + rewrite bool_decide_false; [done|]. intros Hin%Hle. done.
Qed.


(** *** When [compare] returns *)





End EngineClaims.

Section RunClaims.

Variable date_parse : string → option datetime.
Variable float_repr : spec_float → string.
Variables (df : dataframe) (tol fuzzy : spec_float).


End RunClaims.

(** ** The engine on concrete inputs *)

Example default_tolerances :
  FloatParse.parse "0.01" = Some default_num_tol
  ∧ FloatParse.parse "0.85" = Some default_fuzzy_tol
  ∧ FloatParse.parse "10.005" = Some float_10_005.
Proof. by vm_compute. Qed.

(** The end-to-end scenario: the number and the date rows match, the name
    row is reported with its ratio, and three checks were made. *)
Example end_to_end :
  validate sample_date_parse sample_float_repr sample_table 0 2
    sample_mapping default_num_tol default_fuzzy_tol
  = Ok ([{| row := 2; left_column := "left"; right_column := "right";
            left_value := VStr "Bob"; right_value := VStr "Bobby";
            reason := "string mismatch (0.75)" |}], 3).
Proof. by vm_compute. Qed.

Lemma sample_grid_ok : grid_ok sample_table 0 2 sample_mapping.
Proof.
  intros r lc rc Hr [= -> ->]%list_elem_of_singleton.
  assert (r = 0 ∨ r = 1 ∨ r = 2) as [->|[->| ->]] by lia;
    eexists _, _, _; (split; [by vm_compute|]); (split; [by vm_compute|]);
    (split; [by vm_compute|]); by vm_compute.
Qed.

(** C1: ["Apple"] and ["apple"] differ only in letter case, and [compare]
    does not answer [string match] for them. *)
Lemma compare_Apple_apple :
  lower (strip "Apple") = lower (strip "apple")
  ∧ compare sample_date_parse sample_float_repr (VStr "Apple") (VStr "apple")
      default_num_tol default_fuzzy_tol
    ≠ Ok (true, "string match").
Proof. split; [by vm_compute | vm_compute; discriminate]. Qed.

Lemma compare_text_exact_witness :
  compare sample_date_parse sample_float_repr (VStr " Apple") (VStr "Apple ")
    default_num_tol default_fuzzy_tol
  = Ok (true, "string match").
Proof.
  apply (compare_text_exact sample_date_parse sample_float_repr
           (VStr " Apple") (VStr "Apple ") default_num_tol default_fuzzy_tol
           " Apple" "Apple ");
    try (vm_compute; (reflexivity || discriminate)).
Defined.

(** C2: [1.5] against [1] at tolerance [0.5], a difference equal to the
    tolerance, and the integers [7] and [9] at tolerance [0.01]. *)
Lemma compare_numeric_witness :
  compare sample_date_parse sample_float_repr
    (VFloat (S754_finite false 6755399441055744 (-52))) (VInt 1)
    fuzzy_half default_fuzzy_tol
  = Ok (true, "num ok")
  ∧ compare sample_date_parse sample_float_repr (VInt 7) (VInt 9)
      default_num_tol default_fuzzy_tol
    = Ok (false, "num mismatch").
Proof.
  split.
  - destruct (compare_numeric sample_date_parse sample_float_repr
                (VFloat (S754_finite false 6755399441055744 (-52))) (VInt 1)
                fuzzy_half default_fuzzy_tol) as (_ & Hbound & _);
      [done|done|left; by vm_compute|].
    by apply (Hbound (S754_finite false 6755399441055744 (-52)) Float.one).
  - destruct (compare_numeric sample_date_parse sample_float_repr
                (VInt 7) (VInt 9) default_num_tol default_fuzzy_tol)
      as (_ & _ & _ & _ & _ & Hint); [done|done|left; by vm_compute|].
    by rewrite (Hint 7 9).
Defined.

(** C2: the test is made on floats, not on the values as written. The
    integers [2^53 + 1] and [2^53] have the same float, and match at
    tolerance [0.01] although they differ by [1]; the decimals [1.00] and
    [1.01] differ by [0.01], which the tolerance [0.01] allows, but the
    difference of their floats is above the float [0.01], and they do not
    match. *)
Lemma compare_numeric_rounding :
  compare sample_date_parse sample_float_repr
    (VInt 9007199254740993) (VInt 9007199254740992)
    default_num_tol default_fuzzy_tol = Ok (true, "num ok")
  ∧ ¬ within_tolerance (Z.abs (9007199254740993 - 9007199254740992)) 1
        default_num_tol
  ∧ compare sample_date_parse sample_float_repr
      (VStr "9007199254740993") (VStr "9007199254740992")
      default_num_tol default_fuzzy_tol = Ok (true, "num ok")
  ∧ FloatParse.parse "0.01" = Some default_num_tol
  ∧ within_tolerance (Z.abs (100 - 101)) 100 default_num_tol
  ∧ compare sample_date_parse sample_float_repr (VStr "1.00") (VStr "1.01")
      default_num_tol default_fuzzy_tol = Ok (false, "num mismatch").
Proof.
  split_and!; by vm_compute.
Qed.

(** C3: the same calendar date in two formats, and two dates a day apart. *)
Lemma compare_date_witness :
  compare sample_date_parse sample_float_repr
    (VStr "2024-01-05") (VStr "01/05/2024") default_num_tol default_fuzzy_tol
  = Ok (true, "date ok")
  ∧ compare sample_date_parse sample_float_repr
      (VStr "2024-01-05") (VStr "2024-01-06")
      default_num_tol default_fuzzy_tol
    = Ok (false, "date mismatch").
Proof.
  split.
  - destruct (compare_date sample_date_parse sample_float_repr
                (VStr "2024-01-05") (VStr "01/05/2024")
                default_num_tol default_fuzzy_tol) as (_ & Hsame & _);
      [done|done|by vm_compute|by vm_compute|left; by vm_compute|].
    eapply Hsame; vm_compute; reflexivity.
  - destruct (compare_date sample_date_parse sample_float_repr
                (VStr "2024-01-05") (VStr "2024-01-06")
                default_num_tol default_fuzzy_tol) as (_ & _ & Hdiff);
      [done|done|by vm_compute|by vm_compute|left; by vm_compute|].
    eapply Hdiff; [vm_compute; reflexivity..|].
    right. right. vm_compute. discriminate.
Defined.

Lemma compare_absent_witness :
  compare sample_date_parse sample_float_repr VNone (VInt 5)
    default_num_tol default_fuzzy_tol
  = Ok (false, "left empty").
Proof.
  by apply (compare_absent sample_date_parse sample_float_repr
              VNone (VInt 5) default_num_tol default_fuzzy_tol).
Defined.

Lemma total_checks_formula_witness :
  ∃ ms, validate sample_date_parse sample_float_repr sample_table 0 2
          sample_mapping default_num_tol default_fuzzy_tol
        = Ok (ms, 3).
Proof.
  apply (total_checks_formula sample_date_parse sample_float_repr
           sample_table default_num_tol default_fuzzy_tol 0 2 sample_mapping);
    [lia | apply sample_grid_ok].
Defined.

Lemma detect_type_classifier_witness :
  detect_type sample_date_parse sample_float_repr (VStr "2024")
  = Ok (Some "number").
Proof.
  apply (detect_type_classifier sample_date_parse sample_float_repr VNone);
    [discriminate | repeat constructor].
Defined.

(** C7: the ratio of ["tide"] to ["diet"] is [0.25], that of ["diet"] to
    ["tide"] is [0.5]. *)
Lemma ratio_not_symmetric :
  SequenceMatcher.ratio (chars "tide") (chars "diet")
  ≠ SequenceMatcher.ratio (chars "diet") (chars "tide")
  ∧ ¬ ∀ s t : string,
        SequenceMatcher.ratio (chars s) (chars t)
        = SequenceMatcher.ratio (chars t) (chars s).
Proof.
  split; [vm_compute; discriminate|].
  intros Hsym. specialize (Hsym "tide" "diet"). vm_compute in Hsym.
  discriminate.
Qed.

Lemma ratio_one_iff_equal_witness :
  SequenceMatcher.ratio (chars "apple") (chars "apple") = Ok Float.one.
Proof.
  apply (ratio_one_iff_equal "apple" "apple"); [by vm_compute | done].
Defined.



Lemma mismatch_records_sound_witness :
  Forall (recorded_by sample_date_parse sample_float_repr sample_table 0 2
            sample_mapping default_num_tol default_fuzzy_tol)
    [{| row := 2; left_column := "left"; right_column := "right";
        left_value := VStr "Bob"; right_value := VStr "Bobby";
        reason := "string mismatch (0.75)" |}]
  ∧ Z.of_nat 1 ≤ 3.
Proof.
  destruct (mismatch_records_sound sample_date_parse sample_float_repr
              sample_table default_num_tol default_fuzzy_tol 0 2
              sample_mapping
              [{| row := 2; left_column := "left"; right_column := "right";
                  left_value := VStr "Bob"; right_value := VStr "Bobby";
                  reason := "string mismatch (0.75)" |}] 3)
    as (Hall & _ & _ & Hbound & _); [by vm_compute|].
  split; [done|]. apply Hbound. lia.
Defined.

(** C9: the page accepts a start row past the end row; the run over rows
    [2..0] returns no record and a [total_checks] of [-1], which the number
    of records exceeds. *)
Lemma mismatches_exceed_total :
  validate sample_date_parse sample_float_repr sample_table 2 0
    sample_mapping default_num_tol default_fuzzy_tol = Ok ([], -1)
  ∧ ¬ Z.of_nat (length (@nil mismatch)) ≤ -1.
Proof. split; [by vm_compute|simpl; lia]. Qed.

Lemma compare_case_only_witness :
  compare sample_date_parse sample_float_repr (VStr "Apple") (VStr "apple")
    default_num_tol default_fuzzy_tol
  = Ok (true, "string mismatch (1.00)").
Proof.
  apply (compare_case_only sample_date_parse sample_float_repr
           (VStr "Apple") (VStr "apple") default_num_tol default_fuzzy_tol
           "Apple" "apple");
    try (vm_compute; (reflexivity || discriminate)).
Defined.

(** The numeric examples: [1.000] against [1.004] and [1.00] against [1.02]
    at tolerance [0.01], whatever the date parser is. *)
Example compare_numeric_examples (date_parse : string → option datetime)
    (float_repr : spec_float → string) (fuzzy : spec_float) :
  compare date_parse float_repr
    (VFloat Float.one) (VFloat (S754_finite false 4521614025879978 (-52)))
    default_num_tol fuzzy = Ok (true, "num ok")
  ∧ compare date_parse float_repr
      (VFloat Float.one) (VFloat (S754_finite false 4593671619917906 (-52)))
      default_num_tol fuzzy = Ok (false, "num mismatch").
Proof. by vm_compute. Qed.

(** An infinite number does not match itself: [inf - inf] is a NaN, and a
    NaN is not [<= tol]. *)
Example compare_inf_inf (date_parse : string → option datetime)
    (float_repr : spec_float → string) (fuzzy : spec_float) :
  compare date_parse float_repr (VStr "inf") (VStr "inf")
    default_num_tol fuzzy = Ok (false, "num mismatch").
Proof. by vm_compute. Qed.

Lemma compare_reflexive_witness :
  ∃ why, compare sample_date_parse sample_float_repr
           (VStr "2024-01-05") (VStr "2024-01-05")
           default_num_tol default_fuzzy_tol = Ok (true, why).
Proof.
  apply (compare_reflexive sample_date_parse sample_float_repr
           (VStr "2024-01-05") default_num_tol default_fuzzy_tol);
    try done.
Defined.

(** ** The further facts on concrete inputs *)

Lemma make_unique_labels_witness :
  ∃ new_cols, make_unique ["id"; "name"; "name"] = Ok new_cols
              ∧ length new_cols = 3%nat.
Proof.
  destruct (make_unique_labels ["id"; "name"; "name"]) as (out & ? & ? & _);
    [by vm_compute|].
  by exists out.
Defined.

Lemma make_unique_distinct_input_witness :
  make_unique ["id"; "name"] = Ok ["id"; "name"].
Proof.
  apply make_unique_distinct_input. repeat constructor; set_solver.
Defined.

Lemma make_unique_distinct_witness :
  NoDup ["name"; "id"; "name__1"]
  ∧ make_unique ["name"; "id"; "name__1"] = Ok ["name"; "id"; "name__1"].
Proof.
  apply (make_unique_distinct ["name"; "id"; "name"]); [|by vm_compute].
  intros col k s Hcol _ _ Hin.
  repeat match goal with
         | H : _ ∈ _ :: _ |- _ => apply elem_of_cons in H as [H|H]
         | H : _ ∈ [] |- _ => by apply elem_of_nil in H
         end; subst; discriminate.
Defined.

(** X8. The verdict of the text rule depends on which value is the left one:
    at the threshold [0.5], ["tide"] against ["diet"] is rejected, and
    ["diet"] against ["tide"] is accepted. *)
Theorem compare_text_not_symmetric :
  compare sample_date_parse sample_float_repr (VStr "tide") (VStr "diet")
    default_num_tol fuzzy_half = Ok (false, "string mismatch (0.25)")
  ∧ compare sample_date_parse sample_float_repr (VStr "diet") (VStr "tide")
      default_num_tol fuzzy_half = Ok (true, "string mismatch (0.50)").
Proof. by vm_compute. Qed.

Lemma compare_symmetric_witness :
  compare sample_date_parse sample_float_repr (VInt 3) (VStr "3.004")
    default_num_tol default_fuzzy_tol
  = compare sample_date_parse sample_float_repr (VStr "3.004") (VInt 3)
      default_num_tol default_fuzzy_tol.
Proof.
  apply (compare_symmetric sample_date_parse sample_float_repr); try done.
  left. by vm_compute.
Defined.

Lemma compare_loosen_witness :
  compare sample_date_parse sample_float_repr
    (VFloat Float.one) (VFloat (S754_finite false 4521614025879978 (-52)))
    Float.one fuzzy_half = Ok (true, "num ok").
Proof.
  apply (compare_loosen sample_date_parse sample_float_repr _ _
           default_num_tol Float.one default_fuzzy_tol fuzzy_half);
    by vm_compute.
Defined.

Lemma compare_results_witness :
  (false, "string mismatch (0.75)"%string)
  ∈ [(true, "empty"%string); (false, "left empty"%string);
     (false, "right empty"%string); (true, "num ok"%string);
     (false, "num mismatch"%string); (false, "num parse fail"%string);
     (true, "date ok"%string); (false, "date mismatch"%string);
     (true, "string match"%string)]
  ∨ ∃ ratio, false = Float.ge ratio default_fuzzy_tol
             ∧ "string mismatch (0.75)"%string
               = "string mismatch (" +:+ format_2f ratio +:+ ")".
Proof.
  apply (compare_results sample_date_parse sample_float_repr
           (VStr "Bob") (VStr "Bobby") default_num_tol default_fuzzy_tol).
  by vm_compute.
Defined.

Lemma compare_accepts_witness :
  ∃ da db,
    parse_date sample_date_parse sample_float_repr (VStr "2024-01-05") = Ok da
    ∧ parse_date sample_date_parse sample_float_repr (VStr "01/05/2024")
      = Ok db
    ∧ date da = date db.
Proof.
  assert (compare sample_date_parse sample_float_repr
            (VStr "2024-01-05") (VStr "01/05/2024")
            default_num_tol default_fuzzy_tol = Ok (true, "date ok")) as Hrun
    by (by vm_compute).
  destruct (compare_accepts sample_date_parse sample_float_repr
              (VStr "2024-01-05") (VStr "01/05/2024")
              default_num_tol default_fuzzy_tol "date ok" Hrun)
    as [(? & _)|[(? & _)|[(_ & ?)|(sa & sb & _ & _ & [(? & _)|(r & _ & _ & ?)])]]];
    done.
Defined.

Lemma compare_not_finite_witness :
  compare sample_date_parse sample_float_repr (VStr "inf") (VStr "Infinity")
    default_num_tol default_fuzzy_tol = Ok (false, "num mismatch").
Proof.
  by apply (compare_not_finite sample_date_parse sample_float_repr
              (VStr "inf") (VStr "Infinity") (S754_infinity false)).
Defined.

Lemma compare_raises_witness :
  compare sample_date_parse sample_float_repr
    (VInt (10 ^ int_max_str_digits)) (VStr "x")
    default_num_tol default_fuzzy_tol = Raise ValueError.
Proof.
  apply (compare_raises sample_date_parse sample_float_repr); by vm_compute.
Defined.

Lemma ratio_bounds_witness :
  ∃ r, SequenceMatcher.ratio (chars "Bob") (chars "Bobby") = Ok r
       ∧ Float.le Float.zero r = true ∧ Float.le r Float.one = true.
Proof. apply (ratio_bounds "Bob" "Bobby"). by vm_compute. Defined.

Lemma compare_text_strict_witness :
  ∃ why, compare sample_date_parse sample_float_repr
           (VStr "Apple") (VStr "apple") default_num_tol Float.one
         = Ok (true, why).
Proof.
  apply (compare_text_strict sample_date_parse sample_float_repr
           (VStr "Apple") (VStr "apple") default_num_tol "Apple" "apple");
    by vm_compute.
Defined.

Lemma compare_nothing_in_common_witness :
  compare sample_date_parse sample_float_repr (VStr "abc") (VStr "xyz")
    default_num_tol default_fuzzy_tol
  = Ok (false, "string mismatch (0.00)").
Proof.
  apply (compare_nothing_in_common sample_date_parse sample_float_repr
           (VStr "abc") (VStr "xyz") default_num_tol default_fuzzy_tol
           "abc" "xyz"); try by vm_compute.
  apply (proj1 (Forall_forall (λ c, c ∉ chars (lower (strip "xyz")))
                  (chars (lower (strip "abc"))))).
  pose (dec := _ : Decision (Forall (λ c, c ∉ chars (lower (strip "xyz")))
                               (chars (lower (strip "abc"))))).
  apply (bool_decide_unpack _ (dec := dec)). by vm_compute.
Defined.

Lemma compare_text_padding_witness :
  compare sample_date_parse sample_float_repr (VStr "  Bob ") (VStr "Bobby")
    default_num_tol default_fuzzy_tol
  = compare sample_date_parse sample_float_repr (VStr "Bob") (VStr "Bobby")
      default_num_tol default_fuzzy_tol.
Proof.
  apply (compare_text_padding sample_date_parse sample_float_repr
           "Bob" "  " " " (VStr "Bobby")); try by vm_compute.
  all: repeat constructor.
Defined.

Lemma validate_inverted_range_witness :
  validate sample_date_parse sample_float_repr sample_table 2 0
    sample_mapping default_num_tol default_fuzzy_tol = Ok ([], -1)
  ∧ -1 ≤ 0.
Proof.
  by apply (validate_inverted_range sample_date_parse sample_float_repr
              sample_table 2 0 sample_mapping).
Defined.

Lemma validate_past_the_end_witness :
  validate sample_date_parse sample_float_repr sample_table 0 5
    sample_mapping default_num_tol default_fuzzy_tol = Raise IndexError.
Proof.
  apply (validate_past_the_end sample_date_parse sample_float_repr
           sample_table 0 5 sample_mapping); try done.
  apply sample_grid_ok.
Defined.

Lemma validate_split_witness :
  validate sample_date_parse sample_float_repr sample_table 0 2
    sample_mapping default_num_tol default_fuzzy_tol
  = Ok ([] ++ [{| row := 2; left_column := "left"; right_column := "right";
                  left_value := VStr "Bob"; right_value := VStr "Bobby";
                  reason := "string mismatch (0.75)" |}], 2 + 1).
Proof.
  apply (validate_split sample_date_parse sample_float_repr sample_table
           0 1 2); by vm_compute.
Defined.

Lemma validate_row_major_witness :
  place <$> [{| row := 2; left_column := "left"; right_column := "right";
                left_value := VStr "Bob"; right_value := VStr "Bobby";
                reason := "string mismatch (0.75)" |}]
  `sublist_of` grid 0 2 sample_mapping.
Proof.
  apply (validate_row_major sample_date_parse sample_float_repr sample_table
           0 2 sample_mapping default_num_tol default_fuzzy_tol _ 3).
  by vm_compute.
Defined.

Lemma validate_loosen_witness :
  ∃ ms', validate sample_date_parse sample_float_repr sample_table 0 2
           sample_mapping Float.one fuzzy_half = Ok (ms', 3)
         ∧ ms' `sublist_of`
             [{| row := 2; left_column := "left"; right_column := "right";
                 left_value := VStr "Bob"; right_value := VStr "Bobby";
                 reason := "string mismatch (0.75)" |}].
Proof.
  apply (validate_loosen sample_date_parse sample_float_repr sample_table
           0 2 sample_mapping default_num_tol Float.one
           default_fuzzy_tol fuzzy_half); by vm_compute.
Defined.

Lemma validate_all_match_witness :
  @nil mismatch = [] ↔
  ∀ r lc rc, 0 ≤ r ≤ 1 → (lc, rc) ∈ sample_mapping →
    ∃ x y why,
      (s ← iloc sample_table r; getitem s lc) = Ok x
      ∧ (s ← iloc sample_table r; getitem s rc) = Ok y
      ∧ compare sample_date_parse sample_float_repr x y
          default_num_tol default_fuzzy_tol = Ok (true, why).
Proof.
  apply (validate_all_match sample_date_parse sample_float_repr sample_table
           0 1 sample_mapping default_num_tol default_fuzzy_tol [] 2).
  by vm_compute.
Defined.
